(** * file_cleanup.py: the selective file-retention deletion utility

    A shallow embedding of [src/file_cleanup.py] and the properties its
    specification states about it.

    The script works on the file system through [pathlib] and [os]: the
    development models
    - [pathlib.PurePosixPath] values as a record of an absolute flag and the
      list of components ([Path]);
    - the file system as a finite map from canonical keys (the list of names
      from the root) to nodes (regular file, directory, symbolic link);
    - the calls the script makes ([exists], [resolve], [iterdir], [unlink],
      [rmdir], the [scandir] of [os.walk], [open]) as operations of a state and
      exception monad over a [World] that also records what was printed and
      which calls were issued in which file-system state. *)

From Stdlib Require Import Ascii String.
From stdpp Require Import gmap strings list fin_maps.

Local Open Scope string_scope.
Local Open Scope list_scope.

(* ===================================================================== *)
(** * Paths *)
(* ===================================================================== *)

Module PurePath.

(** A parsed POSIX path.  [pathlib] keeps a root of exactly two slashes
    apart from a single one; every comparison the script makes happens
    after [resolve()], which collapses it, so one flag is kept. *)
Record Path : Type := mkPath { absolute : bool; parts : list string }.

#[global] Instance Path_eq_dec : EqDecision Path.
Proof. solve_decision. Defined.

(** [s.split("/")]: the maximal slash-free pieces of [s], the piece being
    read is [cur]. *)
Fixpoint split_slash (cur : string) (s : string) : list string :=
  match s with
  | EmptyString => [cur]
  | String c s' =>
      if decide (c = "/"%char) then cur :: split_slash "" s'
      else split_slash (String.append cur (String c "")) s'
  end.

Definition starts_with_slash (s : string) : bool :=
  match s with
  | String c _ => bool_decide (c = "/"%char)
  | EmptyString => false
  end.

(** A component that parsing keeps: neither empty nor ["."]. *)
Definition kept_component (c : string) : bool :=
  negb (bool_decide (c = "")) && negb (bool_decide (c = ".")).

(** [Path(s)]: empty and ["."] components are dropped, [".."] is kept. *)
Definition parse (s : string) : Path :=
  {| absolute := starts_with_slash s;
     parts := List.filter kept_component (split_slash "" s) |}.

(** [p.name]: the final component, the empty string when there is none. *)
Definition name (p : Path) : string := List.last (parts p) "".

Definition is_absolute (p : Path) : bool := absolute p.

(** [a / b]: an absolute right operand replaces the left one. *)
Definition joinpath (a b : Path) : Path :=
  if absolute b then b
  else {| absolute := absolute a; parts := parts a ++ parts b |}.

(** The proper prefixes of a list, shortest first. *)
Fixpoint prefixes (l : list string) : list (list string) :=
  match l with
  | [] => []
  | x :: l' => [] :: List.map (cons x) (prefixes l')
  end.

(** [p.parents]: the logical ancestors of [p], nearest first. *)
Definition parents (p : Path) : list Path :=
  List.map (mkPath (absolute p)) (reverse (prefixes (parts p))).

(** [d] is a strict ancestor of [p]: same anchor, and the components of
    [d] are a proper prefix of those of [p]. *)
Definition strict_ancestor (d p : Path) : Prop :=
  absolute d = absolute p ∧ ∃ rest, rest ≠ [] ∧ parts p = parts d ++ rest.

End PurePath.
Export PurePath.

(* ===================================================================== *)
(** * The file system *)
(* ===================================================================== *)

(** The exceptions the script can meet. *)
Inductive exn : Type :=
  | FileNotFoundError     (* ENOENT *)
  | NotADirectoryError    (* ENOTDIR *)
  | IsADirectoryError     (* EISDIR *)
  | OSError               (* ENOTEMPTY, ELOOP, EINVAL, EBUSY *)
  | RuntimeError          (* pathlib: symlink loop met by resolve() *)
  | JSONDecodeError
  | UnicodeDecodeError
  | AttributeError
  | EOFError.

Inductive result (A : Type) : Type :=
  | Ok (a : A)
  | Raise (e : exn).
Arguments Ok {A} a.
Arguments Raise {A} e.

(** What [json.load] makes of a regular file.  A document that decodes to
    a mapping is kept as the two entries the script reads from it (an
    absent key is [None]); entries that are not arrays of strings are not
    represented. *)
Inductive content : Type :=
  | NotText                                  (* not UTF-8 text *)
  | Garbled                                  (* text, not a JSON document *)
  | NotAMapping                              (* a JSON value without [.get] *)
  | Mapping (keep_files keep_dirs : option (list string)).

Inductive node : Type :=
  | File (c : content)
  | Dir
  | Link (target : Path).

(** A canonical key: the names from the root, no [".."], no links. *)
Abbreviation key := (list string) (only parsing).
Abbreviation FS := (gmap (list string) node) (only parsing).

Module FileSystem.

(** The root directory is always there; it is not stored in the map. *)
Definition node_at (fs : FS) (k : key) : option node :=
  match k with
  | [] => Some Dir
  | _ => fs !! k
  end.

Definition is_dir_key (fs : FS) (k : key) : bool :=
  match node_at fs k with
  | Some Dir => true
  | _ => false
  end.

(** The name under which the entry [e] is listed in directory [k], if it
    is one of its entries. *)
Definition child_name (k : key) (e : key * node) : option string :=
  match reverse e.1 with
  | n :: rparent => if decide (reverse rparent = k) then Some n else None
  | [] => None
  end.

(** The names listed in directory [k]. *)
Definition children (fs : FS) (k : key) : list string :=
  omap (child_name k) (map_to_list fs).

(** The kernel follows at most this many nested symbolic links. *)
Definition max_symlinks : nat := 40.

(** Kernel path resolution from directory [cur] along [comps], following
    every symbolic link met: the key of the entry reached. *)
Fixpoint walk_path (links : nat) (fs : FS) (cur : key) (comps : list string)
    {struct links} : result key :=
  (fix go (cur : key) (comps : list string) {struct comps} : result key :=
     match comps with
     | [] => Ok cur
     | c :: rest =>
         if negb (is_dir_key fs cur) then Raise NotADirectoryError
         else if decide (c = "..") then go (removelast cur) rest
         else
           match fs !! (cur ++ [c]) with
           | None => Raise FileNotFoundError
           | Some (Link tgt) =>
               match links with
               | O => Raise OSError
               | S l =>
                   match walk_path l fs (if absolute tgt then [] else cur)
                                   (parts tgt) with
                   | Ok k => go k rest
                   | Raise e => Raise e
                   end
               end
           | Some _ => go (cur ++ [c]) rest
           end
     end) cur comps.

Definition base (cwd : key) (p : Path) : key :=
  if absolute p then [] else cwd.

(** The entry a path denotes, a final symbolic link followed ([stat]). *)
Definition locate (fs : FS) (cwd : key) (p : Path) : result key :=
  walk_path max_symlinks fs (base cwd p) (parts p).

(** The entry a path names, a final symbolic link not followed (what
    [unlink] and [rmdir] act on). *)
Definition locate_entry (fs : FS) (cwd : key) (p : Path) : result key :=
  match reverse (parts p) with
  | [] => Raise OSError
  | n :: rparent =>
      if decide (n = "..") then Raise OSError
      else
        match walk_path max_symlinks fs (base cwd p) (reverse rparent) with
        | Raise e => Raise e
        | Ok k =>
            if negb (is_dir_key fs k) then Raise NotADirectoryError
            else match fs !! (k ++ [n]) with
                 | Some _ => Ok (k ++ [n])
                 | None => Raise FileNotFoundError
                 end
        end
  end.

(** [Path.exists()] *)
Definition fs_exists (fs : FS) (cwd : key) (p : Path) : bool :=
  match locate fs cwd p with
  | Ok _ => true
  | Raise _ => false
  end.

(** [os.listdir], behind [Path.iterdir()] *)
Definition fs_listdir (fs : FS) (cwd : key) (p : Path) : result (list string) :=
  match locate fs cwd p with
  | Raise e => Raise e
  | Ok k =>
      if is_dir_key fs k then Ok (children fs k)
      else Raise NotADirectoryError
  end.

(** [os.unlink]: removes a regular file or a symbolic link. *)
Definition fs_unlink (fs : FS) (cwd : key) (p : Path) : result FS :=
  match locate_entry fs cwd p with
  | Raise e => Raise e
  | Ok k =>
      match fs !! k with
      | Some Dir => Raise IsADirectoryError
      | _ => Ok (delete k fs)
      end
  end.

(** [os.rmdir]: removes a directory that has no entry. *)
Definition fs_rmdir (fs : FS) (cwd : key) (p : Path) : result FS :=
  match locate_entry fs cwd p with
  | Raise e => Raise e
  | Ok k =>
      match fs !! k with
      | Some Dir =>
          match children fs k with
          | [] => Ok (delete k fs)
          | _ :: _ => Raise OSError
          end
      | _ => Raise NotADirectoryError
      end
  end.

(** [DirEntry.is_dir()] of the entry [n] of directory [k]: symbolic links
    are followed, an error counts as "not a directory". *)
Definition entry_is_dir (fs : FS) (k : key) (n : string) : bool :=
  match walk_path max_symlinks fs k [n] with
  | Ok k' => is_dir_key fs k'
  | Raise _ => false
  end.

Definition entry_is_symlink (fs : FS) (k : key) (n : string) : bool :=
  match fs !! (k ++ [n]) with
  | Some (Link _) => true
  | _ => false
  end.

(** One directory as [os.walk] reads it: the names that are directories
    ([dirs]), the other names ([nondirs]) and the directories it descends
    into, which leave out symbolic links ([followlinks] is off). *)
Record listing : Type :=
  { dirs : list string; nondirs : list string; walk_dirs : list string }.

Definition fs_scandir (fs : FS) (cwd : key) (top : Path) : result listing :=
  match fs_listdir fs cwd top, locate fs cwd top with
  | Ok names, Ok k =>
      Ok {| dirs := List.filter (entry_is_dir fs k) names;
            nondirs := List.filter (λ n, negb (entry_is_dir fs k n)) names;
            walk_dirs :=
              List.filter (λ n, entry_is_dir fs k n
                                && negb (entry_is_symlink fs k n)) names |}
  | Raise e, _ => Raise e
  | _, Raise e => Raise e
  end.

(** [os.path.realpath] in its lenient mode, as [Path.resolve()] calls it:
    components that do not exist are kept as they are written, [".."] is
    taken on the part already resolved, links are expanded.  [resolve()]
    raises [RuntimeError] on a symbolic link loop; an expansion nested
    deeper than there are entries in the file system is one. *)
Fixpoint realpath (links : nat) (fs : FS) (path : key) (rest : list string)
    {struct links} : result key :=
  (fix go (path : key) (rest : list string) {struct rest} : result key :=
     match rest with
     | [] => Ok path
     | c :: rest' =>
         if decide (c = "..") then go (removelast path) rest'
         else
           match fs !! (path ++ [c]) with
           | Some (Link tgt) =>
               match links with
               | O => Raise RuntimeError
               | S l =>
                   match realpath l fs (if absolute tgt then [] else path)
                                  (parts tgt) with
                   | Ok r => go r rest'
                   | Raise e => Raise e
                   end
               end
           | _ => go (path ++ [c]) rest'
           end
     end) path rest.

(** [Path.resolve()] *)
Definition fs_resolve (fs : FS) (cwd : key) (p : Path) : result Path :=
  match realpath (size fs) fs (base cwd p) (parts p) with
  | Ok k => Ok {| absolute := true; parts := k |}
  | Raise e => Raise e
  end.

(** [open(path)] followed by [json.load]. *)
Definition fs_read_json (fs : FS) (cwd : key) (p : Path) : result content :=
  match locate fs cwd p with
  | Raise e => Raise e
  | Ok k =>
      match node_at fs k with
      | Some (File c) => Ok c
      | Some Dir => Raise IsADirectoryError
      | _ => Raise FileNotFoundError
      end
  end.

End FileSystem.
Export FileSystem.

(* ===================================================================== *)
(** * The world and the monad of the script *)
(* ===================================================================== *)

(** The lines the script prints. *)
Inductive message : Type :=
  | MsgTargetMissing (target_dir : string)
  | MsgDryRunFile (p : Path)
  | MsgDeletedFile (p : Path)
  | MsgFileError (p : Path) (e : exn)
  | MsgDryRunDir (p : Path)
  | MsgDeletedDir (p : Path)
  | MsgDirError (p : Path) (e : exn)
  | MsgSummary (files : nat) (directories : nat)
  | MsgConfigLoaded (config_path : string)
  | MsgConfigNotFound (config_path : string)
  | MsgConfigBadJson
  | MsgConfigFailed (e : exn)
  | MsgSettings (target_dir : string) (keep_files keep_dirs : list string)
                (dry_run : bool)
  | MsgCancelled.

(** The calls that reach the file system. *)
Inductive syscall : Type :=
  | SysExists (p : Path)
  | SysResolve (p : Path)
  | SysScandir (p : Path)
  | SysIterdir (p : Path)
  | SysUnlink (p : Path)
  | SysRmdir (p : Path)
  | SysOpen (p : Path).

(** The state a run works on: the file system, the working directory of
    the process, what was printed so far, and every call made so far
    together with the file system it was made on. *)
Record World : Type :=
  { w_fs : gmap (list string) node;
    w_cwd : list string;
    w_out : list message;
    w_calls : list (gmap (list string) node * syscall) }.

Module Script.

(** State and exceptions: a raised exception leaves the state as it is
    at that point. *)
Definition M (A : Type) : Type := World → result A * World.

Definition ret {A} (a : A) : M A := λ w, (Ok a, w).

Definition bind {A B} (m : M A) (f : A → M B) : M B :=
  λ w, match m w with
       | (Ok a, w') => f a w'
       | (Raise e, w') => (Raise e, w')
       end.

Definition raise {A} (e : exn) : M A := λ w, (Raise e, w).

(** [try: m  except Exception as e: handler e] *)
Definition try_except {A} (m : M A) (handler : exn → M A) : M A :=
  λ w, match m w with
       | (Ok a, w') => (Ok a, w')
       | (Raise e, w') => handler e w'
       end.

(** stdpp's notations [x ← m; k] and [m;; k] are used for sequencing. *)
#[global] Instance M_ret : MRet M := @ret.
#[global] Instance M_bind : MBind M := λ A B f m, bind m f.

Definition print (msg : message) : M unit :=
  λ w, (Ok tt, {| w_fs := w_fs w; w_cwd := w_cwd w;
                  w_out := w_out w ++ [msg]; w_calls := w_calls w |}).

(** A call is entered in the record with the file system it sees. *)
Definition called (c : syscall) (w : World) : World :=
  {| w_fs := w_fs w; w_cwd := w_cwd w; w_out := w_out w;
     w_calls := w_calls w ++ [(w_fs w, c)] |}.

Definition set_fs (fs : FS) (w : World) : World :=
  {| w_fs := fs; w_cwd := w_cwd w; w_out := w_out w; w_calls := w_calls w |}.

(** A call that only reads. *)
Definition reading {A} (c : syscall) (f : FS → key → result A) : M A :=
  λ w, (f (w_fs w) (w_cwd w), called c w).

(** A call that changes the file system when it succeeds. *)
Definition writing (c : syscall) (f : FS → key → result FS) : M unit :=
  λ w, match f (w_fs w) (w_cwd w) with
       | Ok fs' => (Ok tt, set_fs fs' (called c w))
       | Raise e => (Raise e, called c w)
       end.

Definition path_exists (p : Path) : M bool :=
  reading (SysExists p) (λ fs cwd, Ok (fs_exists fs cwd p)).
Definition resolve (p : Path) : M Path :=
  reading (SysResolve p) (λ fs cwd, fs_resolve fs cwd p).
Definition iterdir (p : Path) : M (list string) :=
  reading (SysIterdir p) (λ fs cwd, fs_listdir fs cwd p).
Definition unlink (p : Path) : M unit :=
  writing (SysUnlink p) (λ fs cwd, fs_unlink fs cwd p).
Definition rmdir (p : Path) : M unit :=
  writing (SysRmdir p) (λ fs cwd, fs_rmdir fs cwd p).
Definition read_json (p : Path) : M content :=
  reading (SysOpen p) (λ fs cwd, fs_read_json fs cwd p).

(** [for x in xs: acc = body acc x] with the loop's local variables in
    [acc]. *)
Fixpoint for_each {A B} (xs : list B) (body : A → B → M A) (acc : A) : M A :=
  match xs with
  | [] => ret acc
  | x :: xs' => acc' ← body acc x; for_each xs' body acc'
  end.

End Script.
Export Script.

(* ===================================================================== *)
(** * The script *)
(* ===================================================================== *)

Module FileCleanup.

Local Open Scope bool_scope.

(** Python's truth value of an optional string argument. *)
Definition truthy (s : option string) : bool :=
  match s with
  | Some s => negb (bool_decide (s = ""))
  | None => false
  end.

(** [open(config_path)] and [json.load]; the empty string names no file. *)
Definition open_json (config_path : string) : M content :=
  if decide (config_path = "") then raise FileNotFoundError
  else read_json (parse config_path).

(** [load_config_file(config_path)] *)
Definition load_config_file (config_path : string)
    : M (list string * list string) :=
  try_except
    (config ← open_json config_path;
     lists ← match config with
             | Mapping keep_files keep_dirs =>
                 mret (default [] keep_files, default [] keep_dirs)
             | NotAMapping => raise AttributeError
             | Garbled => raise JSONDecodeError
             | NotText => raise UnicodeDecodeError
             end;
     print (MsgConfigLoaded config_path);;
     mret lists)
    (λ e,
       match e with
       | FileNotFoundError =>
           print (MsgConfigNotFound config_path);; mret ([], [])
       | JSONDecodeError =>
           print MsgConfigBadJson;; mret ([], [])
       | _ =>
           print (MsgConfigFailed e);; mret ([], [])
       end).

(** The path a keep-directory entry stands for before it is resolved: a
    relative entry is taken under [target_dir] when one is given. *)
Definition keep_dir_anchor (target_dir : option string) (keep_dir : string)
    : Path :=
  let keep_dir_path := parse keep_dir in
  if negb (is_absolute keep_dir_path) && truthy target_dir
  then joinpath (parse (default "" target_dir)) keep_dir_path
  else keep_dir_path.

(** The body of the loop over [keep_dirs] in [should_keep_file]: [true]
    stands for [return True], [false] for going on with the next entry
    (also after [except Exception: continue]). *)
Definition under_keep_dir (file_path : Path) (target_dir : option string)
    (keep_dir : string) : M bool :=
  let keep_dir_path := keep_dir_anchor target_dir keep_dir in
  try_except
    (keep_dir_path ← resolve keep_dir_path;
     file_path_resolved ← resolve file_path;
     mret (bool_decide (keep_dir_path ∈ parents file_path_resolved)
           || bool_decide (file_path_resolved = keep_dir_path)))
    (λ _, mret false).

Fixpoint keep_dirs_loop (file_path : Path) (target_dir : option string)
    (keep_dirs : list string) : M bool :=
  match keep_dirs with
  | [] => mret false
  | keep_dir :: keep_dirs' =>
      hit ← under_keep_dir file_path target_dir keep_dir;
      if (hit : bool) then mret true
      else keep_dirs_loop file_path target_dir keep_dirs'
  end.

(** [should_keep_file(file_path, keep_files, keep_dirs, target_dir)] *)
Definition should_keep_file (file_path : Path) (keep_files keep_dirs : list string)
    (target_dir : option string) : M bool :=
  if bool_decide (name file_path ∈ keep_files) then mret true
  else keep_dirs_loop file_path target_dir keep_dirs.

(** The highest number of names in a key of the file system. *)
Definition fs_height (fs : FS) : nat :=
  max_list ((λ e : key * node, length e.1) <$> map_to_list fs).

Definition scandir (top : Path) : M listing :=
  reading (SysScandir top) (λ fs cwd, fs_scandir fs cwd top).

(** [os.walk(top, topdown=False)] run together with the loop body it
    feeds: a directory is read when the walk reaches it, the walk then
    goes through the sub-directories it found, and only then is the
    triple of the directory handed to the body.  A directory that cannot
    be read is passed over ([onerror] is not set).  [depth] bounds the
    nesting. *)
Fixpoint walk_from {A} (depth : nat) (top : Path)
    (body : A → Path → list string → list string → M A) (acc : A) : M A :=
  match depth with
  | O => mret acc
  | S depth' =>
      read ← try_except (l ← scandir top; mret (Some l)) (λ _, mret None);
      match read with
      | None => mret acc
      | Some l =>
          acc' ← for_each (walk_dirs l)
                   (λ (acc : A) (n : string),
                      walk_from depth' (joinpath top (parse n)) body acc)
                   acc;
          body acc' top (dirs l) (nondirs l)
      end
  end.

(** The walk from [top]: deep enough for the file system it starts on;
    [scandir] of the empty string fails, so nothing is visited then. *)
Definition os_walk {A} (top : string)
    (body : A → Path → list string → list string → M A) (acc : A) : M A :=
  if decide (top = "") then mret acc
  else λ w, walk_from (S (fs_height (w_fs w))) (parse top) body acc w.

(** [any(dir_path.iterdir())] *)
Definition any_entry (entries : list string) : bool :=
  match entries with
  | [] => false
  | _ :: _ => true
  end.

Section Passes.

Variables (target_dir : string) (keep_files keep_dirs : list string)
          (dry_run : bool).

(** The statements under [try:] in the file pass. *)
Definition remove_file (file_path : Path) (deleted_files : list Path)
    : M (list Path) :=
  unlink file_path;;
  let deleted_files := deleted_files ++ [file_path] in
  print (MsgDeletedFile file_path);;
  mret deleted_files.

(** The body of the inner loop of the file pass. *)
Definition file_step (root : Path) (deleted_files : list Path)
    (file : string) : M (list Path) :=
  let file_path := joinpath root (parse file) in
  keep ← should_keep_file file_path keep_files keep_dirs (Some target_dir);
  if negb (keep : bool) then
    if dry_run then
      print (MsgDryRunFile file_path);; mret deleted_files
    else
      try_except
        (remove_file file_path deleted_files)
        (λ e, print (MsgFileError file_path e);; mret deleted_files)
  else mret deleted_files.

Definition file_pass (deleted_files : list Path) (root : Path)
    (dirs files : list string) : M (list Path) :=
  for_each files (file_step root) deleted_files.

(** The statements under [try:] in the directory pass. *)
Definition remove_if_empty (dir_path : Path) (deleted_dirs : list Path)
    : M (list Path) :=
  entries ← iterdir dir_path;
  if negb (any_entry entries) then
    if dry_run then
      print (MsgDryRunDir dir_path);; mret deleted_dirs
    else
      rmdir dir_path;;
      let deleted_dirs := deleted_dirs ++ [dir_path] in
      print (MsgDeletedDir dir_path);;
      mret deleted_dirs
  else mret deleted_dirs.

(** The body of the inner loop of the directory pass. *)
Definition dir_step (root : Path) (deleted_dirs : list Path)
    (dir_name : string) : M (list Path) :=
  let dir_path := joinpath root (parse dir_name) in
  keep ← should_keep_file dir_path [] keep_dirs (Some target_dir);
  if negb (keep : bool) then
    try_except
      (remove_if_empty dir_path deleted_dirs)
      (λ e, print (MsgDirError dir_path e);; mret deleted_dirs)
  else mret deleted_dirs.

Definition dir_pass (deleted_dirs : list Path) (root : Path)
    (dirs files : list string) : M (list Path) :=
  for_each dirs (dir_step root) deleted_dirs.

End Passes.

(** [delete_files_except(target_dir, keep_files, keep_dirs, dry_run)] *)
Definition delete_files_except (target_dir : string)
    (keep_files keep_dirs : option (list string)) (dry_run : bool) : M unit :=
  let keep_files := default [] keep_files in
  let keep_dirs := default [] keep_dirs in
  let target_path := parse target_dir in
  present ← path_exists target_path;
  if negb (present : bool) then print (MsgTargetMissing target_dir)
  else
    deleted_files ←
      os_walk target_dir (file_pass target_dir keep_files keep_dirs dry_run) [];
    deleted_dirs ←
      os_walk target_dir (dir_pass target_dir keep_dirs dry_run) [];
    print (MsgSummary (length deleted_files) (length deleted_dirs)).

(** The command line after [argparse]. *)
Record Args : Type :=
  { arg_target_dir : string;
    arg_keep_files : list string;
    arg_keep_dirs : list string;
    arg_config : option string;
    arg_dry_run : bool }.

Definition lower_char (c : ascii) : ascii :=
  let n := nat_of_ascii c in
  if (65 <=? n)%nat && (n <=? 90)%nat then ascii_of_nat (n + 32) else c.

(** [s.lower()] on ASCII text *)
Fixpoint lower (s : string) : string :=
  match s with
  | EmptyString => EmptyString
  | String c s' => String (lower_char c) (lower s')
  end.

(** [input(prompt)]: the line typed, [None] when the input is closed. *)
Definition input (typed : option string) : M string :=
  match typed with
  | Some line => mret line
  | None => raise EOFError
  end.

(** The first part of [main()]: the keep-lists of the command line, with
    those of the configuration file appended when [--config] is given. *)
Definition merged_keep_lists (args : Args) : M (list string * list string) :=
  let keep_files := arg_keep_files args in
  let keep_dirs := arg_keep_dirs args in
  if truthy (arg_config args) then
    loaded ← load_config_file (default "" (arg_config args));
    mret (keep_files ++ loaded.1, keep_dirs ++ loaded.2)
  else mret (keep_files, keep_dirs).

(** The rest of [main()]: the settings are printed, the operator is asked
    unless this is a dry run, and the deletion runs. *)
Definition confirm_and_run (args : Args) (keep_files keep_dirs : list string)
    (typed : option string) : M unit :=
  print (MsgSettings (arg_target_dir args) keep_files keep_dirs
           (arg_dry_run args));;
  proceed ←
    (if negb (arg_dry_run args) then
       confirm ← input typed;
       if negb (bool_decide (lower confirm = "y")) then
         print MsgCancelled;; mret false
       else mret true
     else mret true);
  if (proceed : bool) then
    delete_files_except (arg_target_dir args) (Some keep_files)
      (Some keep_dirs) (arg_dry_run args)
  else mret tt.

(** [main()], on the parsed command line and what the operator types at
    the prompt. *)
Definition main (args : Args) (typed : option string) : M unit :=
  lists ← merged_keep_lists args;
  confirm_and_run args lists.1 lists.2 typed.

End FileCleanup.
Export FileCleanup.

(* ===================================================================== *)
(** * The vocabulary of the properties *)
(* ===================================================================== *)

Module Spec.

(** ** Worlds and computations *)

(** The world after [msg] has been printed. *)
Definition printed (msg : message) (w : World) : World :=
  {| w_fs := w_fs w; w_cwd := w_cwd w; w_out := w_out w ++ [msg];
     w_calls := w_calls w |}.

(** The world after further calls [cs] have been recorded. *)
Definition add_calls (cs : list (gmap (list string) node * syscall))
    (w : World) : World :=
  {| w_fs := w_fs w; w_cwd := w_cwd w; w_out := w_out w;
     w_calls := w_calls w ++ cs |}.

(** [m] keeps the property [I] of the world, however it ends. *)
Definition preserves {A} (I : World → Prop) (m : M A) : Prop :=
  ∀ w, I w → I (m w).2.

(** [m] never raises. *)
Definition succeeds {A} (m : M A) : Prop :=
  ∀ w, ∃ a, (m w).1 = Ok a.

(** ** The retention predicate *)

(** A recorded call that is a [resolve()] made on the file system [fs]. *)
Definition is_resolve_on (fs : FS) (c : gmap (list string) node * syscall)
    : Prop :=
  c.1 = fs ∧ ∃ p, c.2 = SysResolve p.

(** What one keep-directory entry decides about [file_path] in a given
    file system: a failed resolution decides nothing. *)
Definition dir_hit (fs : FS) (cwd : key) (file_path : Path)
    (target_dir : option string) (keep_dir : string) : bool :=
  match fs_resolve fs cwd (keep_dir_anchor target_dir keep_dir),
        fs_resolve fs cwd file_path with
  | Ok keep_dir_path, Ok file_path_resolved =>
      bool_decide (keep_dir_path ∈ parents file_path_resolved)
      || bool_decide (file_path_resolved = keep_dir_path)
  | _, _ => false
  end.

(** The decision of [should_keep_file] as a function of the file system. *)
Definition kept (fs : FS) (cwd : key) (file_path : Path)
    (keep_files keep_dirs : list string) (target_dir : option string) : bool :=
  bool_decide (name file_path ∈ keep_files)
  || existsb (dir_hit fs cwd file_path target_dir) keep_dirs.

(** ** The configuration file *)

(** A configuration document the script can use: one that is read and
    decodes to a mapping. *)
Definition usable (r : result content) : bool :=
  match r with
  | Ok (Mapping _ _) => true
  | _ => false
  end.

(** The three lines [load_config_file] prints when it gives up. *)
Definition is_config_error (msg : message) : bool :=
  match msg with
  | MsgConfigNotFound _ | MsgConfigBadJson | MsgConfigFailed _ => true
  | _ => false
  end.

(** ** Well-formed file systems *)

(** A name a directory entry can have. *)
Definition valid_name (n : string) : bool :=
  negb (bool_decide (n = "")) && negb (bool_decide (n = "."))
  && negb (bool_decide (n = "..")) && bool_decide (split_slash "" n = [n]).

(** Every entry of the file system has a key made of such names. *)
Definition valid_names (fs : FS) : Prop :=
  map_Forall (λ (k : key) (_ : node), forallb valid_name k = true) fs.

(** The node is a symbolic link. *)
Definition is_link (x : node) : bool :=
  match x with
  | Link _ => true
  | _ => false
  end.

(** No entry of the file system is a symbolic link. *)
Definition no_links (fs : FS) : Prop :=
  map_Forall (λ (_ : key) (x : node), is_link x = false) fs.

(** Resolution by the text of the path alone: [".."] drops the last name
    reached so far. *)
Fixpoint lexical (path : key) (rest : list string) : key :=
  match rest with
  | [] => path
  | c :: rest' =>
      if decide (c = "..") then lexical (removelast path) rest'
      else lexical (path ++ [c]) rest'
  end.

(** No key of the file system has more than [Hs] names. *)
Definition height_le (Hs : nat) (fs : FS) : Prop :=
  ∀ k : list string, is_Some (fs !! k) → (length k ≤ Hs)%nat.

(** ** What a run calls and deletes *)

(** The calls that change the file system. *)
Definition mutating (c : gmap (list string) node * syscall) : bool :=
  match c.2 with
  | SysUnlink _ | SysRmdir _ => true
  | _ => false
  end.

(** The call is neither [unlink] nor [rmdir]. *)
Definition reads_only (c : syscall) : Prop :=
  match c with
  | SysUnlink _ | SysRmdir _ => False
  | _ => True
  end.

(** The file system is [fs0] and the calls that change it are [cs0]. *)
Definition untouched (fs0 : FS)
    (cs0 : list (gmap (list string) node * syscall)) (w : World) : Prop :=
  w_fs w = fs0 ∧ List.filter mutating (w_calls w) = cs0.

(** A removal of a directory that was asked for when the directory, read
    in the same file system, had no entry. *)
Definition rmdir_checked (cwd : key)
    (c : gmap (list string) node * syscall) : Prop :=
  match c.2 with
  | SysRmdir p => fs_listdir c.1 cwd p = Ok []
  | _ => True
  end.

(** The call is not [rmdir]. *)
Definition not_rmdir (c : syscall) : Prop :=
  match c with
  | SysRmdir _ => False
  | _ => True
  end.

(** Every removal of a directory recorded so far was checked. *)
Definition removals_checked (cwd : key) (w : World) : Prop :=
  w_cwd w = cwd ∧ Forall (rmdir_checked cwd) (w_calls w).

(** Only entries of [fs0] are left, and every directory of [fs0] that is
    gone went through an [rmdir] recorded with the file system it was
    issued on, in which the directory had no entry. *)
Definition removals_traced (fs0 : FS) (cwd : key) (w : World) : Prop :=
  w_cwd w = cwd ∧ w_fs w ⊆ fs0
  ∧ ∀ k, fs0 !! k = Some Dir → w_fs w !! k = None →
      ∃ fs_t p, (fs_t, SysRmdir p) ∈ w_calls w
                ∧ locate_entry fs_t cwd p = Ok k ∧ children fs_t k = [].

(** [k] lies strictly below [K0]. *)
Definition below (K0 k : list string) : Prop :=
  ∃ rest, rest ≠ [] ∧ k = K0 ++ rest.

(** Only entries of [fs0] are left, and those that are gone lay strictly
    below [K0]. *)
Definition confined (fs0 : FS) (cwd K0 : key) (w : World) : Prop :=
  w_cwd w = cwd ∧ w_fs w ⊆ fs0
  ∧ ∀ k, is_Some (fs0 !! k) → w_fs w !! k = None → below K0 k.

(** Whatever has been deleted from [fs0], the path [R] denotes the entry
    [names] under [K0] if it denotes anything. *)
Definition anchored (fs0 : FS) (cwd K0 : key) (R : Path) : Prop :=
  ∃ names, ∀ (fs : gmap (list string) node) k,
    fs ⊆ fs0 → locate fs cwd R = Ok k → k = K0 ++ names.

(** ** Settled trees *)

(** The path the walk builds for the entry [names] under the target. *)
Definition path_at (T : Path) (names : list string) : Path :=
  {| absolute := absolute T; parts := parts T ++ names |}.

(** All of [K], [K/rel1], [K/rel1/rel2], ... down to [K/rel] are
    directories. *)
Definition reach (fs : FS) (K rel : key) : Prop :=
  ∀ i : nat, (i ≤ length rel)%nat → is_dir_key fs (K ++ take i rel) = true.

Section Settling.

Context (fs0 : gmap (list string) node) (cwd : list string)
        (target_dir : string) (T : Path) (keep_files keep_dirs : list string)
        (K0 : list string).

(** The decisions of the two passes on the entry [names] under the
    target. *)
Definition keepF (names : list string) : bool :=
  kept fs0 cwd (path_at T names) keep_files keep_dirs (Some target_dir).

Definition keepD (names : list string) : bool :=
  kept fs0 cwd (path_at T names) [] keep_dirs (Some target_dir).

(** Every regular file that can be reached below [names] is kept. *)
Definition files_ok (fs : FS) (names : list string) : Prop :=
  ∀ rel n c, reach fs (K0 ++ names) rel →
    fs !! (K0 ++ names ++ rel ++ [n]) = Some (File c) →
    keepF (names ++ rel ++ [n]) = true.

(** Every directory that can be reached below [names] is kept or has an
    entry. *)
Definition dirs_ok (fs : FS) (names : list string) : Prop :=
  ∀ rel n, reach fs (K0 ++ names) rel →
    fs !! (K0 ++ names ++ rel ++ [n]) = Some Dir →
    keepD (names ++ rel ++ [n]) = true
    ∨ children fs (K0 ++ names ++ rel ++ [n]) ≠ [].

(** The world is one a run can reach from [fs0]. *)
Definition inscope (w : World) : Prop :=
  w_cwd w = cwd ∧ w_fs w ⊆ fs0.

(** Whatever is deleted later, as long as [names] is still reached: the
    regular files below [names] are kept ones. *)
Definition files_settled (names : list string) (w : World) : Prop :=
  ∀ fs_fin : gmap (list string) node,
    fs_fin ⊆ w_fs w →
    locate fs_fin cwd (path_at T names) = Ok (K0 ++ names) →
    files_ok fs_fin names.

(** Whatever is deleted later outside of [names], as long as [names] is
    still reached: the directories below [names] are kept or have an
    entry. *)
Definition dirs_settled (names : list string) (w : World) : Prop :=
  ∀ fs_fin : gmap (list string) node,
    fs_fin ⊆ w_fs w →
    (∀ k, below (K0 ++ names) k → fs_fin !! k = w_fs w !! k) →
    locate fs_fin cwd (path_at T names) = Ok (K0 ++ names) →
    dirs_ok fs_fin names.

(** The world holds the file system [fs1]. *)
Definition holds (fs1 : FS) (w : World) : Prop := w_cwd w = cwd ∧ w_fs w = fs1.

End Settling.

End Spec.
Export Spec.

(* ===================================================================== *)
(** * The vocabulary of the further properties *)
(* ===================================================================== *)

Module Outcome.

(** One keep-directory entry covers [file_path]: both resolutions succeed
    and the resolved entry is the resolved path or a strict ancestor of
    it. *)
Definition covers (fs : FS) (cwd : key) (file_path : Path)
    (target_dir : option string) (keep_dir : string) : Prop :=
  ∃ rd rp, fs_resolve fs cwd (keep_dir_anchor target_dir keep_dir) = Ok rd
           ∧ fs_resolve fs cwd file_path = Ok rp
           ∧ (rd = rp ∨ strict_ancestor rd rp).

Definition is_deleted_file (msg : message) : bool :=
  match msg with
  | MsgDeletedFile _ => true
  | _ => false
  end.

Definition is_deleted_dir (msg : message) : bool :=
  match msg with
  | MsgDeletedDir _ => true
  | _ => false
  end.

(** The number of lines of [out] that report a deleted file, a deleted
    directory. *)
Definition count_deleted_files (out : list message) : nat :=
  length (List.filter is_deleted_file out).

Definition count_deleted_dirs (out : list message) : nat :=
  length (List.filter is_deleted_dir out).

(** The node is a directory. *)
Definition is_dir_node (x : node) : bool :=
  match x with
  | Dir => true
  | _ => false
  end.

(** The numbers of entries of a file system that are not directories
    (regular files and symbolic links), and that are. *)
Definition files_in (fs : FS) : nat :=
  size (filter (λ e : list string * node, is_dir_node e.2 = false) fs).

Definition dirs_in (fs : FS) : nat :=
  size (filter (λ e : list string * node, is_dir_node e.2 = true) fs).

(** The line that reports the removal of the entry [x] under the path
    [p]. *)
Definition deletion_line (x : node) (p : Path) : message :=
  if is_dir_node x then MsgDeletedDir p else MsgDeletedFile p.

(** At some moment of a run started on [fs0], the path [p] named the
    entry [k]. *)
Definition named (fs0 : FS) (cwd : key) (p : Path) (k : key) : Prop :=
  ∃ fs_t : gmap (list string) node,
    fs_t ⊆ fs0 ∧ locate_entry fs_t cwd p = Ok k.

(** Where an entry of [keep_dirs] points when there are no links: the
    entry, taken under the target directory if it is relative, resolved by
    its text. *)
Definition keep_root (cwd : key) (target_dir keep_dir : string) : key :=
  lexical (base cwd (keep_dir_anchor (Some target_dir) keep_dir))
    (parts (keep_dir_anchor (Some target_dir) keep_dir)).

(** [k] is [K] or lies below it. *)
Definition at_or_below (K k : list string) : Prop := ∃ rest, k = K ++ rest.

(** Every entry of [fs0] that is not a directory and whose name is in
    [keep_files] is still there. *)
Definition names_intact (fs0 : FS) (keep_files : list string) (w : World)
    : Prop :=
  ∀ k x, fs0 !! k = Some x → is_dir_node x = false →
    List.last k "" ∈ keep_files → w_fs w !! k = Some x.

(** Only entries of [fs0] are left, and everything at or below where an
    entry of [keep_dirs] points is as in [fs0]. *)
Definition roots_intact (fs0 : FS) (cwd : key) (target_dir : string)
    (keep_dirs : list string) (w : World) : Prop :=
  w_cwd w = cwd ∧ w_fs w ⊆ fs0
  ∧ ∀ d k, d ∈ keep_dirs → at_or_below (keep_root cwd target_dir d) k →
      w_fs w !! k = fs0 !! k.

(** The run started on [fs0] with [out0] printed has reported what it
    removed: every entry that is gone has its line, and every line that
    reports a removal names an entry that is gone. *)
Definition reported (fs0 : FS) (cwd : key) (out0 : list message) (w : World)
    : Prop :=
  w_cwd w = cwd ∧ w_fs w ⊆ fs0
  ∧ ∃ new, w_out w = out0 ++ new
      ∧ (∀ k x, fs0 !! k = Some x → w_fs w !! k = None →
           ∃ p, deletion_line x p ∈ new ∧ named fs0 cwd p k)
      ∧ (∀ p, MsgDeletedFile p ∈ new ∨ MsgDeletedDir p ∈ new →
           ∃ k x, fs0 !! k = Some x ∧ w_fs w !! k = None
                  ∧ named fs0 cwd p k ∧ deletion_line x p ∈ new).

(** The two lists a run builds account for what it has printed and
    removed since it started on [fs0] with [out0] printed. *)
Definition accounted (fs0 : FS) (out0 : list message) (dry_run : bool)
    (files dirs : list Path) (w : World) : Prop :=
  ∃ new, w_out w = out0 ++ new
    ∧ length files = count_deleted_files new
    ∧ length dirs = count_deleted_dirs new
    ∧ (files_in (w_fs w) + length files = files_in fs0)%nat
    ∧ (dirs_in (w_fs w) + length dirs = dirs_in fs0)%nat
    ∧ (dry_run = true → files = [] ∧ dirs = []).

(** ** The steps of the two passes, case by case *)

Section Steps.

Context (target_dir : string) (keep_files keep_dirs : list string)
        (dry_run : bool).

(** What one step of the file pass does on [w], after the resolutions
    [cs] of the retention test. *)
Inductive file_step_does (root : Path) (acc : list Path) (file : string)
    (w : World) : result (list Path) * World → Prop :=
  | file_kept cs :
      kept (w_fs w) (w_cwd w) (joinpath root (parse file)) keep_files keep_dirs
        (Some target_dir) = true →
      file_step_does root acc file w (Ok acc, add_calls cs w)
  | file_candidate cs :
      kept (w_fs w) (w_cwd w) (joinpath root (parse file)) keep_files keep_dirs
        (Some target_dir) = false →
      dry_run = true →
      file_step_does root acc file w
        (Ok acc, printed (MsgDryRunFile (joinpath root (parse file)))
                   (add_calls cs w))
  | file_deleted cs fs' :
      kept (w_fs w) (w_cwd w) (joinpath root (parse file)) keep_files keep_dirs
        (Some target_dir) = false →
      dry_run = false →
      fs_unlink (w_fs w) (w_cwd w) (joinpath root (parse file)) = Ok fs' →
      file_step_does root acc file w
        (Ok (acc ++ [joinpath root (parse file)]),
         printed (MsgDeletedFile (joinpath root (parse file)))
           (set_fs fs' (called (SysUnlink (joinpath root (parse file)))
                          (add_calls cs w))))
  | file_failed cs e :
      kept (w_fs w) (w_cwd w) (joinpath root (parse file)) keep_files keep_dirs
        (Some target_dir) = false →
      dry_run = false →
      fs_unlink (w_fs w) (w_cwd w) (joinpath root (parse file)) = Raise e →
      file_step_does root acc file w
        (Ok acc,
         printed (MsgFileError (joinpath root (parse file)) e)
           (called (SysUnlink (joinpath root (parse file))) (add_calls cs w))).

(** What one step of the directory pass does. *)
Inductive dir_step_does (root : Path) (acc : list Path) (dir_name : string)
    (w : World) : result (list Path) * World → Prop :=
  | dir_kept cs :
      kept (w_fs w) (w_cwd w) (joinpath root (parse dir_name)) [] keep_dirs
        (Some target_dir) = true →
      dir_step_does root acc dir_name w (Ok acc, add_calls cs w)
  | dir_unreadable cs e :
      fs_listdir (w_fs w) (w_cwd w) (joinpath root (parse dir_name)) = Raise e →
      dir_step_does root acc dir_name w
        (Ok acc,
         printed (MsgDirError (joinpath root (parse dir_name)) e)
           (called (SysIterdir (joinpath root (parse dir_name)))
              (add_calls cs w)))
  | dir_not_empty cs n ns :
      fs_listdir (w_fs w) (w_cwd w) (joinpath root (parse dir_name))
      = Ok (n :: ns) →
      dir_step_does root acc dir_name w
        (Ok acc,
         called (SysIterdir (joinpath root (parse dir_name))) (add_calls cs w))
  | dir_candidate cs :
      kept (w_fs w) (w_cwd w) (joinpath root (parse dir_name)) [] keep_dirs
        (Some target_dir) = false →
      fs_listdir (w_fs w) (w_cwd w) (joinpath root (parse dir_name)) = Ok [] →
      dry_run = true →
      dir_step_does root acc dir_name w
        (Ok acc,
         printed (MsgDryRunDir (joinpath root (parse dir_name)))
           (called (SysIterdir (joinpath root (parse dir_name)))
              (add_calls cs w)))
  | dir_deleted cs fs' :
      kept (w_fs w) (w_cwd w) (joinpath root (parse dir_name)) [] keep_dirs
        (Some target_dir) = false →
      fs_listdir (w_fs w) (w_cwd w) (joinpath root (parse dir_name)) = Ok [] →
      dry_run = false →
      fs_rmdir (w_fs w) (w_cwd w) (joinpath root (parse dir_name)) = Ok fs' →
      dir_step_does root acc dir_name w
        (Ok (acc ++ [joinpath root (parse dir_name)]),
         printed (MsgDeletedDir (joinpath root (parse dir_name)))
           (set_fs fs'
              (called (SysRmdir (joinpath root (parse dir_name)))
                 (called (SysIterdir (joinpath root (parse dir_name)))
                    (add_calls cs w)))))
  | dir_failed cs e :
      dry_run = false →
      fs_rmdir (w_fs w) (w_cwd w) (joinpath root (parse dir_name)) = Raise e →
      dir_step_does root acc dir_name w
        (Ok acc,
         printed (MsgDirError (joinpath root (parse dir_name)) e)
           (called (SysRmdir (joinpath root (parse dir_name)))
              (called (SysIterdir (joinpath root (parse dir_name)))
                 (add_calls cs w)))).

End Steps.

End Outcome.
Export Outcome.

Module Candidates.

(** A regular file that can be reached below the target [K0] and that the
    retention predicate does not keep, under the path the walk builds for
    it. *)
Definition unkept_file (fs0 : FS) (cwd : key) (target_dir : string)
    (keep_files keep_dirs : list string) (K0 : key) (p : Path) : Prop :=
  ∃ rel n c,
    p = path_at (parse target_dir) (rel ++ [n])
    ∧ reach fs0 K0 rel
    ∧ fs0 !! (K0 ++ rel ++ [n]) = Some (File c)
    ∧ kept fs0 cwd p keep_files keep_dirs (Some target_dir) = false.

(** A directory that can be reached below the target [K0], that has no
    entry and that no keep-directory entry keeps. *)
Definition unkept_empty_dir (fs0 : FS) (cwd : key) (target_dir : string)
    (keep_dirs : list string) (K0 : key) (p : Path) : Prop :=
  ∃ rel n,
    p = path_at (parse target_dir) (rel ++ [n])
    ∧ reach fs0 K0 rel
    ∧ fs0 !! (K0 ++ rel ++ [n]) = Some Dir
    ∧ children fs0 (K0 ++ rel ++ [n]) = []
    ∧ kept fs0 cwd p [] keep_dirs (Some target_dir) = false.

Section Here.

Context (fs0 : gmap (list string) node) (cwd : list string)
        (target_dir : string) (T : Path) (keep_files keep_dirs : list string)
        (K0 : list string).

(** What the file pass prints for the directory [names]: a [line] for
    each of its regular files that is not kept. *)
Definition files_here (line : Path → message) (names : list string)
    (m : message) : Prop :=
  ∃ n c, fs0 !! (K0 ++ names ++ [n]) = Some (File c)
         ∧ m = line (path_at T (names ++ [n]))
         ∧ kept fs0 cwd (path_at T (names ++ [n])) keep_files keep_dirs
             (Some target_dir) = false.

(** What the directory pass of a dry run prints for the directory
    [names]. *)
Definition dirs_here (names : list string) (m : message) : Prop :=
  ∃ n, fs0 !! (K0 ++ names ++ [n]) = Some Dir
       ∧ m = MsgDryRunDir (path_at T (names ++ [n]))
       ∧ children fs0 (K0 ++ names ++ [n]) = []
       ∧ kept fs0 cwd (path_at T (names ++ [n])) [] keep_dirs
           (Some target_dir) = false.

End Here.

(** A world a file pass can reach from [fs0]: only entries of [fs0] are
    left, and all its directories are. *)
Definition tidy (fs0 : FS) (cwd : key) (w : World) : Prop :=
  w_cwd w = cwd ∧ w_fs w ⊆ fs0
  ∧ ∀ k, fs0 !! k = Some Dir → w_fs w !! k = Some Dir.

End Candidates.
Export Candidates.

Module Doom.

(** Only entries of [fs0] are left, and of a directory of [fs0] that is
    gone no entry is left. *)
Definition emptied (fs0 : FS) (w : World) : Prop :=
  w_fs w ⊆ fs0
  ∧ ∀ k n, fs0 !! k = Some Dir → w_fs w !! k = None →
      w_fs w !! (k ++ [n]) = None.

Section Doomed.

Context (fs0 : gmap (list string) node) (cwd : list string)
        (target_dir : string) (T : Path) (keep_files keep_dirs : list string)
        (K0 : list string).

(** The directories below the target that a deleting run is bound to
    remove: those no keep-directory entry keeps, whose regular files are
    all not kept and whose sub-directories are all bound to be removed. *)
Inductive doomed : list string → Prop :=
  | doomed_dir (names : list string) :
      fs0 !! (K0 ++ names) = Some Dir →
      keepD fs0 cwd target_dir T keep_dirs names = false →
      (∀ n c, fs0 !! (K0 ++ names ++ [n]) = Some (File c) →
         keepF fs0 cwd target_dir T keep_files keep_dirs (names ++ [n])
         = false) →
      (∀ n, fs0 !! (K0 ++ names ++ [n]) = Some Dir → doomed (names ++ [n])) →
      doomed names.

End Doomed.

End Doom.
Export Doom.

(* ===================================================================== *)
(** * Worked file systems *)
(* ===================================================================== *)

Module Scenarios.

(** A regular file that is not a JSON document. *)
Definition plain_file : node := File Garbled.

(** A process started in the root directory that has printed nothing and
    made no call yet. *)
Definition fresh (fs : FS) : World :=
  {| w_fs := fs; w_cwd := []; w_out := []; w_calls := [] |}.

(** [/t/A.txt], [/t/B.txt], [/t/sub/C.txt] *)
Definition tree_abc : gmap (list string) node :=
  list_to_map
    [ (["t"], Dir); (["t"; "A.txt"], plain_file); (["t"; "B.txt"], plain_file);
      (["t"; "sub"], Dir); (["t"; "sub"; "C.txt"], plain_file) ].

(** [/t/docs/readme.md] beside a symbolic link that points to itself *)
Definition tree_loop : gmap (list string) node :=
  list_to_map
    [ (["t"], Dir); (["t"; "loop"], Link (parse "loop"));
      (["t"; "docs"], Dir); (["t"; "docs"; "readme.md"], plain_file) ].

(** An empty directory [/t/D] and a symbolic link [/t/L] to it *)
Definition tree_link : gmap (list string) node :=
  list_to_map
    [ (["t"], Dir); (["t"; "D"], Dir); (["t"; "L"], Link (parse "D")) ].

(** [/t/docs/readme.md], [/t/src/main.py] *)
Definition tree_docs_src : gmap (list string) node :=
  list_to_map
    [ (["t"], Dir); (["t"; "docs"], Dir); (["t"; "docs"; "readme.md"], plain_file);
      (["t"; "src"], Dir); (["t"; "src"; "main.py"], plain_file) ].

(** [/t/sub/keep.me] *)
Definition tree_keep_me : gmap (list string) node :=
  list_to_map
    [ (["t"], Dir); (["t"; "sub"], Dir); (["t"; "sub"; "keep.me"], plain_file) ].

(** The command line [/t --keep-files A.txt --config /t/missing.json
    --dry-run]. *)
Definition args_missing_config : Args :=
  {| arg_target_dir := "/t"; arg_keep_files := ["A.txt"]; arg_keep_dirs := [];
     arg_config := Some "/t/missing.json"; arg_dry_run := true |}.

(** An empty directory [/t/sub] *)
Definition tree_empty_sub : gmap (list string) node :=
  list_to_map [ (["t"], Dir); (["t"; "sub"], Dir) ].

(** The arguments of the first scenario of the specification. *)
Definition keep_A : option (list string) := Some ["A.txt"].

(** A run on a world that has printed nothing and recorded no call, and
    the run that follows it on what the first one left. *)
Definition first_run (fs : FS) (target_dir : string)
    (keep_files keep_dirs : option (list string)) (dry_run : bool) : World :=
  (delete_files_except target_dir keep_files keep_dirs dry_run (fresh fs)).2.

Definition second_run (fs : FS) (target_dir : string)
    (keep_files keep_dirs : option (list string)) (dry_run : bool) : World :=
  (delete_files_except target_dir keep_files keep_dirs dry_run
     (fresh (w_fs (first_run fs target_dir keep_files keep_dirs dry_run)))).2.

(** The path [/t/names]. *)
Definition at_t (names : list string) : Path :=
  {| absolute := true; parts := "t" :: names |}.

End Scenarios.
Import Scenarios.

Module MoreScenarios.

(** [/t/A.txt], [/t/B.txt] and a configuration file [/t/config.json] that
    holds [{"keep_files": ["config.json", "A.txt"]}] *)
Definition tree_config : gmap (list string) node :=
  list_to_map
    [ (["t"], Dir); (["t"; "A.txt"], plain_file); (["t"; "B.txt"], plain_file);
      (["t"; "config.json"],
       File (Mapping (Some ["config.json"; "A.txt"]) None)) ].

(** The command line [/t --keep-files B.txt --config /t/config.json] with
    and without [--dry-run]. *)
Definition args_config (dry_run : bool) : Args :=
  {| arg_target_dir := "/t"; arg_keep_files := ["B.txt"]; arg_keep_dirs := [];
     arg_config := Some "/t/config.json"; arg_dry_run := dry_run |}.

End MoreScenarios.
Import MoreScenarios.

(* ===================================================================== *)
(** * Reasoning about the monad *)
(* ===================================================================== *)

Module Logic.

Lemma add_calls_nil w : add_calls [] w = w.
Proof. destruct w. unfold add_calls. simpl. by rewrite app_nil_r. Qed.

Lemma add_calls_app cs1 cs2 w :
  add_calls cs2 (add_calls cs1 w) = add_calls (cs1 ++ cs2) w.
Proof. unfold add_calls. simpl. by rewrite app_assoc. Qed.

Lemma called_add_calls c w : called c w = add_calls [(w_fs w, c)] w.
Proof. done. Qed.

Ltac unfold_M :=
  unfold mbind, M_bind, bind, mret, M_ret, ret, raise, try_except,
    print, reading, writing in *.

(** The equations of the sequencing operators. *)
Lemma bind_ok {A B} (m : M A) (f : A → M B) w a w' :
  m w = (Ok a, w') → (m ≫= f) w = f a w'.
Proof. intros H. unfold_M. by rewrite H. Qed.

Lemma bind_raise {A B} (m : M A) (f : A → M B) w e w' :
  m w = (Raise e, w') → (m ≫= f) w = (Raise e, w').
Proof. intros H. unfold_M. by rewrite H. Qed.

Lemma try_ok {A} (m : M A) h w a w' :
  m w = (Ok a, w') → try_except m h w = (Ok a, w').
Proof. intros H. unfold_M. by rewrite H. Qed.

Lemma try_raise {A} (m : M A) h w e w' :
  m w = (Raise e, w') → try_except m h w = h e w'.
Proof. intros H. unfold_M. by rewrite H. Qed.

Section Preserves.

Context (I : World → Prop).

Lemma preserves_ret {A} (a : A) : preserves I (mret a).
Proof. by intros w Hw. Qed.

Lemma preserves_raise {A} e : preserves I (@raise A e).
Proof. by intros w Hw. Qed.

Lemma preserves_bind {A B} (m : M A) (f : A → M B) :
  preserves I m → (∀ a, preserves I (f a)) → preserves I (m ≫= f).
Proof.
  intros Hm Hf w Hw. specialize (Hm w Hw). unfold_M.
  destruct (m w) as [[a|e] w']; simpl in *; [by apply Hf | done].
Qed.

Lemma preserves_try {A} (m : M A) (h : exn → M A) :
  preserves I m → (∀ e, preserves I (h e)) → preserves I (try_except m h).
Proof.
  intros Hm Hh w Hw. specialize (Hm w Hw). unfold_M.
  destruct (m w) as [[a|e] w']; simpl in *; [done | by apply Hh].
Qed.

Lemma preserves_if {A} (b : bool) (m1 m2 : M A) :
  preserves I m1 → preserves I m2 → preserves I (if b then m1 else m2).
Proof. by destruct b. Qed.

Lemma preserves_for_each {A B} (xs : list B) (body : A → B → M A) acc :
  (∀ a x, x ∈ xs → preserves I (body a x)) →
  preserves I (for_each xs body acc).
Proof.
  revert acc. induction xs as [|x xs IH]; intros acc Hbody; simpl.
  - apply preserves_ret.
  - apply preserves_bind; [apply Hbody; left |].
    intros a. apply IH. intros a' x' Hx'. apply Hbody. by right.
Qed.

Lemma preserves_walk_from {A} depth top
    (body : A → Path → list string → list string → M A) acc :
  (∀ p, preserves I (scandir p)) →
  (∀ a root ds fs, preserves I (body a root ds fs)) →
  preserves I (walk_from depth top body acc).
Proof.
  intros Hscan Hbody. revert top acc.
  induction depth as [|d IH]; intros top acc; simpl.
  - apply preserves_ret.
  - apply preserves_bind.
    + apply preserves_try; [| intros; apply preserves_ret].
      apply preserves_bind; [apply Hscan | intros; apply preserves_ret].
    + intros [l|]; [| apply preserves_ret].
      apply preserves_bind; [| intros; apply Hbody].
      apply preserves_for_each. intros a n _. apply IH.
Qed.

Lemma preserves_os_walk {A} top
    (body : A → Path → list string → list string → M A) acc :
  (∀ p, preserves I (scandir p)) →
  (∀ a root ds fs, preserves I (body a root ds fs)) →
  preserves I (os_walk top body acc).
Proof.
  intros Hscan Hbody w Hw. unfold os_walk.
  destruct (decide (top = "")); [done |].
  by apply preserves_walk_from.
Qed.

End Preserves.

(** Invariants that printing and the recording of some calls (those that
    are [harmless]) do not disturb. *)
Section Stable.

Context (I : World → Prop) (harmless : syscall → Prop).
Hypothesis Hprint : ∀ msg w, I w → I (print msg w).2.
Hypothesis Hcall : ∀ c w, harmless c → I w → I (called c w).

Lemma preserves_print msg : preserves I (print msg).
Proof. intros w Hw. by apply Hprint. Qed.

Lemma preserves_reading {A} (c : syscall) (f : FS → key → result A) :
  harmless c → preserves I (reading c f).
Proof. intros Hc w Hw. by apply Hcall. Qed.

Lemma preserves_writing (c : syscall) (f : FS → key → result FS) :
  harmless c → (∀ fs w, I w → I (set_fs fs w)) → preserves I (writing c f).
Proof.
  intros Hc Hset w Hw. unfold writing.
  destruct (f (w_fs w) (w_cwd w)); simpl; [apply Hset |]; by apply Hcall.
Qed.

Lemma preserves_should_keep_file file_path keep_files keep_dirs target_dir :
  (∀ p, harmless (SysResolve p)) →
  preserves I (should_keep_file file_path keep_files keep_dirs target_dir).
Proof.
  intros Hres. unfold should_keep_file.
  apply preserves_if; [apply preserves_ret |].
  induction keep_dirs as [|d ds IH]; simpl; [apply preserves_ret |].
  apply preserves_bind.
  - apply preserves_try; [| intros; apply preserves_ret].
    apply preserves_bind; [by apply preserves_reading |]. intros ?.
    apply preserves_bind; [by apply preserves_reading |]. intros ?.
    apply preserves_ret.
  - intros []; [apply preserves_ret | apply IH].
Qed.

End Stable.

Lemma succeeds_ret {A} (a : A) : succeeds (mret a).
Proof. intros w. by exists a. Qed.

Lemma succeeds_print msg : succeeds (print msg).
Proof. intros w. by exists tt. Qed.

Lemma succeeds_bind {A B} (m : M A) (f : A → M B) :
  succeeds m → (∀ a, succeeds (f a)) → succeeds (m ≫= f).
Proof.
  intros Hm Hf w. destruct (Hm w) as [a Ha]. unfold_M.
  destruct (m w) as [[a'|e] w']; simpl in *; [apply Hf | done].
Qed.

Lemma succeeds_try {A} (m : M A) (h : exn → M A) :
  (∀ e, succeeds (h e)) → succeeds (try_except m h).
Proof.
  intros Hh w. unfold_M. destruct (m w) as [[a|e] w']; simpl; [eauto |].
  apply Hh.
Qed.

Lemma succeeds_if {A} (b : bool) (m1 m2 : M A) :
  succeeds m1 → succeeds m2 → succeeds (if b then m1 else m2).
Proof. by destruct b. Qed.

Lemma succeeds_for_each {A B} (xs : list B) (body : A → B → M A) acc :
  (∀ a x, succeeds (body a x)) → succeeds (for_each xs body acc).
Proof.
  intros Hbody. revert acc. induction xs as [|x xs IH]; intros acc; simpl.
  - apply succeeds_ret.
  - apply succeeds_bind; [apply Hbody | apply IH].
Qed.

Lemma succeeds_walk_from {A} depth top
    (body : A → Path → list string → list string → M A) acc :
  (∀ a root ds fs, succeeds (body a root ds fs)) →
  succeeds (walk_from depth top body acc).
Proof.
  intros Hbody. revert top acc.
  induction depth as [|d IH]; intros top acc; simpl; [apply succeeds_ret |].
  apply succeeds_bind.
  - apply succeeds_try. intros; apply succeeds_ret.
  - intros [l|]; [| apply succeeds_ret].
    apply succeeds_bind; [| intros; apply Hbody].
    apply succeeds_for_each. intros a n. apply IH.
Qed.

(** What a loop leaves behind for each of the elements it went through:
    the body establishes [P y] for its element [y], and does not disturb
    what holds for the others. *)
Lemma for_each_keeps {A B} (I : World → Prop) (P : World → Prop)
    (body : A → B → M A) (xs : list B) :
  (∀ a y w, y ∈ xs → I w →
     I (body a y w).2 ∧ (P w → P (body a y w).2)) →
  (∀ a y, succeeds (body a y)) →
  ∀ acc w, I w → P w →
    I (for_each xs body acc w).2 ∧ P (for_each xs body acc w).2.
Proof.
  intros Hbody Hok. induction xs as [|y ys IH]; intros acc w Hw HP; [done |].
  simpl. destruct (Hok acc y w) as [a Ha].
  destruct (Hbody acc y w) as [Hw' HP']; [by left | done |].
  unfold_M. destruct (body acc y w) as [[a'|e] w']; simpl in *; [| done].
  apply IH; [| done | by apply HP'].
  intros a'' y' w'' Hy'. apply Hbody. by right.
Qed.

Lemma for_each_post {A B} (I : World → Prop) (P : B → World → Prop)
    (body : A → B → M A) (xs : list B) :
  NoDup xs →
  (∀ a y w, y ∈ xs → I w →
     I (body a y w).2 ∧ P y (body a y w).2
     ∧ ∀ x, x ≠ y → P x w → P x (body a y w).2) →
  (∀ a y, succeeds (body a y)) →
  ∀ acc w, I w →
    I (for_each xs body acc w).2 ∧ ∀ x, x ∈ xs → P x (for_each xs body acc w).2.
Proof.
  intros Hnd Hbody Hok.
  induction Hnd as [|y ys Hy Hnd IH]; intros acc w Hw.
  { split; [done |]. by intros x ?%elem_of_nil. }
  simpl. destruct (Hok acc y w) as [a Ha].
  destruct (Hbody acc y w) as (Hw' & HPy & Hothers); [by left | done |].
  unfold_M. destruct (body acc y w) as [[a'|e] w']; simpl in *; [| done].
  assert (Hbody' : ∀ a y' w, y' ∈ ys → I w →
            I (body a y' w).2 ∧ P y' (body a y' w).2
            ∧ ∀ x, x ≠ y' → P x w → P x (body a y' w).2).
  { intros a'' y' w'' Hy'. apply Hbody. by right. }
  destruct (IH Hbody' a' w' Hw') as [Hend Hall]. split; [done |].
  intros x [-> | Hx]%elem_of_cons; [| by apply Hall].
  apply (for_each_keeps I (P y) body ys); try done.
  intros a'' y' w'' Hy' Hw''.
  destruct (Hbody' a'' y' w'' Hy' Hw'') as (? & _ & Hoth). split; [done |].
  apply Hoth. intros ->. by apply Hy, list_elem_of_In.
Qed.

(** A loop whose body only records calls only records calls. *)
Lemma for_each_quiet {A B} (I : World → Prop) (body : A → B → M A)
    (xs : list B) :
  (∀ cs w, I w → I (add_calls cs w)) →
  (∀ a y w, y ∈ xs → I w → ∃ cs, body a y w = (Ok a, add_calls cs w)) →
  ∀ acc w, I w → ∃ cs, for_each xs body acc w = (Ok acc, add_calls cs w).
Proof.
  intros HI Hbody. induction xs as [|y ys IH]; intros acc w Hw; simpl.
  - exists []. by rewrite add_calls_nil.
  - destruct (Hbody acc y w) as [cs1 Hrun]; [by left | done |].
    rewrite (bind_ok _ _ _ _ _ Hrun).
    destruct (IH (λ a y' w' Hy', Hbody a y' w' (list_elem_of_further _ _ _ Hy'))
                acc (add_calls cs1 w) (HI _ _ Hw)) as [cs2 Hrun2].
    exists (cs1 ++ cs2). by rewrite Hrun2, add_calls_app.
Qed.

End Logic.
Import Logic.

(* ===================================================================== *)
(** * The retention predicate *)
(* ===================================================================== *)

Module KeepRule.

(** The proper prefixes are exactly what their name says. *)
Lemma elem_of_prefixes (x l : list string) :
  x ∈ prefixes l ↔ ∃ rest, rest ≠ [] ∧ l = x ++ rest.
Proof.
  revert x. induction l as [|a l IH]; intros x; simpl.
  - split; [by intros ?%elem_of_nil |].
    intros (rest & Hne & Heq). symmetry in Heq.
    apply app_eq_nil in Heq as [_ ->]. done.
  - rewrite elem_of_cons, list_elem_of_In, in_map_iff. split.
    + intros [-> | (y & <- & Hy)].
      * exists (a :: l). done.
      * apply list_elem_of_In, IH in Hy as (rest & Hne & ->).
        exists rest. done.
    + intros (rest & Hne & Heq). destruct x as [|b x].
      * by left.
      * right. simpl in Heq. injection Heq as <- ->.
        exists x. split; [done |]. apply list_elem_of_In, IH. eauto.
Qed.

(** Membership in [parents] is strict ancestry. *)
Lemma elem_of_parents (d p : Path) :
  d ∈ parents p ↔ strict_ancestor d p.
Proof.
  unfold parents, strict_ancestor.
  rewrite list_elem_of_In, in_map_iff. split.
  - intros (x & <- & Hx). simpl. split; [done |].
    apply list_elem_of_In, elem_of_reverse, elem_of_prefixes in Hx. done.
  - intros [Habs Hpre]. exists (parts d). split.
    + destruct d. simpl in *. by subst.
    + apply list_elem_of_In, elem_of_reverse, elem_of_prefixes. done.
Qed.

Section Predicate.

Context (file_path : Path) (keep_files : list string)
        (target_dir : option string).

Lemma under_keep_dir_run keep_dir w :
  ∃ cs, under_keep_dir file_path target_dir keep_dir w
        = (Ok (dir_hit (w_fs w) (w_cwd w) file_path target_dir keep_dir),
           add_calls cs w)
        ∧ Forall (is_resolve_on (w_fs w)) cs.
Proof.
  unfold under_keep_dir, dir_hit, resolve. unfold_M. simpl.
  destruct (fs_resolve (w_fs w) (w_cwd w) (keep_dir_anchor target_dir keep_dir))
    as [kd|e]; simpl.
  - destruct (fs_resolve (w_fs w) (w_cwd w) file_path) as [fp|e]; simpl;
      rewrite !called_add_calls, add_calls_app; simpl;
      (eexists; split; [reflexivity |]);
      repeat constructor; simpl; eauto.
  - rewrite called_add_calls. eexists. split; [reflexivity |].
    repeat constructor; simpl; eauto.
Qed.

Lemma keep_dirs_loop_run keep_dirs w :
  ∃ cs, keep_dirs_loop file_path target_dir keep_dirs w
        = (Ok (existsb (dir_hit (w_fs w) (w_cwd w) file_path target_dir)
                 keep_dirs),
           add_calls cs w)
        ∧ Forall (is_resolve_on (w_fs w)) cs.
Proof.
  revert w. induction keep_dirs as [|d ds IH]; intros w; simpl.
  - exists []. by rewrite add_calls_nil.
  - destruct (under_keep_dir_run d w) as (cs1 & Hrun & Hcs1).
    rewrite (bind_ok _ _ _ _ _ Hrun).
    destruct (dir_hit _ _ _ _ d); simpl; [by exists cs1 |].
    destruct (IH (add_calls cs1 w)) as (cs2 & Hrun2 & Hcs2). simpl in *.
    exists (cs1 ++ cs2). rewrite Hrun2, add_calls_app.
    split; [done |]. by apply Forall_app.
Qed.

(** [should_keep_file] never raises, decides [kept], and leaves the world
    as it is but for the resolutions it asked for. *)
Lemma should_keep_file_run keep_dirs w :
  ∃ cs, should_keep_file file_path keep_files keep_dirs target_dir w
        = (Ok (kept (w_fs w) (w_cwd w) file_path keep_files keep_dirs
                 target_dir),
           add_calls cs w)
        ∧ Forall (is_resolve_on (w_fs w)) cs.
Proof.
  unfold should_keep_file, kept.
  destruct (bool_decide (name file_path ∈ keep_files)); simpl.
  - exists []. by rewrite add_calls_nil.
  - apply keep_dirs_loop_run.
Qed.

End Predicate.

End KeepRule.
Import KeepRule.

(* ===================================================================== *)
(** * Properties of the retention predicate *)
(* ===================================================================== *)

Module KeepClaims.

(** C4 (name rule).  A path whose base name is in [keep_files] is kept,
    wherever it lies and whatever it denotes; the answer is given before
    the keep-directory rule is looked at: the world comes back as it was,
    so not a single resolution has been asked for. *)
Theorem name_rule_wins (file_path : Path) (keep_files keep_dirs : list string)
    (target_dir : option string) (w : World) :
  name file_path ∈ keep_files →
  should_keep_file file_path keep_files keep_dirs target_dir w = (Ok true, w).
Proof.
  intros Hname. unfold should_keep_file.
  by rewrite bool_decide_eq_true_2.
Qed.

Lemma name_rule_wins_witness :
  name (parse "/t/sub/deep/A.txt") ∈ ["A.txt"]
  ∧ should_keep_file (parse "/t/sub/deep/A.txt") ["A.txt"] ["loop"; "docs"]
      (Some "/t") (fresh tree_loop)
    = (Ok true, fresh tree_loop).
Proof.
  split.
  - vm_compute. left.
  - apply name_rule_wins. vm_compute. left.
Defined.

(** A relative keep-directory entry is taken under the target directory,
    an absolute one as it is. *)
Lemma keep_dir_anchor_relative (target_dir keep_dir : string) :
  is_absolute (parse keep_dir) = false → target_dir ≠ "" →
  keep_dir_anchor (Some target_dir) keep_dir
  = joinpath (parse target_dir) (parse keep_dir).
Proof.
  intros Hrel Hne. unfold keep_dir_anchor, truthy.
  rewrite Hrel. simpl. by rewrite bool_decide_eq_false_2.
Qed.

Lemma keep_dir_anchor_absolute (target_dir : option string) (keep_dir : string) :
  is_absolute (parse keep_dir) = true →
  keep_dir_anchor target_dir keep_dir = parse keep_dir.
Proof. intros Habs. unfold keep_dir_anchor. by rewrite Habs. Qed.

Lemma dir_hit_containment fs cwd file_path target_dir d rd rp :
  fs_resolve fs cwd (keep_dir_anchor target_dir d) = Ok rd →
  fs_resolve fs cwd file_path = Ok rp →
  rd = rp ∨ strict_ancestor rd rp →
  dir_hit fs cwd file_path target_dir d = true.
Proof.
  intros Hd Hp Hrel. unfold dir_hit. rewrite Hd, Hp.
  apply orb_true_iff. destruct Hrel as [-> | Hanc].
  - right. by apply bool_decide_eq_true_2.
  - left. by apply bool_decide_eq_true_2, elem_of_parents.
Qed.

(** C3 (directory containment).  When an entry [d] of [keep_dirs], taken
    under the target directory if it is relative and resolved, equals the
    resolved input path or is a strict ancestor of it, the path is kept. *)
Theorem keep_dir_containment (file_path : Path)
    (keep_files keep_dirs : list string) (target_dir : option string)
    (w : World) (d : string) (rd rp : Path) :
  d ∈ keep_dirs →
  fs_resolve (w_fs w) (w_cwd w) (keep_dir_anchor target_dir d) = Ok rd →
  fs_resolve (w_fs w) (w_cwd w) file_path = Ok rp →
  rd = rp ∨ strict_ancestor rd rp →
  (should_keep_file file_path keep_files keep_dirs target_dir w).1 = Ok true.
Proof.
  intros Hin Hd Hp Hrel.
  destruct (should_keep_file_run file_path keep_files target_dir keep_dirs w)
    as (cs & -> & _). simpl. f_equal. unfold kept.
  apply orb_true_iff. right. apply existsb_exists.
  exists d. split; [by apply list_elem_of_In |].
  by eapply dir_hit_containment.
Qed.

Lemma keep_dir_containment_witness :
  (should_keep_file (parse "/t/docs/a/b/readme.md") [] ["src"; "docs"]
     (Some "/t") (fresh tree_loop)).1 = Ok true.
Proof.
  apply (keep_dir_containment _ _ _ _ _ "docs"
           (mkPath true ["t"; "docs"])
           (mkPath true ["t"; "docs"; "a"; "b"; "readme.md"])).
  - vm_compute. right. left.
  - vm_compute. reflexivity.
  - vm_compute. reflexivity.
  - right. split; [reflexivity |]. exists ["a"; "b"; "readme.md"]. done.
Defined.

Lemma existsb_skip {A} (f : A → bool) (before after : list A) (d : A) :
  f d = false → existsb f (before ++ d :: after) = existsb f (before ++ after).
Proof.
  intros Hd. rewrite !existsb_app. simpl. by rewrite Hd.
Qed.

(** C9 (silent skip).  A keep-directory entry whose resolution raises is
    passed over: the predicate still returns, with the answer it gives
    when that entry is left out of the list, so the entries after it match
    as they would without it; nothing is printed and the file system is
    not touched. *)
Theorem unresolvable_keep_dir_skipped (file_path : Path)
    (keep_files : list string) (target_dir : option string) (w : World)
    (before after : list string) (d : string) (e : exn) :
  fs_resolve (w_fs w) (w_cwd w) (keep_dir_anchor target_dir d) = Raise e →
  ∃ (b : bool) (w' : World),
    should_keep_file file_path keep_files (before ++ d :: after) target_dir w
    = (Ok b, w')
    ∧ (should_keep_file file_path keep_files (before ++ after) target_dir w).1
      = Ok b
    ∧ w_out w' = w_out w ∧ w_fs w' = w_fs w.
Proof.
  intros Hd.
  destruct (should_keep_file_run file_path keep_files target_dir
              (before ++ d :: after) w) as (cs & -> & _).
  destruct (should_keep_file_run file_path keep_files target_dir
              (before ++ after) w) as (cs' & -> & _).
  do 2 eexists. split; [reflexivity |]. simpl. split; [| done].
  f_equal. unfold kept. f_equal. symmetry. apply existsb_skip.
  unfold dir_hit. by rewrite Hd.
Qed.

Lemma unresolvable_keep_dir_skipped_witness :
  ∃ (b : bool) (w' : World),
    should_keep_file (parse "/t/docs/readme.md") [] ([] ++ "loop" :: ["docs"])
      (Some "/t") (fresh tree_loop)
    = (Ok b, w')
    ∧ (should_keep_file (parse "/t/docs/readme.md") [] ([] ++ ["docs"])
         (Some "/t") (fresh tree_loop)).1
      = Ok b
    ∧ w_out w' = w_out (fresh tree_loop) ∧ w_fs w' = w_fs (fresh tree_loop).
Proof.
  apply (unresolvable_keep_dir_skipped _ _ _ _ _ _ _ RuntimeError).
  vm_compute. reflexivity.
Defined.

End KeepClaims.

(* ===================================================================== *)
(** * Properties of a run that need no knowledge of the tree *)
(* ===================================================================== *)

Module RunClaims.

(** C7 (missing target).  When the target directory does not exist, the
    run ends at once: the one call made is the existence test, so no
    directory has been read; the file system is the same; the one line
    printed is the error, so no deletion is reported. *)
Theorem missing_target_aborts (target_dir : string)
    (keep_files keep_dirs : option (list string)) (dry_run : bool) (w : World) :
  fs_exists (w_fs w) (w_cwd w) (parse target_dir) = false →
  delete_files_except target_dir keep_files keep_dirs dry_run w
  = (Ok tt,
     printed (MsgTargetMissing target_dir)
       (called (SysExists (parse target_dir)) w)).
Proof.
  intros Hmissing. unfold delete_files_except, path_exists. unfold_M.
  simpl. by rewrite Hmissing.
Qed.

Lemma missing_target_aborts_witness :
  delete_files_except "/nowhere" (Some ["A.txt"]) None false (fresh tree_abc)
  = (Ok tt,
     printed (MsgTargetMissing "/nowhere")
       (called (SysExists (parse "/nowhere")) (fresh tree_abc))).
Proof.
  apply missing_target_aborts. vm_compute. reflexivity.
Defined.

Lemma load_config_file_degrades (config_path : string) (w : World) :
  usable (open_json config_path w).1 = false →
  ∃ msg, load_config_file config_path w
         = (Ok ([], []), printed msg (open_json config_path w).2)
         ∧ is_config_error msg = true.
Proof.
  unfold load_config_file. unfold_M.
  destruct (open_json config_path w) as [[c|e] w'] eqn:Hopen; simpl.
  - destruct c; simpl; intros Hc; try discriminate Hc;
      (eexists; split; [reflexivity | done]).
  - intros _. destruct e; simpl; (eexists; split; [reflexivity | done]).
Qed.

Lemma open_json_frame (config_path : string) (w : World) :
  w_fs (open_json config_path w).2 = w_fs w
  ∧ w_out (open_json config_path w).2 = w_out w.
Proof.
  unfold open_json. destruct (decide (config_path = "")); done.
Qed.

(** C8 (configuration failure).  When the configuration file cannot be
    read (it does not exist, or reading fails otherwise) or what is read
    is not a JSON mapping, [load_config_file] prints one error line and
    returns two empty lists without touching the file system, and [main]
    goes on exactly as it does without [--config] from there: with the
    keep-lists of the command line alone. *)
Theorem config_failure_degrades (config_path : string) (w : World) :
  usable (open_json config_path w).1 = false →
  ∃ (msg : message) (w' : World),
    load_config_file config_path w = (Ok ([], []), w')
    ∧ is_config_error msg = true
    ∧ w_out w' = w_out w ++ [msg]
    ∧ w_fs w' = w_fs w
    ∧ ∀ (args : Args) (typed : option string),
        arg_config args = Some config_path → config_path ≠ "" →
        main args typed w
        = confirm_and_run args (arg_keep_files args) (arg_keep_dirs args)
            typed w'.
Proof.
  intros Hbad.
  destruct (load_config_file_degrades config_path w Hbad) as (msg & Hload & Hmsg).
  destruct (open_json_frame config_path w) as [Hfs Hout].
  exists msg, (printed msg (open_json config_path w).2).
  split; [done |]. split; [done |]. simpl. rewrite Hfs, Hout.
  split; [done |]. split; [done |].
  intros args typed Hcfg Hne. unfold main, merged_keep_lists. rewrite Hcfg.
  unfold truthy. rewrite bool_decide_eq_false_2 by done. simpl.
  unfold_M. rewrite Hload. simpl. by rewrite !app_nil_r.
Qed.

(** The instance of the specification: [--keep-files A.txt] with a
    [--config] path that does not exist runs with [["A.txt"]] alone. *)
Lemma config_failure_degrades_witness :
  ∃ (msg : message) (w' : World),
    load_config_file "/t/missing.json" (fresh tree_abc) = (Ok ([], []), w')
    ∧ is_config_error msg = true
    ∧ w_out w' = w_out (fresh tree_abc) ++ [msg]
    ∧ w_fs w' = w_fs (fresh tree_abc)
    ∧ ∀ (args : Args) (typed : option string),
        arg_config args = Some "/t/missing.json" → "/t/missing.json" ≠ "" →
        main args typed (fresh tree_abc)
        = confirm_and_run args (arg_keep_files args) (arg_keep_dirs args)
            typed w'.
Proof.
  apply config_failure_degrades. vm_compute. reflexivity.
Defined.

End RunClaims.

(* ===================================================================== *)
(** * Facts about the file system *)
(* ===================================================================== *)

Module FsFacts.

Lemma walk_path_nil l fs cur : walk_path l fs cur [] = Ok cur.
Proof. by destruct l. Qed.

Lemma walk_path_cons l fs cur c rest :
  walk_path l fs cur (c :: rest)
  = if negb (is_dir_key fs cur) then Raise NotADirectoryError
    else if decide (c = "..") then walk_path l fs (removelast cur) rest
    else
      match fs !! (cur ++ [c]) with
      | None => Raise FileNotFoundError
      | Some (Link tgt) =>
          match l with
          | O => Raise OSError
          | S l' =>
              match walk_path l' fs (if absolute tgt then [] else cur)
                              (parts tgt) with
              | Ok k => walk_path l fs k rest
              | Raise e => Raise e
              end
          end
      | Some _ => walk_path l fs (cur ++ [c]) rest
      end.
Proof. by destruct l. Qed.

#[global] Opaque walk_path.

Lemma is_dir_key_mono (fs fs' : gmap (list string) node) (k : list string) :
  fs ⊆ fs' → is_dir_key fs k = true → is_dir_key fs' k = true.
Proof.
  intros Hsub. unfold is_dir_key, node_at. destruct k; [done |].
  destruct (fs !! (s :: k)) as [[]|] eqn:Hk; try done.
  by rewrite (lookup_weaken _ _ _ _ Hk Hsub).
Qed.

(** Resolution that succeeds keeps its result when entries are added: a
    path that still resolves after deletions resolves to what it did. *)
Lemma walk_path_mono (fs fs' : gmap (list string) node) (l : nat) (cur comps k : list string) :
  fs ⊆ fs' → walk_path l fs cur comps = Ok k → walk_path l fs' cur comps = Ok k.
Proof.
  intros Hsub. revert cur comps k.
  induction l as [|l IHl]; intros cur comps; revert cur;
    (induction comps as [|c rest IH]; intros cur k;
     [by rewrite !walk_path_nil |]);
    rewrite !walk_path_cons;
    (destruct (is_dir_key fs cur) eqn:Hd; simpl; [| done]);
    rewrite (is_dir_key_mono _ _ _ Hsub Hd); simpl;
    (destruct (decide (c = "..")); [by apply IH |]);
    (destruct (fs !! (cur ++ [c])) as [x|] eqn:Hx; [| done]);
    rewrite (lookup_weaken _ _ _ _ Hx Hsub);
    destruct x as [ct| |tgt]; try by apply IH.
  - done.
  - destruct (walk_path l fs _ (parts tgt)) as [k'|] eqn:Hk'; [| done].
    rewrite (IHl _ _ _ Hk'). by apply IH.
Qed.

(** Resolution goes component by component. *)
Lemma walk_path_app (l : nat) (fs : gmap (list string) node) (cur a b : list string) :
  walk_path l fs cur (a ++ b)
  = match walk_path l fs cur a with
    | Ok k => walk_path l fs k b
    | Raise e => Raise e
    end.
Proof.
  revert cur. induction a as [|c a IH]; intros cur; simpl.
  - by rewrite walk_path_nil.
  - rewrite !walk_path_cons.
    destruct (negb (is_dir_key fs cur)); [done |].
    destruct (decide (c = "..")); [by apply IH |].
    destruct (fs !! (cur ++ [c])) as [[ct| |tgt]|]; try done; try by apply IH.
    destruct l as [|l']; [done |].
    destruct (walk_path l' fs _ (parts tgt)); [by apply IH | done].
Qed.

(** A step by the name of a directory lands in that directory. *)
Lemma walk_path_into_dir (l : nat) (fs : gmap (list string) node) (cur : list string) (n : string) (k : list string) :
  n ≠ ".." → fs !! (cur ++ [n]) = Some Dir →
  walk_path l fs cur [n] = Ok k → k = cur ++ [n].
Proof.
  intros Hn Hdir. rewrite walk_path_cons.
  destruct (negb (is_dir_key fs cur)); [done |].
  destruct (decide (n = "..")); [done |].
  rewrite Hdir, walk_path_nil. by intros [= <-].
Qed.

Lemma child_name_Some k e n : child_name k e = Some n ↔ e.1 = k ++ [n].
Proof.
  unfold child_name. destruct e as [k' x]. simpl.
  destruct (reverse k') as [|m rparent] eqn:Hrev.
  - split; [done |]. intros ->. rewrite reverse_app in Hrev. done.
  - assert (Hk' : k' = reverse rparent ++ [m]).
    { rewrite <- (reverse_involutive k'), Hrev. by rewrite reverse_cons. }
    destruct (decide (reverse rparent = k)) as [<- | Hne].
    + split; [intros [= <-]; done |]. rewrite Hk'.
      intros [_ [= ->]]%app_inj_tail. done.
    + split; [done |]. rewrite Hk'. intros [? _]%app_inj_tail. done.
Qed.

(** The listing of a directory names exactly its entries. *)
Lemma elem_of_children (fs : gmap (list string) node) (k : list string) (n : string) :
  n ∈ children fs k ↔ is_Some (fs !! (k ++ [n])).
Proof.
  unfold children. rewrite list_elem_of_omap. split.
  - intros ([k' x] & Hin & Hname). apply child_name_Some in Hname.
    simpl in Hname. subst k'. apply elem_of_map_to_list in Hin. eauto.
  - intros [x Hx]. exists (k ++ [n], x). split.
    + by apply elem_of_map_to_list.
    + by apply child_name_Some.
Qed.

Lemma children_nil (fs : gmap (list string) node) (k : list string) (n : string) :
  children fs k = [] → fs !! (k ++ [n]) = None.
Proof.
  intros Hch. destruct (fs !! (k ++ [n])) eqn:Hn; [| done].
  assert (n ∈ children fs k) as Hin by (apply elem_of_children; eauto).
  rewrite Hch in Hin. by apply elem_of_nil in Hin.
Qed.

Lemma valid_name_parts n :
  valid_name n = true → n ≠ ".." ∧ parse n = {| absolute := false; parts := [n] |}.
Proof.
  unfold valid_name. rewrite !andb_true_iff, !negb_true_iff.
  intros [[[He Hd] Hdd] Hsp].
  apply bool_decide_eq_false in He, Hd, Hdd. apply bool_decide_eq_true in Hsp.
  split; [done |]. unfold parse. rewrite Hsp. simpl.
  unfold kept_component.
  rewrite (bool_decide_eq_false_2 _ He), (bool_decide_eq_false_2 _ Hd). simpl.
  f_equal. destruct n as [|c n]; [done |]. simpl in *.
  destruct (decide (c = "/"%char)) as [Hc|Hc]; [discriminate Hsp |].
  by rewrite bool_decide_eq_false_2.
Qed.

Lemma valid_names_entry (fs : gmap (list string) node) (k : list string) (n : string) :
  valid_names fs → is_Some (fs !! (k ++ [n])) → valid_name n = true.
Proof.
  intros Hv [x Hx]. specialize (Hv _ _ Hx). simpl in Hv.
  rewrite forallb_app in Hv. apply andb_true_iff in Hv as [_ Hn].
  simpl in Hn. by rewrite andb_true_r in Hn.
Qed.

Lemma valid_names_weaken (fs fs' : gmap (list string) node) :
  fs ⊆ fs' → valid_names fs' → valid_names fs.
Proof.
  intros Hsub Hv k x Hk. apply (Hv k x). by eapply lookup_weaken.
Qed.

(** What a successful [unlink] and a successful [rmdir] do. *)
Lemma locate_entry_present fs cwd p k :
  locate_entry fs cwd p = Ok k → is_Some (fs !! k).
Proof.
  unfold locate_entry. destruct (reverse (parts p)) as [|n rparent]; [done |].
  destruct (decide (n = "..")); [done |].
  destruct (walk_path _ _ _ _) as [k'|]; [| done].
  destruct (negb (is_dir_key fs k')); [done |].
  destruct (fs !! (k' ++ [n])) eqn:Hk; [| done].
  intros [= <-]. by rewrite Hk.
Qed.

Lemma fs_unlink_ok fs cwd p fs' :
  fs_unlink fs cwd p = Ok fs' →
  ∃ k, locate_entry fs cwd p = Ok k ∧ fs !! k ≠ Some Dir ∧ is_Some (fs !! k)
       ∧ fs' = delete k fs.
Proof.
  unfold fs_unlink. destruct (locate_entry fs cwd p) as [k|] eqn:Hloc; [| done].
  pose proof (locate_entry_present _ _ _ _ Hloc) as Hk.
  destruct (fs !! k) as [[c| |t]|] eqn:Hn; try done;
    intros [= <-]; exists k; by rewrite Hn.
Qed.

Lemma fs_rmdir_ok fs cwd p fs' :
  fs_rmdir fs cwd p = Ok fs' →
  ∃ k, locate_entry fs cwd p = Ok k ∧ fs !! k = Some Dir ∧ children fs k = []
       ∧ fs' = delete k fs.
Proof.
  unfold fs_rmdir. destruct (locate_entry fs cwd p) as [k|] eqn:Hloc; [| done].
  destruct (fs !! k) as [[c| |t]|] eqn:Hn; try done.
  destruct (children fs k) eqn:Hch; [| done].
  intros [= <-]. by exists k.
Qed.

End FsFacts.
Import FsFacts.

(* ===================================================================== *)
(** * Dry runs, and the emptiness test before every removal *)
(* ===================================================================== *)

Module SafetyClaims.

Section DryRun.

Context (fs0 : gmap (list string) node)
        (cs0 : list (gmap (list string) node * syscall)).

Lemma untouched_print msg w : untouched fs0 cs0 w → untouched fs0 cs0 (print msg w).2.
Proof. done. Qed.

Lemma untouched_called c w :
  reads_only c → untouched fs0 cs0 w → untouched fs0 cs0 (called c w).
Proof.
  intros Hc [Hfs Hcs]. split; [done |]. simpl.
  rewrite List.filter_app. simpl. unfold mutating at 2. simpl.
  destruct c; simpl in *; try done; by rewrite app_nil_r.
Qed.

Lemma dry_file_step target_dir keep_files keep_dirs root acc file :
  preserves (untouched fs0 cs0)
    (file_step target_dir keep_files keep_dirs true root acc file).
Proof.
  unfold file_step. apply preserves_bind.
  - by apply (preserves_should_keep_file _ reads_only untouched_called).
  - intros keep. apply preserves_if; [| apply preserves_ret].
    apply preserves_bind; [| intros; apply preserves_ret].
    apply (preserves_print _ untouched_print).
Qed.

Lemma dry_dir_step target_dir keep_dirs root acc dir_name :
  preserves (untouched fs0 cs0)
    (dir_step target_dir keep_dirs true root acc dir_name).
Proof.
  unfold dir_step. apply preserves_bind.
  - by apply (preserves_should_keep_file _ reads_only untouched_called).
  - intros keep. apply preserves_if; [| apply preserves_ret].
    apply preserves_try.
    + unfold remove_if_empty. apply preserves_bind.
      * by apply (preserves_reading _ reads_only untouched_called).
      * intros entries. apply preserves_if; [| apply preserves_ret].
        apply preserves_bind; [| intros; apply preserves_ret].
        apply (preserves_print _ untouched_print).
    + intros e. apply preserves_bind; [| intros; apply preserves_ret].
      apply (preserves_print _ untouched_print).
Qed.

Lemma dry_delete_files_except target_dir keep_files keep_dirs :
  preserves (untouched fs0 cs0)
    (delete_files_except target_dir keep_files keep_dirs true).
Proof.
  unfold delete_files_except. apply preserves_bind.
  - by apply (preserves_reading _ reads_only untouched_called).
  - intros present. apply preserves_if.
    + apply (preserves_print _ untouched_print).
    + apply preserves_bind.
      * apply preserves_os_walk.
        -- intros p. by apply (preserves_reading _ reads_only untouched_called).
        -- intros a root ds fs. apply preserves_for_each.
           intros a' x _. apply dry_file_step.
      * intros deleted_files. apply preserves_bind.
        -- apply preserves_os_walk.
           ++ intros p.
              by apply (preserves_reading _ reads_only untouched_called).
           ++ intros a root ds fs. apply preserves_for_each.
              intros a' x _. apply dry_dir_step.
        -- intros deleted_dirs. apply (preserves_print _ untouched_print).
Qed.

End DryRun.

(** C2 (dry run).  With [dry_run] set, a run leaves the file system as it
    found it, whatever the tree and the keep-lists: not one [unlink] or
    [rmdir] is issued. *)
Theorem dry_run_changes_nothing (target_dir : string)
    (keep_files keep_dirs : option (list string)) (w : World) :
  w_fs (delete_files_except target_dir keep_files keep_dirs true w).2 = w_fs w
  ∧ List.filter mutating
      (w_calls (delete_files_except target_dir keep_files keep_dirs true w).2)
    = List.filter mutating (w_calls w).
Proof.
  by apply (dry_delete_files_except (w_fs w) (List.filter mutating (w_calls w))).
Qed.

Section Checked.

Context (cwd : list string).

Lemma checked_print msg w :
  removals_checked cwd w → removals_checked cwd (print msg w).2.
Proof. done. Qed.

Lemma checked_called c w :
  not_rmdir c → removals_checked cwd w → removals_checked cwd (called c w).
Proof.
  intros Hc [Hcwd Hcs]. split; [done |]. simpl.
  apply Forall_app. split; [done |]. constructor; [| done].
  unfold rmdir_checked. simpl. by destruct c.
Qed.

Lemma checked_set_fs fs w :
  removals_checked cwd w → removals_checked cwd (set_fs fs w).
Proof. done. Qed.

Lemma checked_remove_if_empty dry_run dir_path (acc : list Path) :
  preserves (removals_checked cwd) (remove_if_empty dry_run dir_path acc).
Proof.
  intros w Hw. unfold remove_if_empty, iterdir, reading, mbind, M_bind.
  unfold bind at 1.
  destruct (fs_listdir (w_fs w) (w_cwd w) dir_path) as [entries|e] eqn:Hls;
    [| by apply checked_called].
  assert (Hw1 : removals_checked cwd (called (SysIterdir dir_path) w))
    by by apply checked_called.
  destruct entries as [|n ns]; simpl; [| done].
  destruct dry_run.
  - revert Hw1. generalize (called (SysIterdir dir_path) w).
    apply preserves_bind; [| intros; apply preserves_ret].
    apply (preserves_print _ checked_print).
  - assert (Hw2 : removals_checked cwd
                    (called (SysRmdir dir_path) (called (SysIterdir dir_path) w))).
    { destruct Hw1 as [Hcwd Hcs]. split; [done |]. simpl.
      apply Forall_app. split; [done |]. constructor; [| done].
      unfold rmdir_checked. simpl. destruct Hw as [<- _]. done. }
    unfold rmdir, writing. unfold_M. simpl.
    destruct (fs_rmdir (w_fs w) (w_cwd w) dir_path); simpl; done.
Qed.

Lemma checked_file_step target_dir keep_files keep_dirs dry_run root acc file :
  preserves (removals_checked cwd)
    (file_step target_dir keep_files keep_dirs dry_run root acc file).
Proof.
  unfold file_step. apply preserves_bind.
  - by apply (preserves_should_keep_file _ not_rmdir checked_called).
  - intros keep. apply preserves_if; [| apply preserves_ret].
    apply preserves_if.
    + apply preserves_bind; [| intros; apply preserves_ret].
      apply (preserves_print _ checked_print).
    + apply preserves_try.
      * unfold remove_file. apply preserves_bind.
        -- apply (preserves_writing _ not_rmdir checked_called); [done |].
           apply checked_set_fs.
        -- intros _. apply preserves_bind; [| intros; apply preserves_ret].
           apply (preserves_print _ checked_print).
      * intros e. apply preserves_bind; [| intros; apply preserves_ret].
        apply (preserves_print _ checked_print).
Qed.

Lemma checked_dir_step target_dir keep_dirs dry_run root acc dir_name :
  preserves (removals_checked cwd)
    (dir_step target_dir keep_dirs dry_run root acc dir_name).
Proof.
  unfold dir_step. apply preserves_bind.
  - by apply (preserves_should_keep_file _ not_rmdir checked_called).
  - intros keep. apply preserves_if; [| apply preserves_ret].
    apply preserves_try; [apply checked_remove_if_empty |].
    intros e. apply preserves_bind; [| intros; apply preserves_ret].
    apply (preserves_print _ checked_print).
Qed.

Lemma checked_delete_files_except target_dir keep_files keep_dirs dry_run :
  preserves (removals_checked cwd)
    (delete_files_except target_dir keep_files keep_dirs dry_run).
Proof.
  unfold delete_files_except. apply preserves_bind.
  - by apply (preserves_reading _ not_rmdir checked_called).
  - intros present. apply preserves_if.
    + apply (preserves_print _ checked_print).
    + apply preserves_bind.
      * apply preserves_os_walk.
        -- intros p. by apply (preserves_reading _ not_rmdir checked_called).
        -- intros a root ds fs. apply preserves_for_each.
           intros a' x _. apply checked_file_step.
      * intros deleted_files. apply preserves_bind.
        -- apply preserves_os_walk.
           ++ intros p.
              by apply (preserves_reading _ not_rmdir checked_called).
           ++ intros a root ds fs. apply preserves_for_each.
              intros a' x _. apply checked_dir_step.
        -- intros deleted_dirs. apply (preserves_print _ checked_print).
Qed.

End Checked.

Section Traced.

Context (fs0 : gmap (list string) node) (cwd : list string).

Lemma traced_print msg w :
  removals_traced fs0 cwd w → removals_traced fs0 cwd (print msg w).2.
Proof. done. Qed.

Lemma traced_called c w :
  True → removals_traced fs0 cwd w → removals_traced fs0 cwd (called c w).
Proof.
  intros _ (Hcwd & Hsub & Hgone). split; [done |]. split; [done |].
  intros k Hk0 Hk. destruct (Hgone k Hk0 Hk) as (fs_t & p & Hin & Hloc & Hch).
  exists fs_t, p. split; [| done]. simpl. apply elem_of_app. by left.
Qed.

Lemma traced_unlink p : preserves (removals_traced fs0 cwd) (unlink p).
Proof.
  intros w Hw. unfold unlink, writing.
  destruct (fs_unlink (w_fs w) (w_cwd w) p) as [fs'|e] eqn:Hun; simpl;
    [| by apply traced_called].
  apply fs_unlink_ok in Hun as (k & Hloc & Hnd & [x Hx] & ->).
  destruct (traced_called (SysUnlink p) w I Hw) as (Hcwd & Hsub & Hgone).
  split; [done |]. split.
  - etrans; [apply delete_subseteq | done].
  - simpl in *. intros k' Hk0 Hk'. apply Hgone; [done |].
    apply lookup_delete_None in Hk' as [-> | Hk']; [| done].
    exfalso. apply Hnd. rewrite Hx. f_equal.
    pose proof (lookup_weaken _ _ _ _ Hx Hsub) as Hx0. congruence.
Qed.

Lemma traced_rmdir p : preserves (removals_traced fs0 cwd) (rmdir p).
Proof.
  intros w Hw. unfold rmdir, writing.
  destruct (fs_rmdir (w_fs w) (w_cwd w) p) as [fs'|e] eqn:Hrm; simpl;
    [| by apply traced_called].
  apply fs_rmdir_ok in Hrm as (k & Hloc & Hdir & Hch & ->).
  destruct (traced_called (SysRmdir p) w I Hw) as (Hcwd & Hsub & Hgone).
  split; [done |]. split.
  - etrans; [apply delete_subseteq | done].
  - simpl in *. intros k' Hk0 Hk'.
    apply lookup_delete_None in Hk' as [-> | Hk']; [| by apply Hgone].
    exists (w_fs w), p. split; [apply elem_of_app; right; left |].
    destruct Hw as [<- _]. done.
Qed.

Lemma traced_file_step target_dir keep_files keep_dirs dry_run root acc file :
  preserves (removals_traced fs0 cwd)
    (file_step target_dir keep_files keep_dirs dry_run root acc file).
Proof.
  unfold file_step. apply preserves_bind.
  - by apply (preserves_should_keep_file _ (λ _, True) traced_called).
  - intros keep. apply preserves_if; [| apply preserves_ret].
    apply preserves_if.
    + apply preserves_bind; [| intros; apply preserves_ret].
      apply (preserves_print _ traced_print).
    + apply preserves_try.
      * unfold remove_file. apply preserves_bind; [apply traced_unlink |].
        intros _. apply preserves_bind; [| intros; apply preserves_ret].
        apply (preserves_print _ traced_print).
      * intros e. apply preserves_bind; [| intros; apply preserves_ret].
        apply (preserves_print _ traced_print).
Qed.

Lemma traced_dir_step target_dir keep_dirs dry_run root acc dir_name :
  preserves (removals_traced fs0 cwd)
    (dir_step target_dir keep_dirs dry_run root acc dir_name).
Proof.
  unfold dir_step. apply preserves_bind.
  - by apply (preserves_should_keep_file _ (λ _, True) traced_called).
  - intros keep. apply preserves_if; [| apply preserves_ret].
    apply preserves_try.
    + unfold remove_if_empty. apply preserves_bind.
      * by apply (preserves_reading _ (λ _, True) traced_called).
      * intros entries. apply preserves_if; [| apply preserves_ret].
        apply preserves_if.
        -- apply preserves_bind; [| intros; apply preserves_ret].
           apply (preserves_print _ traced_print).
        -- apply preserves_bind; [apply traced_rmdir |].
           intros _. apply preserves_bind; [| intros; apply preserves_ret].
           apply (preserves_print _ traced_print).
    + intros e. apply preserves_bind; [| intros; apply preserves_ret].
      apply (preserves_print _ traced_print).
Qed.

Lemma traced_delete_files_except target_dir keep_files keep_dirs dry_run :
  preserves (removals_traced fs0 cwd)
    (delete_files_except target_dir keep_files keep_dirs dry_run).
Proof.
  unfold delete_files_except. apply preserves_bind.
  - by apply (preserves_reading _ (λ _, True) traced_called).
  - intros present. apply preserves_if.
    + apply (preserves_print _ traced_print).
    + apply preserves_bind.
      * apply preserves_os_walk.
        -- intros p. by apply (preserves_reading _ (λ _, True) traced_called).
        -- intros a root ds fs. apply preserves_for_each.
           intros a' x _. apply traced_file_step.
      * intros deleted_files. apply preserves_bind.
        -- apply preserves_os_walk.
           ++ intros p.
              by apply (preserves_reading _ (λ _, True) traced_called).
           ++ intros a root ds fs. apply preserves_for_each.
              intros a' x _. apply traced_dir_step.
        -- intros deleted_dirs. apply (preserves_print _ traced_print).
Qed.

End Traced.



End SafetyClaims.

(* ===================================================================== *)
(** * Where a run deletes *)
(* ===================================================================== *)

Module Confinement.

(** [preserves] where what is done next may rely on a property of the value
    handed over. *)
Lemma preserves_bind_val {A B} (I : World → Prop) (Φ : A → Prop)
    (m : M A) (f : A → M B) :
  (∀ w, I w → I (m w).2 ∧ ∀ a, (m w).1 = Ok a → Φ a) →
  (∀ a, Φ a → preserves I (f a)) →
  preserves I (m ≫= f).
Proof.
  intros Hm Hf w Hw. destruct (Hm w Hw) as [Hw' Hval]. unfold_M.
  destruct (m w) as [[a|e] w']; simpl in *; [| done].
  apply Hf; [by apply Hval | done].
Qed.

Lemma joinpath_name (R : Path) (n : string) :
  valid_name n = true →
  joinpath R (parse n) = {| absolute := absolute R; parts := parts R ++ [n] |}.
Proof.
  intros [_ Hn]%valid_name_parts. by rewrite Hn.
Qed.

(** What [os.walk] learns from reading a directory. *)
Lemma fs_scandir_ok (fs : gmap (list string) node) (cwd : list string)
    (R : Path) (l : listing) :
  valid_names fs → fs_scandir fs cwd R = Ok l →
  ∃ K, locate fs cwd R = Ok K ∧ is_dir_key fs K = true
       ∧ dirs l = List.filter (entry_is_dir fs K) (children fs K)
       ∧ nondirs l = List.filter (λ n, negb (entry_is_dir fs K n)) (children fs K)
       ∧ ∀ n, n ∈ walk_dirs l → fs !! (K ++ [n]) = Some Dir.
Proof.
  intros Hv. unfold fs_scandir, fs_listdir.
  destruct (locate fs cwd R) as [K|] eqn:Hloc; [| done].
  destruct (is_dir_key fs K) eqn:HK; [| done].
  intros [= <-]. exists K. simpl. do 4 (split; [done |]).
  intros n [Hn Hkind]%list_elem_of_In%filter_In.
  apply list_elem_of_In in Hn.
  pose proof (proj1 (elem_of_children _ _ _) Hn) as Hsome.
  destruct (valid_name_parts n (valid_names_entry _ _ _ Hv Hsome)) as [Hdd _].
  apply andb_true_iff in Hkind as [Hd Hl]. apply negb_true_iff in Hl.
  unfold entry_is_dir in Hd. unfold entry_is_symlink in Hl.
  rewrite walk_path_cons, HK in Hd. simpl in Hd.
  destruct (decide (n = "..")); [done |].
  destruct (fs !! (K ++ [n])) as [[c| |tgt]|] eqn:Hx; try done.
  rewrite walk_path_nil in Hd. unfold is_dir_key, node_at in Hd.
  destruct (K ++ [n]) eqn:Happ; [by destruct K |]. by rewrite Hx in Hd.
Qed.

Lemma fs_scandir_names (fs : gmap (list string) node) (cwd : list string)
    (R : Path) (l : listing) :
  valid_names fs → fs_scandir fs cwd R = Ok l →
  Forall (λ n, valid_name n = true) (dirs l)
  ∧ Forall (λ n, valid_name n = true) (nondirs l).
Proof.
  intros Hv Hscan.
  destruct (fs_scandir_ok _ _ _ _ Hv Hscan) as (K & _ & _ & -> & -> & _).
  split; apply Forall_forall; intros n [Hn _]%list_elem_of_In%filter_In;
    apply list_elem_of_In, elem_of_children in Hn;
    by eapply valid_names_entry.
Qed.

(** The entry that [unlink] and [rmdir] act on, for a name in [R]. *)
Lemma locate_entry_child (fs : gmap (list string) node) (cwd : list string)
    (R : Path) (n : string) (k : list string) :
  valid_name n = true →
  locate_entry fs cwd (joinpath R (parse n)) = Ok k →
  ∃ k1, locate fs cwd R = Ok k1 ∧ is_dir_key fs k1 = true ∧ k = k1 ++ [n]
        ∧ is_Some (fs !! k).
Proof.
  intros Hn. rewrite (joinpath_name _ _ Hn). unfold locate_entry, locate.
  simpl. rewrite reverse_app. simpl.
  destruct (decide (n = "..")); [done |]. rewrite reverse_involutive.
  unfold base. simpl.
  destruct (walk_path _ _ _ _) as [k1|]; [| done].
  destruct (is_dir_key fs k1) eqn:Hd; [| done]. simpl.
  destruct (fs !! (k1 ++ [n])) eqn:Hx; [| done].
  intros [= <-]. exists k1. rewrite Hx. eauto.
Qed.

(** The entry a path denotes, for a name in [R]. *)
Lemma locate_child (fs : gmap (list string) node) (cwd : list string)
    (R : Path) (n : string) :
  valid_name n = true →
  locate fs cwd (joinpath R (parse n))
  = match locate fs cwd R with
    | Ok k1 => walk_path max_symlinks fs k1 [n]
    | Raise e => Raise e
    end.
Proof.
  intros Hn. rewrite (joinpath_name _ _ Hn). unfold locate, base. simpl.
  apply walk_path_app.
Qed.

Section Run.

Context (fs0 : gmap (list string) node) (cwd : list string) (K0 : list string).
Hypothesis Hvalid : valid_names fs0.

Local Abbreviation confined := (confined fs0 cwd K0).
Local Abbreviation anchored := (anchored fs0 cwd K0).

Lemma confined_print msg w : confined w → confined (print msg w).2.
Proof. done. Qed.

Lemma confined_called c w : True → confined w → confined (called c w).
Proof. done. Qed.

Lemma below_snoc names n : below K0 (K0 ++ names ++ [n]).
Proof. exists (names ++ [n]). split; [by destruct names | done]. Qed.

Lemma confined_delete w k :
  confined w → below K0 k → confined (set_fs (delete k (w_fs w)) w).
Proof.
  intros (Hcwd & Hsub & Hgone) Hk. split; [done |]. split.
  - simpl. etrans; [apply delete_subseteq | done].
  - simpl. intros k' Hk0 Hk'.
    apply lookup_delete_None in Hk' as [-> | Hk']; [done | by apply Hgone].
Qed.

Lemma anchored_child (R : Path) (n : string) (w : World) (K : list string) :
  anchored R → confined w → locate (w_fs w) (w_cwd w) R = Ok K →
  w_fs w !! (K ++ [n]) = Some Dir →
  anchored (joinpath R (parse n)).
Proof.
  intros [names Hnames] (Hcwd & Hsub & _) Hloc Hdir.
  assert (Hn : valid_name n = true).
  { eapply valid_names_entry; [by eapply valid_names_weaken |].
    by rewrite Hdir. }
  rewrite Hcwd in Hloc. pose proof (Hnames _ _ Hsub Hloc) as ->.
  exists (names ++ [n]). intros fs k Hfs. rewrite (locate_child _ _ _ _ Hn).
  destruct (locate fs cwd R) as [k1|] eqn:Hk1; [| done].
  pose proof (Hnames _ _ Hfs Hk1) as ->. intros Hstep.
  destruct (valid_name_parts _ Hn) as [Hdd _].
  rewrite walk_path_cons in Hstep.
  destruct (negb (is_dir_key fs (K0 ++ names))); [done |].
  destruct (decide (n = "..")); [done |].
  destruct (fs !! ((K0 ++ names) ++ [n])) as [x|] eqn:Hx; [| done].
  pose proof (lookup_weaken _ _ _ _ Hx Hfs) as Hx0.
  pose proof (lookup_weaken _ _ _ _ Hdir Hsub) as Hd0.
  rewrite Hd0 in Hx0. injection Hx0 as <-.
  rewrite walk_path_nil in Hstep. injection Hstep as <-.
  by rewrite <- app_assoc.
Qed.

Lemma confined_unlink (R : Path) (n : string) :
  anchored R → valid_name n = true →
  preserves confined (unlink (joinpath R (parse n))).
Proof.
  intros [names Hnames] Hn w Hw. unfold unlink, writing.
  destruct (fs_unlink _ _ _) as [fs'|e] eqn:Hun; simpl; [| done].
  apply fs_unlink_ok in Hun as (k & Hloc & _ & _ & ->).
  apply (locate_entry_child _ _ _ _ _ Hn) in Hloc as (k1 & Hk1 & _ & -> & _).
  destruct Hw as (Hcwd & Hsub & Hgone). rewrite Hcwd in Hk1.
  rewrite (Hnames _ _ Hsub Hk1), <- app_assoc.
  apply (confined_delete (called _ w)); [done | apply below_snoc].
Qed.

Lemma confined_rmdir (R : Path) (n : string) :
  anchored R → valid_name n = true →
  preserves confined (rmdir (joinpath R (parse n))).
Proof.
  intros [names Hnames] Hn w Hw. unfold rmdir, writing.
  destruct (fs_rmdir _ _ _) as [fs'|e] eqn:Hrm; simpl; [| done].
  apply fs_rmdir_ok in Hrm as (k & Hloc & _ & _ & ->).
  apply (locate_entry_child _ _ _ _ _ Hn) in Hloc as (k1 & Hk1 & _ & -> & _).
  destruct Hw as (Hcwd & Hsub & Hgone). rewrite Hcwd in Hk1.
  rewrite (Hnames _ _ Hsub Hk1), <- app_assoc.
  apply (confined_delete (called _ w)); [done | apply below_snoc].
Qed.

Lemma confined_file_step target_dir keep_files keep_dirs dry_run R acc file :
  anchored R → valid_name file = true →
  preserves confined
    (file_step target_dir keep_files keep_dirs dry_run R acc file).
Proof.
  intros HR Hn. unfold file_step. apply preserves_bind.
  - by apply (preserves_should_keep_file _ (λ _, True) confined_called).
  - intros keep. apply preserves_if; [| apply preserves_ret].
    apply preserves_if.
    + apply preserves_bind; [| intros; apply preserves_ret].
      apply (preserves_print _ confined_print).
    + apply preserves_try.
      * unfold remove_file.
        apply preserves_bind; [by apply confined_unlink |].
        intros _. apply preserves_bind; [| intros; apply preserves_ret].
        apply (preserves_print _ confined_print).
      * intros e. apply preserves_bind; [| intros; apply preserves_ret].
        apply (preserves_print _ confined_print).
Qed.

Lemma confined_dir_step target_dir keep_dirs dry_run R acc dir_name :
  anchored R → valid_name dir_name = true →
  preserves confined (dir_step target_dir keep_dirs dry_run R acc dir_name).
Proof.
  intros HR Hn. unfold dir_step. apply preserves_bind.
  - by apply (preserves_should_keep_file _ (λ _, True) confined_called).
  - intros keep. apply preserves_if; [| apply preserves_ret].
    apply preserves_try.
    + unfold remove_if_empty. apply preserves_bind.
      * by apply (preserves_reading _ (λ _, True) confined_called).
      * intros entries. apply preserves_if; [| apply preserves_ret].
        apply preserves_if.
        -- apply preserves_bind; [| intros; apply preserves_ret].
           apply (preserves_print _ confined_print).
        -- apply preserves_bind; [by apply confined_rmdir |].
           intros _. apply preserves_bind; [| intros; apply preserves_ret].
           apply (preserves_print _ confined_print).
    + intros e. apply preserves_bind; [| intros; apply preserves_ret].
      apply (preserves_print _ confined_print).
Qed.

(** The walk hands only anchored directories and valid names to the body. *)
Lemma confined_walk_from {A} depth (R : Path)
    (body : A → Path → list string → list string → M A) acc :
  (∀ a R ds fs, anchored R →
     Forall (λ n, valid_name n = true) ds →
     Forall (λ n, valid_name n = true) fs →
     preserves confined (body a R ds fs)) →
  anchored R → preserves confined (walk_from depth R body acc).
Proof.
  intros Hbody. revert R acc.
  induction depth as [|d IH]; intros R acc HR; simpl; [apply preserves_ret |].
  apply (preserves_bind_val _
    (λ read, match read with
             | Some l =>
                 Forall (λ n, valid_name n = true) (dirs l)
                 ∧ Forall (λ n, valid_name n = true) (nondirs l)
                 ∧ ∀ n, n ∈ walk_dirs l → anchored (joinpath R (parse n))
             | None => True
             end)).
  - intros w Hw. unfold scandir, reading. unfold_M. simpl.
    destruct (fs_scandir (w_fs w) (w_cwd w) R) as [l|e] eqn:Hscan; simpl.
    + split; [done |]. intros read [= <-].
      assert (Hv : valid_names (w_fs w))
        by (eapply valid_names_weaken; [apply Hw | done]).
      destruct (fs_scandir_names _ _ _ _ Hv Hscan) as [Hds Hfs].
      destruct (fs_scandir_ok _ _ _ _ Hv Hscan) as (K & HK & _ & _ & _ & Hwd).
      do 2 (split; [done |]). intros n Hn.
      eapply anchored_child; eauto.
    + split; [done |]. by intros read [= <-].
  - intros [l|] Hl; [| apply preserves_ret].
    destruct Hl as (Hds & Hfs & Hwd).
    apply preserves_bind; [| intros; by apply Hbody].
    apply preserves_for_each. intros a n Hn. apply IH. by apply Hwd.
Qed.

Lemma confined_delete_files_except target_dir keep_files keep_dirs dry_run :
  anchored (parse target_dir) →
  preserves confined
    (delete_files_except target_dir keep_files keep_dirs dry_run).
Proof.
  intros HT. unfold delete_files_except. apply preserves_bind.
  - by apply (preserves_reading _ (λ _, True) confined_called).
  - intros present. apply preserves_if.
    + apply (preserves_print _ confined_print).
    + apply preserves_bind.
      * intros w Hw. unfold os_walk. destruct (decide (target_dir = "")); [done |].
        apply confined_walk_from; [| done | done].
        intros a R ds fs HR _ Hfs. apply preserves_for_each.
        intros a' x Hx. apply confined_file_step; [done |].
        rewrite Forall_forall in Hfs. by apply Hfs.
      * intros deleted_files. apply preserves_bind.
        -- intros w Hw. unfold os_walk.
           destruct (decide (target_dir = "")); [done |].
           apply confined_walk_from; [| done | done].
           intros a R ds fs HR Hds _. apply preserves_for_each.
           intros a' x Hx. apply confined_dir_step; [done |].
           rewrite Forall_forall in Hds. by apply Hds.
        -- intros deleted_dirs. apply (preserves_print _ confined_print).
Qed.

End Run.

Lemma anchored_target (fs0 : gmap (list string) node) (cwd : list string)
    (target : Path) (K0 : list string) :
  locate fs0 cwd target = Ok K0 → anchored fs0 cwd K0 target.
Proof.
  intros Hloc. exists []. intros fs k Hsub Hk. rewrite app_nil_r.
  pose proof (walk_path_mono _ _ _ _ _ _ Hsub Hk) as Hk0.
  unfold locate in Hloc. congruence.
Qed.

Lemma valid_names_list (l : list (list string * node)) :
  forallb (λ e, forallb valid_name e.1) l = true →
  valid_names (list_to_map l).
Proof.
  intros Hall k x Hk. apply elem_of_list_to_map_2 in Hk.
  rewrite forallb_forall in Hall.
  apply (Hall (k, x)). by apply list_elem_of_In.
Qed.

(** C10 (the target directory stays).  When the target path denotes an
    entry [K0] of a file system with valid names, a run, whatever its
    arguments, deletes nothing but entries that lie strictly below [K0]:
    the entry [K0] itself is after the run what it was before, also when
    it ends the run empty and no keep-list names it. *)
Theorem target_directory_survives (target_dir : string)
    (keep_files keep_dirs : option (list string)) (dry_run : bool)
    (w : World) (K0 : list string) :
  valid_names (w_fs w) →
  locate (w_fs w) (w_cwd w) (parse target_dir) = Ok K0 →
  node_at (w_fs (delete_files_except target_dir keep_files keep_dirs dry_run w).2) K0
  = node_at (w_fs w) K0
  ∧ ∀ k, is_Some (w_fs w !! k) →
      w_fs (delete_files_except target_dir keep_files keep_dirs dry_run w).2 !! k
      = None →
      below K0 k.
Proof.
  intros Hv Hloc.
  assert (Hinit : confined (w_fs w) (w_cwd w) K0 w).
  { split; [done |]. split; [done |]. intros k [x Hx] Hnone. congruence. }
  pose proof (confined_delete_files_except (w_fs w) (w_cwd w) K0 Hv target_dir
                keep_files keep_dirs dry_run
                (anchored_target _ _ _ _ Hloc) w Hinit) as (_ & Hsub & Hgone).
  split; [| done].
  unfold node_at. destruct K0 as [|n K0']; [done |].
  set (fs' := w_fs (delete_files_except _ _ _ _ w).2) in *.
  destruct (fs' !! (n :: K0')) as [y|] eqn:Hy.
  - by rewrite (lookup_weaken _ _ _ _ Hy Hsub).
  - destruct (w_fs w !! (n :: K0')) as [x|] eqn:Hx; [| done].
    destruct (Hgone (n :: K0')) as (rest & Hne & Heq); [by rewrite Hx | done |].
    exfalso. apply Hne. apply (f_equal length) in Heq.
    rewrite length_app in Heq. destruct rest; [done | simpl in Heq; lia].
Qed.

Lemma target_directory_survives_witness :
  node_at (w_fs (delete_files_except "/t" None None false
                   (fresh tree_empty_sub)).2) ["t"]
  = node_at (w_fs (fresh tree_empty_sub)) ["t"]
  ∧ ∀ k, is_Some (w_fs (fresh tree_empty_sub) !! k) →
      w_fs (delete_files_except "/t" None None false
              (fresh tree_empty_sub)).2 !! k
      = None →
      below ["t"] k.
Proof.
  apply target_directory_survives.
  - apply valid_names_list. vm_compute. reflexivity.
  - vm_compute. reflexivity.
Defined.

End Confinement.

(* ===================================================================== *)
(** * File systems without symbolic links *)
(* ===================================================================== *)

Module NoLinks.

Lemma no_links_weaken (fs fs' : gmap (list string) node) :
  fs ⊆ fs' → no_links fs' → no_links fs.
Proof.
  intros Hsub Hv k x Hk. apply (Hv k x). by eapply lookup_weaken.
Qed.

Lemma no_links_list (l : list (list string * node)) :
  forallb (λ e, negb (is_link e.2)) l = true → no_links (list_to_map l).
Proof.
  intros Hall k x Hk. apply elem_of_list_to_map_2 in Hk.
  rewrite forallb_forall in Hall.
  apply list_elem_of_In, Hall in Hk. simpl in Hk. by apply negb_true_iff.
Qed.

Lemma realpath_nil l fs path : realpath l fs path [] = Ok path.
Proof. by destruct l. Qed.

Lemma realpath_cons l fs path c rest :
  realpath l fs path (c :: rest)
  = if decide (c = "..") then realpath l fs (removelast path) rest
    else
      match fs !! (path ++ [c]) with
      | Some (Link tgt) =>
          match l with
          | O => Raise RuntimeError
          | S l' =>
              match realpath l' fs (if absolute tgt then [] else path)
                             (parts tgt) with
              | Ok r => realpath l fs r rest
              | Raise e => Raise e
              end
          end
      | _ => realpath l fs (path ++ [c]) rest
      end.
Proof. by destruct l. Qed.

(** Without links [resolve()] is a matter of the text of the path. *)
Lemma realpath_plain (fs : gmap (list string) node) (l : nat)
    (path rest : list string) :
  no_links fs → realpath l fs path rest = Ok (lexical path rest).
Proof.
  intros Hnl. revert path. induction rest as [|c rest IH]; intros path.
  - by rewrite realpath_nil.
  - rewrite realpath_cons. simpl.
    destruct (decide (c = "..")); [apply IH |].
    destruct (fs !! (path ++ [c])) as [[ct| |tgt]|] eqn:Hx; try apply IH.
    by specialize (Hnl _ _ Hx).
Qed.

Lemma fs_resolve_plain (fs : gmap (list string) node) (cwd : list string)
    (p : Path) :
  no_links fs →
  fs_resolve fs cwd p
  = Ok {| absolute := true; parts := lexical (base cwd p) (parts p) |}.
Proof.
  intros Hnl. unfold fs_resolve. by rewrite realpath_plain.
Qed.

(** So what is kept does not depend on which link-free file system the
    question is asked in. *)
Lemma kept_plain (fs fs' : gmap (list string) node) (cwd : list string)
    (p : Path) (keep_files keep_dirs : list string) (target_dir : option string) :
  no_links fs → no_links fs' →
  kept fs cwd p keep_files keep_dirs target_dir
  = kept fs' cwd p keep_files keep_dirs target_dir.
Proof.
  intros Hnl Hnl'. unfold kept. f_equal. induction keep_dirs as [|d ds IH]; [done |].
  simpl. rewrite IH. f_equal. unfold dir_hit.
  by rewrite !(fs_resolve_plain fs), !(fs_resolve_plain fs').
Qed.

(** A step by a name that is there, from a directory. *)
Lemma walk_path_step (fs : gmap (list string) node) (l : nat)
    (cur : list string) (n : string) (x : node) :
  no_links fs → valid_name n = true → is_dir_key fs cur = true →
  fs !! (cur ++ [n]) = Some x →
  walk_path l fs cur [n] = Ok (cur ++ [n]).
Proof.
  intros Hnl Hn Hd Hx. destruct (valid_name_parts _ Hn) as [Hdd _].
  rewrite walk_path_cons, Hd. simpl.
  destruct (decide (n = "..")); [done |]. rewrite Hx.
  specialize (Hnl _ _ Hx). destruct x; try done; by rewrite walk_path_nil.
Qed.

(** Along valid names resolution only ever goes down. *)
Lemma walk_path_plain (fs : gmap (list string) node) (l : nat)
    (cur names k : list string) :
  no_links fs → Forall (λ n, valid_name n = true) names →
  walk_path l fs cur names = Ok k → k = cur ++ names.
Proof.
  intros Hnl Hnames. revert cur.
  induction Hnames as [|n names Hn _ IH]; intros cur.
  - rewrite walk_path_nil, app_nil_r. by intros [= <-].
  - destruct (valid_name_parts _ Hn) as [Hdd _].
    rewrite walk_path_cons.
    destruct (negb (is_dir_key fs cur)); [done |].
    destruct (decide (n = "..")); [done |].
    destruct (fs !! (cur ++ [n])) as [x|] eqn:Hx; [| done].
    specialize (Hnl _ _ Hx).
    destruct x; try done; intros ->%IH; by rewrite <- app_assoc.
Qed.

Lemma NoDup_children (fs : gmap (list string) node) (k : list string) :
  NoDup (children fs k).
Proof.
  unfold children. pose proof (NoDup_fst_map_to_list fs) as Hnd.
  induction (map_to_list fs) as [|[k' x] l IH]; simpl; [constructor |].
  apply NoDup_cons in Hnd as [Hk' Hnd]. specialize (IH Hnd).
  destruct (child_name k (k', x)) as [n|] eqn:Hn; [| done].
  constructor; [| done]. intros Hin.
  apply list_elem_of_omap in Hin as ([k'' x'] & Hin & Hn').
  apply child_name_Some in Hn, Hn'. simpl in *. subst k' k''.
  apply Hk'. apply list_elem_of_fmap. by exists (k ++ [n], x').
Qed.

(** What a directory looks like to [os.walk] when there are no links. *)
Lemma entry_is_dir_plain (fs : gmap (list string) node) (K : list string)
    (n : string) (x : node) :
  no_links fs → valid_names fs → is_dir_key fs K = true →
  fs !! (K ++ [n]) = Some x →
  entry_is_dir fs K n = match x with Dir => true | _ => false end.
Proof.
  intros Hnl Hv HK Hx. unfold entry_is_dir.
  assert (Hn : valid_name n = true)
    by (eapply valid_names_entry; [done | by rewrite Hx]).
  rewrite (walk_path_step _ _ _ _ _ Hnl Hn HK Hx).
  unfold is_dir_key, node_at. destruct (K ++ [n]) eqn:Happ; [by destruct K |].
  by rewrite Hx.
Qed.

(** What [os.walk] reads of a directory when there are no links: the
    directories among its entries, which it all descends into, and the
    regular files. *)
Lemma fs_scandir_plain (fs : gmap (list string) node) (cwd : list string)
    (R : Path) (l : listing) :
  no_links fs → valid_names fs → fs_scandir fs cwd R = Ok l →
  ∃ K, locate fs cwd R = Ok K ∧ is_dir_key fs K = true
       ∧ NoDup (dirs l) ∧ NoDup (nondirs l) ∧ NoDup (walk_dirs l)
       ∧ (∀ n, n ∈ dirs l ↔ fs !! (K ++ [n]) = Some Dir)
       ∧ (∀ n, n ∈ walk_dirs l ↔ fs !! (K ++ [n]) = Some Dir)
       ∧ (∀ n, n ∈ nondirs l ↔ ∃ c, fs !! (K ++ [n]) = Some (File c)).
Proof.
  intros Hnl Hv. unfold fs_scandir, fs_listdir.
  destruct (locate fs cwd R) as [K|] eqn:Hloc; [| done].
  destruct (is_dir_key fs K) eqn:HK; [| done].
  intros [= <-]. exists K. simpl. do 2 (split; [done |]).
  pose proof (NoDup_children fs K) as Hnd.
  do 3 (split; [by apply NoDup_ListNoDup, List.NoDup_filter, NoDup_ListNoDup |]).
  assert (Hkind : ∀ n x, fs !! (K ++ [n]) = Some x →
            entry_is_dir fs K n = match x with Dir => true | _ => false end
            ∧ entry_is_symlink fs K n = false).
  { intros n x Hx. split; [by apply entry_is_dir_plain |].
    unfold entry_is_symlink. rewrite Hx. specialize (Hnl _ _ Hx).
    by destruct x. }
  split; [| split]; intros n; rewrite list_elem_of_In, filter_In,
    <- list_elem_of_In, elem_of_children; split.
  - intros [[x Hx] Hd]. destruct (Hkind n x Hx) as [Hd' _].
    rewrite Hd' in Hd. by destruct x.
  - intros Hx. split; [by rewrite Hx |]. by destruct (Hkind n Dir Hx) as [-> _].
  - intros [[x Hx] Hd]. destruct (Hkind n x Hx) as [Hd' _].
    rewrite Hd' in Hd. by destruct x.
  - intros Hx. split; [by rewrite Hx |].
    by destruct (Hkind n Dir Hx) as [-> ->].
  - intros [[x Hx] Hd]. destruct (Hkind n x Hx) as [Hd' _].
    rewrite Hd' in Hd. specialize (Hnl _ _ Hx). destruct x; try done. eauto.
  - intros [c Hx]. split; [by rewrite Hx |].
    by destruct (Hkind n _ Hx) as [-> _].
Qed.

Lemma fs_scandir_fails (fs : gmap (list string) node) (cwd : list string)
    (R : Path) (e : exn) (K : list string) :
  fs_scandir fs cwd R = Raise e → locate fs cwd R = Ok K →
  is_dir_key fs K = false.
Proof.
  unfold fs_scandir, fs_listdir. intros Hscan Hloc. rewrite Hloc in Hscan.
  by destruct (is_dir_key fs K).
Qed.

End NoLinks.
Import NoLinks.

(* ===================================================================== *)
(** * Running twice *)
(* ===================================================================== *)

Module Idempotence.

(** The argument, for a file system without links.  The file pass leaves
    only kept regular files in the directories it walks through
    ([files_settled]); the directory pass, which deals with a directory
    after everything below it, leaves only directories that are kept or
    have an entry ([dirs_settled]).  On such a tree both passes find
    nothing to delete ([run_quiet]).  When the first run has removed a
    directory that the target path passes through (a target such as
    [/t/sub/..]), the second run stops at its existence test. *)

Section Setting.

Context (fs0 : gmap (list string) node) (cwd : list string)
        (target_dir : string) (T : Path) (keep_files keep_dirs : list string)
        (K0 : list string).

Hypothesis Hnl : no_links fs0.
Hypothesis Hv : valid_names fs0.
Hypothesis Hparse : parse target_dir = T.
Hypothesis HT : locate fs0 cwd T = Ok K0.

Local Abbreviation valid_all := (Forall (λ n : string, valid_name n = true)).
Local Abbreviation keepF :=
  (keepF fs0 cwd target_dir T keep_files keep_dirs).
Local Abbreviation keepD := (keepD fs0 cwd target_dir T keep_dirs).
Local Abbreviation files_ok :=
  (files_ok fs0 cwd target_dir T keep_files keep_dirs K0).
Local Abbreviation dirs_ok := (dirs_ok fs0 cwd target_dir T keep_dirs K0).
Local Abbreviation inscope := (inscope fs0 cwd).
Local Abbreviation files_settled :=
  (files_settled fs0 cwd target_dir T keep_files keep_dirs K0).
Local Abbreviation dirs_settled :=
  (dirs_settled fs0 cwd target_dir T keep_dirs K0).

Lemma path_at_join (names : list string) (n : string) :
  valid_name n = true →
  joinpath (path_at T names) (parse n) = path_at T (names ++ [n]).
Proof.
  intros Hn. rewrite (Confinement.joinpath_name _ _ Hn).
  unfold path_at. simpl. by rewrite app_assoc.
Qed.

Lemma locate_at (fs : gmap (list string) node) (names k : list string) :
  fs ⊆ fs0 → valid_all names →
  locate fs cwd (path_at T names) = Ok k → k = K0 ++ names.
Proof.
  intros Hsub Hnames. unfold locate, path_at, base. simpl.
  rewrite walk_path_app.
  destruct (walk_path max_symlinks fs _ (parts T)) as [k0|] eqn:Hk0; [| done].
  pose proof (walk_path_mono _ _ _ _ _ _ Hsub Hk0) as Hk0'.
  unfold locate, base in HT. rewrite HT in Hk0'. injection Hk0' as <-.
  apply walk_path_plain; [by eapply no_links_weaken | done].
Qed.

Lemma locate_at_child (fs : gmap (list string) node) (names : list string)
    (n : string) (x : node) :
  fs ⊆ fs0 → valid_name n = true →
  locate fs cwd (path_at T names) = Ok (K0 ++ names) →
  is_dir_key fs (K0 ++ names) = true →
  fs !! (K0 ++ names ++ [n]) = Some x →
  locate fs cwd (path_at T (names ++ [n])) = Ok (K0 ++ names ++ [n]).
Proof.
  intros Hsub Hn Hloc Hd Hx. unfold locate, path_at, base in *. simpl in *.
  rewrite app_assoc, walk_path_app, Hloc.
  rewrite (app_assoc K0). apply (walk_path_step _ _ _ _ x); try done.
  - by eapply no_links_weaken.
  - by rewrite <- app_assoc.
Qed.

Lemma inscope_keeps (w : World) (names : list string)
    (kf : list string) :
  inscope w →
  kept (w_fs w) (w_cwd w) (path_at T names) kf keep_dirs (Some target_dir)
  = kept fs0 cwd (path_at T names) kf keep_dirs (Some target_dir).
Proof.
  intros [-> Hsub]. apply kept_plain; [by eapply no_links_weaken | done].
Qed.

Lemma reach_nil (fs : gmap (list string) node) (K : list string) :
  is_dir_key fs K = true → reach fs K [].
Proof.
  intros HK i Hi. simpl in Hi. replace i with 0 by lia.
  by rewrite take_0, app_nil_r.
Qed.

Lemma reach_here (fs : gmap (list string) node) (K rel : list string) :
  reach fs K rel → is_dir_key fs K = true.
Proof.
  intros Hr. specialize (Hr 0 ltac:(lia)). by rewrite take_0, app_nil_r in Hr.
Qed.

Lemma reach_tail (fs : gmap (list string) node) (K : list string)
    (m : string) (rel : list string) :
  reach fs K (m :: rel) → reach fs (K ++ [m]) rel.
Proof.
  intros Hr i Hi. specialize (Hr (S i) ltac:(simpl; lia)).
  simpl in Hr. by rewrite <- app_assoc.
Qed.

Lemma reach_snoc (fs : gmap (list string) node) (K rel : list string)
    (n : string) :
  reach fs K rel → is_dir_key fs (K ++ rel ++ [n]) = true →
  reach fs K (rel ++ [n]).
Proof.
  intros Hr Hn i Hi. rewrite length_app in Hi. simpl in Hi.
  destruct (decide (i ≤ length rel)%nat) as [Hle|Hgt].
  - rewrite take_app_le by done. by apply Hr.
  - rewrite take_ge by (rewrite length_app; simpl; lia). done.
Qed.

Lemma reach_mono (fs fs' : gmap (list string) node) (K rel : list string) :
  fs ⊆ fs' → reach fs K rel → reach fs' K rel.
Proof.
  intros Hsub Hr i Hi. eapply is_dir_key_mono; [done | by apply Hr].
Qed.

Lemma locate_entry_at (fs : gmap (list string) node) (names : list string)
    (n : string) (x : node) :
  valid_name n = true →
  locate fs cwd (path_at T names) = Ok (K0 ++ names) →
  is_dir_key fs (K0 ++ names) = true →
  fs !! (K0 ++ names ++ [n]) = Some x →
  locate_entry fs cwd (path_at T (names ++ [n])) = Ok (K0 ++ names ++ [n]).
Proof.
  intros Hn Hloc Hd Hx. destruct (valid_name_parts _ Hn) as [Hdd _].
  unfold locate_entry, locate, path_at, base in *. simpl in *.
  rewrite app_assoc, reverse_app. simpl.
  destruct (decide (n = "..")); [done |].
  rewrite reverse_involutive, Hloc, Hd. simpl.
  rewrite (app_assoc K0) in Hx. rewrite Hx. by rewrite <- app_assoc.
Qed.

Lemma fs_unlink_at (fs : gmap (list string) node) (names : list string)
    (n : string) (c : content) :
  valid_name n = true →
  locate fs cwd (path_at T names) = Ok (K0 ++ names) →
  is_dir_key fs (K0 ++ names) = true →
  fs !! (K0 ++ names ++ [n]) = Some (File c) →
  fs_unlink fs cwd (path_at T (names ++ [n]))
  = Ok (delete (K0 ++ names ++ [n]) fs).
Proof.
  intros Hn Hloc Hd Hx. unfold fs_unlink.
  by rewrite (locate_entry_at _ _ _ _ Hn Hloc Hd Hx), Hx.
Qed.

Lemma fs_rmdir_at (fs : gmap (list string) node) (names : list string)
    (n : string) :
  valid_name n = true →
  locate fs cwd (path_at T names) = Ok (K0 ++ names) →
  is_dir_key fs (K0 ++ names) = true →
  fs !! (K0 ++ names ++ [n]) = Some Dir →
  children fs (K0 ++ names ++ [n]) = [] →
  fs_rmdir fs cwd (path_at T (names ++ [n]))
  = Ok (delete (K0 ++ names ++ [n]) fs).
Proof.
  intros Hn Hloc Hd Hx Hch. unfold fs_rmdir.
  by rewrite (locate_entry_at _ _ _ _ Hn Hloc Hd Hx), Hx, Hch.
Qed.

Lemma fs_listdir_at (fs : gmap (list string) node) (names : list string) :
  locate fs cwd (path_at T names) = Ok (K0 ++ names) →
  is_dir_key fs (K0 ++ names) = true →
  fs_listdir fs cwd (path_at T names) = Ok (children fs (K0 ++ names)).
Proof. intros Hloc Hd. unfold fs_listdir. by rewrite Hloc, Hd. Qed.

Lemma is_dir_key_Dir (fs : gmap (list string) node) (K : list string)
    (n : string) :
  is_dir_key fs (K ++ [n]) = true ↔ fs !! (K ++ [n]) = Some Dir.
Proof.
  unfold is_dir_key, node_at. destruct (K ++ [n]) eqn:Happ; [by destruct K |].
  destruct (fs !! (s :: l)) as [[]|]; split; done.
Qed.

Lemma gone_in_sub (fs fs' : gmap (list string) node) (k : list string) :
  fs' ⊆ delete k fs → fs' !! k = None.
Proof.
  intros Hsub. destruct (fs' !! k) eqn:Hk; [| done].
  pose proof (lookup_weaken _ _ _ _ Hk Hsub) as Hk'.
  by rewrite lookup_delete_eq in Hk'.
Qed.

(** A kept file is passed over. *)
Lemma file_step_quiet (dry_run : bool) (names : list string)
    (acc : list Path) (n : string) (w : World) :
  inscope w → valid_name n = true → keepF (names ++ [n]) = true →
  ∃ cs, file_step target_dir keep_files keep_dirs dry_run (path_at T names)
          acc n w
        = (Ok acc, add_calls cs w).
Proof.
  intros Hw Hn Hkeep. unfold file_step. rewrite (path_at_join _ _ Hn).
  destruct (should_keep_file_run (path_at T (names ++ [n])) keep_files
              (Some target_dir) keep_dirs w) as (cs & Hrun & _).
  rewrite (bind_ok _ _ _ _ _ Hrun), (inscope_keeps _ _ _ Hw).
  unfold Spec.keepF in Hkeep. rewrite Hkeep. simpl. by exists cs.
Qed.

(** After the file pass has dealt with the name [n] of a directory, a
    regular file of that name that is still there is a kept one. *)
Lemma file_step_post (names : list string) (acc : list Path) (n : string)
    (w : World) :
  inscope w → valid_all names → valid_name n = true →
  inscope (file_step target_dir keep_files keep_dirs false (path_at T names)
             acc n w).2
  ∧ w_fs (file_step target_dir keep_files keep_dirs false (path_at T names)
            acc n w).2 ⊆ w_fs w
  ∧ ∀ (fs_fin : gmap (list string) node) c,
      fs_fin ⊆ w_fs (file_step target_dir keep_files keep_dirs false
                       (path_at T names) acc n w).2 →
      locate fs_fin cwd (path_at T names) = Ok (K0 ++ names) →
      is_dir_key fs_fin (K0 ++ names) = true →
      fs_fin !! (K0 ++ names ++ [n]) = Some (File c) →
      keepF (names ++ [n]) = true.
Proof.
  intros Hw Hnames Hn. unfold file_step. rewrite (path_at_join _ _ Hn).
  destruct (should_keep_file_run (path_at T (names ++ [n])) keep_files
              (Some target_dir) keep_dirs w) as (cs & Hrun & _).
  rewrite (bind_ok _ _ _ _ _ Hrun), (inscope_keeps _ _ _ Hw).
  fold (keepF (names ++ [n])).
  destruct (keepF (names ++ [n])) eqn:Hkeep; simpl; [done |].
  destruct Hw as [Hcwd Hsub].
  unfold remove_file, unlink, writing. unfold_M. simpl. rewrite Hcwd.
  destruct (fs_unlink (w_fs w) cwd (path_at T (names ++ [n])))
    as [fs'|e] eqn:Hun; simpl.
  - apply fs_unlink_ok in Hun as (k & Hloc & _ & _ & ->).
    split; [split; [done | etrans; [apply delete_subseteq | done]] |].
    split; [apply delete_subseteq |].
    intros fs_fin c Hfin Hlocf Hdf Hxf. exfalso.
    assert (Hfin' : fs_fin ⊆ w_fs w)
      by (etrans; [done | apply delete_subseteq]).
    pose proof (walk_path_mono _ _ _ _ _ _ Hfin' Hlocf) as Hlocw.
    pose proof (is_dir_key_mono _ _ _ Hfin' Hdf) as Hdw.
    pose proof (lookup_weaken _ _ _ _ Hxf Hfin') as Hxw.
    rewrite (locate_entry_at _ _ _ _ Hn Hlocw Hdw Hxw) in Hloc.
    injection Hloc as <-. apply gone_in_sub in Hfin. congruence.
  - split; [done |]. split; [done |].
    intros fs_fin c Hfin Hlocf Hdf Hxf. exfalso.
    pose proof (walk_path_mono _ _ _ _ _ _ Hfin Hlocf) as Hlocw.
    pose proof (is_dir_key_mono _ _ _ Hfin Hdf) as Hdw.
    pose proof (lookup_weaken _ _ _ _ Hxf Hfin) as Hxw.
    by rewrite (fs_unlink_at _ _ _ _ Hn Hlocw Hdw Hxw) in Hun.
Qed.

Lemma children_not_nil (fs : gmap (list string) node) (K : list string)
    (m : string) :
  is_Some (fs !! (K ++ [m])) → children fs K ≠ [].
Proof.
  intros Hm%elem_of_children Hnil. rewrite Hnil in Hm.
  by apply elem_of_nil in Hm.
Qed.

(** A directory that is kept or has an entry is passed over. *)
Lemma dir_step_quiet (dry_run : bool) (names : list string)
    (acc : list Path) (n : string) (w : World) :
  inscope w → valid_name n = true →
  keepD (names ++ [n]) = true
  ∨ (locate (w_fs w) cwd (path_at T (names ++ [n])) = Ok (K0 ++ names ++ [n])
     ∧ is_dir_key (w_fs w) (K0 ++ names ++ [n]) = true
     ∧ children (w_fs w) (K0 ++ names ++ [n]) ≠ []) →
  ∃ cs, dir_step target_dir keep_dirs dry_run (path_at T names) acc n w
        = (Ok acc, add_calls cs w).
Proof.
  intros Hw Hn Hcase. unfold dir_step. rewrite (path_at_join _ _ Hn).
  destruct (should_keep_file_run (path_at T (names ++ [n])) []
              (Some target_dir) keep_dirs w) as (cs & Hrun & _).
  rewrite (bind_ok _ _ _ _ _ Hrun), (inscope_keeps _ _ _ Hw).
  fold (keepD (names ++ [n])).
  destruct (keepD (names ++ [n])) eqn:Hkeep; simpl; [by exists cs |].
  destruct Hcase as [? | (Hloc & Hd & Hch)]; [done |].
  destruct Hw as [Hcwd Hsub].
  unfold remove_if_empty, iterdir, reading. unfold_M. simpl. rewrite Hcwd.
  rewrite (fs_listdir_at _ _ Hloc Hd).
  destruct (children (w_fs w) (K0 ++ names ++ [n])); [done |]. simpl.
  rewrite called_add_calls, add_calls_app. eauto.
Qed.

(** After the directory pass has dealt with the name [n] of a directory,
    a directory of that name that is still there is kept or has an entry,
    as long as nothing is taken out of it later; and nothing but the entry
    [n] itself has been deleted. *)
Lemma dir_step_post (names : list string) (acc : list Path) (n : string)
    (w : World) :
  inscope w → valid_all names → valid_name n = true →
  inscope (dir_step target_dir keep_dirs false (path_at T names) acc n w).2
  ∧ w_fs (dir_step target_dir keep_dirs false (path_at T names) acc n w).2
    ⊆ w_fs w
  ∧ (∀ k, k ≠ K0 ++ names ++ [n] →
       w_fs (dir_step target_dir keep_dirs false (path_at T names) acc n w).2
         !! k = w_fs w !! k)
  ∧ ∀ (fs_fin : gmap (list string) node),
      fs_fin ⊆ w_fs (dir_step target_dir keep_dirs false (path_at T names)
                       acc n w).2 →
      (∀ m, fs_fin !! (K0 ++ names ++ [n] ++ [m])
            = w_fs (dir_step target_dir keep_dirs false (path_at T names)
                      acc n w).2 !! (K0 ++ names ++ [n] ++ [m])) →
      locate fs_fin cwd (path_at T names) = Ok (K0 ++ names) →
      is_dir_key fs_fin (K0 ++ names) = true →
      fs_fin !! (K0 ++ names ++ [n]) = Some Dir →
      keepD (names ++ [n]) = true
      ∨ children fs_fin (K0 ++ names ++ [n]) ≠ [].
Proof.
  intros Hw Hnames Hn. unfold dir_step. rewrite (path_at_join _ _ Hn).
  destruct (should_keep_file_run (path_at T (names ++ [n])) []
              (Some target_dir) keep_dirs w) as (cs & Hrun & _).
  rewrite (bind_ok _ _ _ _ _ Hrun), (inscope_keeps _ _ _ Hw).
  fold (keepD (names ++ [n])).
  destruct (keepD (names ++ [n])) eqn:Hkeep; simpl; [by eauto 10 |].
  destruct Hw as [Hcwd Hsub].
  (* what the state of a later file system says about the one at hand *)
  assert (Hback : ∀ fs_fin : gmap (list string) node,
            fs_fin ⊆ w_fs w →
            locate fs_fin cwd (path_at T names) = Ok (K0 ++ names) →
            is_dir_key fs_fin (K0 ++ names) = true →
            fs_fin !! (K0 ++ names ++ [n]) = Some Dir →
            locate (w_fs w) cwd (path_at T names) = Ok (K0 ++ names)
            ∧ is_dir_key (w_fs w) (K0 ++ names) = true
            ∧ w_fs w !! (K0 ++ names ++ [n]) = Some Dir
            ∧ fs_listdir (w_fs w) cwd (path_at T (names ++ [n]))
              = Ok (children (w_fs w) (K0 ++ names ++ [n]))).
  { intros fs_fin Hfin Hlocf Hdf Hxf.
    pose proof (walk_path_mono _ _ _ _ _ _ Hfin Hlocf : locate _ _ _ = _)
      as Hlocw.
    pose proof (is_dir_key_mono _ _ _ Hfin Hdf) as Hdw.
    pose proof (lookup_weaken _ _ _ _ Hxf Hfin) as Hxw.
    do 3 (split; [done |]). apply fs_listdir_at.
    - by eapply locate_at_child.
    - rewrite app_assoc. apply is_dir_key_Dir. by rewrite <- app_assoc. }
  unfold remove_if_empty, iterdir, reading. unfold_M. simpl. rewrite Hcwd.
  destruct (fs_listdir (w_fs w) cwd (path_at T (names ++ [n])))
    as [entries|e] eqn:Hls; simpl.
  - destruct entries as [|m ms]; simpl.
    + unfold rmdir, writing. simpl. rewrite Hcwd.
      destruct (fs_rmdir (w_fs w) cwd (path_at T (names ++ [n])))
        as [fs'|e] eqn:Hrm; simpl.
      * pose proof Hrm as Hrm'.
        apply fs_rmdir_ok in Hrm' as (k & Hloc & _ & _ & ->).
        rewrite <- (path_at_join _ _ Hn) in Hloc.
        apply (Confinement.locate_entry_child _ _ _ _ _ Hn) in Hloc
          as (k1 & Hk1 & _ & -> & _).
        apply (locate_at _ _ _ Hsub Hnames) in Hk1 as ->.
        rewrite <- (app_assoc K0).
        split; [split; [done | etrans; [apply delete_subseteq | done]] |].
        split; [apply delete_subseteq |].
        split; [intros k Hk; by apply lookup_delete_ne |].
        intros fs_fin Hfin _ _ _ Hxf. exfalso.
        apply gone_in_sub in Hfin. congruence.
      * do 2 (split; [done |]). split; [done |].
        intros fs_fin Hfin _ Hlocf Hdf Hxf. exfalso.
        destruct (Hback fs_fin Hfin Hlocf Hdf Hxf) as (Hlocw & Hdw & Hxw & Hlsw).
        injection Hlsw as Hch. symmetry in Hch.
        by rewrite (fs_rmdir_at _ _ _ Hn Hlocw Hdw Hxw Hch) in Hrm.
    + do 2 (split; [done |]). split; [done |].
      intros fs_fin Hfin Hframe Hlocf Hdf Hxf. right.
      destruct (Hback fs_fin Hfin Hlocf Hdf Hxf) as (Hlocw & Hdw & Hxw & Hlsw).
      injection Hlsw as Hch.
      assert (Hm : m ∈ children (w_fs w) (K0 ++ names ++ [n]))
        by (rewrite <- Hch; left).
      apply elem_of_children in Hm.
      apply (children_not_nil _ _ m).
      assert (Heq : (K0 ++ names ++ [n]) ++ [m] = K0 ++ names ++ [n; m])
        by by rewrite <- !app_assoc.
      rewrite Heq in *. by rewrite Hframe.
  - do 2 (split; [done |]). split; [done |].
    intros fs_fin Hfin _ Hlocf Hdf Hxf. exfalso.
    by destruct (Hback fs_fin Hfin Hlocf Hdf Hxf) as (_ & _ & _ & Hlsw).
Qed.

Lemma succeeds_should_keep_file (p : Path) (kf kd : list string)
    (t : option string) :
  succeeds (should_keep_file p kf kd t).
Proof.
  intros w. destruct (should_keep_file_run p kf t kd w) as (cs & -> & _).
  eauto.
Qed.

Lemma succeeds_file_step (dry_run : bool) (root : Path) (acc : list Path)
    (file : string) :
  succeeds (file_step target_dir keep_files keep_dirs dry_run root acc file).
Proof.
  unfold file_step. apply succeeds_bind; [apply succeeds_should_keep_file |].
  intros keep. apply succeeds_if; [| apply succeeds_ret].
  apply succeeds_if.
  - apply succeeds_bind; [apply succeeds_print | intros; apply succeeds_ret].
  - apply succeeds_try. intros e.
    apply succeeds_bind; [apply succeeds_print | intros; apply succeeds_ret].
Qed.

Lemma succeeds_dir_step (dry_run : bool) (root : Path) (acc : list Path)
    (dir_name : string) :
  succeeds (dir_step target_dir keep_dirs dry_run root acc dir_name).
Proof.
  unfold dir_step. apply succeeds_bind; [apply succeeds_should_keep_file |].
  intros keep. apply succeeds_if; [| apply succeeds_ret].
  apply succeeds_try. intros e.
  apply succeeds_bind; [apply succeeds_print | intros; apply succeeds_ret].
Qed.

(** The first step of the walk in a directory: reading it. *)
Lemma read_dir_run (top : Path) (w : World) :
  try_except (l ← scandir top; mret (Some l)) (λ _, mret None) w
  = (Ok match fs_scandir (w_fs w) (w_cwd w) top with
        | Ok l => Some l
        | Raise _ => None
        end,
     called (SysScandir top) w).
Proof.
  unfold scandir, reading. unfold_M.
  by destruct (fs_scandir (w_fs w) (w_cwd w) top).
Qed.

Lemma walk_from_S {A} (depth : nat) (top : Path)
    (body : A → Path → list string → list string → M A) (acc : A) :
  walk_from (S depth) top body acc
  = (read ← try_except (l ← scandir top; mret (Some l)) (λ _, mret None);
     match read with
     | None => mret acc
     | Some l =>
         acc' ← for_each (walk_dirs l)
                  (λ (acc : A) (n : string),
                     walk_from depth (joinpath top (parse n)) body acc)
                  acc;
         body acc' top (dirs l) (nondirs l)
     end).
Proof. done. Qed.

Lemma height_le_sub (Hs : nat) (fs fs' : gmap (list string) node) :
  fs ⊆ fs' → height_le Hs fs' → height_le Hs fs.
Proof.
  intros Hsub Hh k [x Hx]. apply Hh. exists x. by eapply lookup_weaken.
Qed.

Lemma files_settled_later (names : list string) (w w' : World) :
  w_fs w' ⊆ w_fs w → files_settled names w → files_settled names w'.
Proof.
  intros Hsub Hset fs_fin Hfin. apply Hset. by etrans.
Qed.

(** A directory is settled when its own regular files and its
    sub-directories are. *)
Lemma files_ok_cons (fs : gmap (list string) node) (names : list string) :
  (is_dir_key fs (K0 ++ names) = true →
   (∀ n c, fs !! (K0 ++ names ++ [n]) = Some (File c) →
           keepF (names ++ [n]) = true)
   ∧ (∀ m, fs !! (K0 ++ names ++ [m]) = Some Dir →
           files_ok fs (names ++ [m]))) →
  files_ok fs names.
Proof.
  intros Hparts rel n c Hreach Hx.
  destruct (Hparts (reach_here _ _ _ Hreach)) as [Hfiles Hsubs].
  destruct rel as [|m rel]; [by eapply Hfiles |].
  assert (Hm : fs !! (K0 ++ names ++ [m]) = Some Dir).
  { rewrite app_assoc. apply is_dir_key_Dir.
    by apply (Hreach 1); simpl; lia. }
  specialize (Hsubs m Hm rel n c).
  rewrite <- !app_assoc in Hsubs. simpl in Hsubs. apply Hsubs; [| done].
  rewrite (app_assoc K0). by apply reach_tail.
Qed.

Lemma valid_all_snoc (names : list string) (n : string) :
  valid_all names → valid_name n = true → valid_all (names ++ [n]).
Proof. intros Hnames Hn. apply Forall_app. by repeat constructor. Qed.

(** The file pass settles the regular files of every directory it walks
    through. *)
Lemma pass1_walk (Hs : nat) (d : nat) :
  ∀ (names : list string) (acc : list Path) (w : World),
    inscope w → valid_all names → height_le Hs (w_fs w) →
    (Hs < d + length (K0 ++ names))%nat →
    inscope (walk_from d (path_at T names)
               (file_pass target_dir keep_files keep_dirs false) acc w).2
    ∧ w_fs (walk_from d (path_at T names)
              (file_pass target_dir keep_files keep_dirs false) acc w).2
      ⊆ w_fs w
    ∧ files_settled names
        (walk_from d (path_at T names)
           (file_pass target_dir keep_files keep_dirs false) acc w).2.
Proof.
  induction d as [|d IH]; intros names acc w Hw Hnames Hh Hfuel.
  { simpl. do 2 (split; [done |]).
    intros fs_fin Hfin _ rel n c _ Hx. exfalso.
    pose proof (lookup_weaken _ _ _ _ Hx Hfin) as Hxw.
    specialize (Hh _ (mk_is_Some _ _ Hxw)).
    rewrite !length_app in *. simpl in *. lia. }
  rewrite walk_from_S, (bind_ok _ _ _ _ _ (read_dir_run _ _)).
  pose proof Hw as [Hcwd Hsub]. rewrite Hcwd.
  set (w1 := called (SysScandir (path_at T names)) w).
  destruct (fs_scandir (w_fs w) cwd (path_at T names)) as [l|e] eqn:Hscan.
  2:{ do 2 (split; [done |]).
      intros fs_fin Hfin Hloc rel n c Hreach _. exfalso. simpl in Hfin.
      pose proof (walk_path_mono _ _ _ _ _ _ Hfin Hloc : locate _ _ _ = _)
        as Hlocw.
      pose proof (fs_scandir_fails _ _ _ _ _ Hscan Hlocw) as Hnd.
      pose proof (is_dir_key_mono _ _ _ Hfin (reach_here _ _ _ Hreach)).
      congruence. }
  assert (Hnlw : no_links (w_fs w)) by by eapply no_links_weaken.
  assert (Hvw : valid_names (w_fs w)) by by eapply valid_names_weaken.
  destruct (fs_scandir_plain _ _ _ _ Hnlw Hvw Hscan)
    as (K & HlocK & HdK & _ & Hnd_f & Hnd_w & _ & Hwalk & Hfiles).
  pose proof (locate_at _ _ _ Hsub Hnames HlocK) as ->.
  (* the sub-directories *)
  set (I := λ w' : World, inscope w' ∧ w_fs w' ⊆ w_fs w).
  set (loop1 := for_each (walk_dirs l)
                  (λ (acc : list Path) (n : string),
                     walk_from d (joinpath (path_at T names) (parse n))
                       (file_pass target_dir keep_files keep_dirs false) acc)).
  assert (Hloop1 : I (loop1 acc w1).2
                   ∧ ∀ m, m ∈ walk_dirs l →
                       files_settled (names ++ [m]) (loop1 acc w1).2).
  { apply (for_each_post I (λ m w', files_settled (names ++ [m]) w'));
      [done | | | done].
    - intros a m w' Hm [Hw' Hsub'].
      assert (Hvm : valid_name m = true).
      { apply (valid_names_entry (w_fs w) (K0 ++ names) m Hvw).
        rewrite (proj1 (Hwalk m) Hm). eauto. }
      rewrite (path_at_join _ _ Hvm).
      destruct (IH (names ++ [m]) a w' Hw' (valid_all_snoc _ _ Hnames Hvm))
        as (Hw'' & Hsub'' & Hset).
      + by eapply height_le_sub.
      + rewrite !length_app in *. simpl. lia.
      + split; [split; [done | by etrans] |]. split; [done |].
        intros x _. by apply files_settled_later.
    - intros a m. apply succeeds_walk_from.
      intros a' root ds fs. apply succeeds_for_each.
      intros a'' x. apply succeeds_file_step. }
  destruct Hloop1 as [[Hw2 Hsub2] Hsubs].
  assert (Hok1 : succeeds (loop1 acc)).
  { apply succeeds_for_each. intros a m. apply succeeds_walk_from.
    intros a' root ds fs. apply succeeds_for_each.
    intros a'' x. apply succeeds_file_step. }
  destruct (Hok1 w1) as [acc1 Hacc1].
  destruct (loop1 acc w1) as [r1 w2] eqn:Hrun1. simpl in *. subst r1.
  rewrite (bind_ok _ _ _ _ _ Hrun1).
  (* the regular files *)
  unfold file_pass at 1.
  set (P := λ (n : string) (w' : World),
         ∀ (fs_fin : gmap (list string) node) c,
           fs_fin ⊆ w_fs w' →
           locate fs_fin cwd (path_at T names) = Ok (K0 ++ names) →
           is_dir_key fs_fin (K0 ++ names) = true →
           fs_fin !! (K0 ++ names ++ [n]) = Some (File c) →
           keepF (names ++ [n]) = true).
  set (I2 := λ w' : World, inscope w' ∧ w_fs w' ⊆ w_fs w2).
  set (loop2 := for_each (nondirs l)
                  (file_step target_dir keep_files keep_dirs false
                     (path_at T names))).
  assert (Hloop2 : I2 (loop2 acc1 w2).2
                   ∧ ∀ n, n ∈ nondirs l → P n (loop2 acc1 w2).2).
  { apply (for_each_post I2 P); [done | | | done].
    - intros a n w' Hn [Hw' Hsub'].
      assert (Hvn : valid_name n = true).
      { destruct (proj1 (Hfiles n) Hn) as [c Hc].
        apply (valid_names_entry (w_fs w) (K0 ++ names) n Hvw).
        rewrite Hc. eauto. }
      destruct (file_step_post names a n w' Hw' Hnames Hvn)
        as (Hw'' & Hsub'' & Hpost).
      split; [split; [done | by etrans] |]. split; [exact Hpost |].
      intros x _ Hx fs_fin c Hfin. apply Hx. by etrans.
    - intros a n. apply succeeds_file_step. }
  destruct Hloop2 as [[Hw3 Hsub3] Hfs].
  split; [done |]. split; [by etrans |].
  (* what has been settled *)
  intros fs_fin Hfin Hloc. apply files_ok_cons. intros Hd.
  assert (Hfinw : fs_fin ⊆ w_fs w) by (etrans; [done | by etrans]).
  split.
  - intros n c Hx. pose proof (lookup_weaken _ _ _ _ Hx Hfinw) as Hxw.
    rewrite app_assoc in Hxw.
    apply (Hfs n (proj2 (Hfiles n) (ex_intro _ c Hxw)) fs_fin c); done.
  - intros m Hm. pose proof (lookup_weaken _ _ _ _ Hm Hfinw) as Hmw.
    rewrite app_assoc in Hmw.
    pose proof (proj2 (Hwalk m) Hmw) as Hin.
    assert (Hvm : valid_name m = true).
    { apply (valid_names_entry (w_fs w) (K0 ++ names) m Hvw).
      rewrite Hmw. eauto. }
    apply (Hsubs m Hin fs_fin); [etrans; [exact Hfin | exact Hsub3] |].
    apply (locate_at_child _ _ _ Dir); try done. by etrans.
Qed.

Lemma below_child (K : list string) (n : string) (k : list string) :
  below (K ++ [n]) k → below K k.
Proof.
  intros (rest & Hne & ->). exists (n :: rest).
  split; [done | by rewrite <- app_assoc].
Qed.

Lemma below_other (K : list string) (x y : string) (k : list string) :
  x ≠ y → below (K ++ [x]) k → ¬ below (K ++ [y]) k.
Proof.
  intros Hxy (rest & _ & ->) (rest' & _ & Heq).
  rewrite <- !app_assoc in Heq. apply app_inv_head in Heq.
  simpl in Heq. by injection Heq.
Qed.

Lemma below_not_entry (K : list string) (n m : string) (k : list string) :
  below (K ++ [n]) k → k ≠ K ++ [m].
Proof.
  intros (rest & Hne & ->) Heq. apply (f_equal length) in Heq.
  rewrite !length_app in Heq. simpl in Heq. destruct rest; [done |].
  simpl in Heq. lia.
Qed.

Lemma entry_not_below (K : list string) (n : string) :
  ¬ below (K ++ [n]) (K ++ [n]).
Proof.
  intros (rest & Hne & Heq). apply (f_equal length) in Heq.
  rewrite !length_app in Heq. destruct rest; [done |]. simpl in Heq. lia.
Qed.

Lemma dirs_ok_cons (fs : gmap (list string) node) (names : list string) :
  (is_dir_key fs (K0 ++ names) = true →
   ∀ n, fs !! (K0 ++ names ++ [n]) = Some Dir →
        (keepD (names ++ [n]) = true
         ∨ children fs (K0 ++ names ++ [n]) ≠ [])
        ∧ dirs_ok fs (names ++ [n])) →
  dirs_ok fs names.
Proof.
  intros Hparts rel n Hreach Hx.
  specialize (Hparts (reach_here _ _ _ Hreach)).
  destruct rel as [|m rel]; [by apply Hparts |].
  assert (Hm : fs !! (K0 ++ names ++ [m]) = Some Dir).
  { rewrite app_assoc. apply is_dir_key_Dir.
    by apply (Hreach 1); simpl; lia. }
  destruct (Hparts m Hm) as [_ Hsubs]. specialize (Hsubs rel n).
  rewrite <- !app_assoc in Hsubs. simpl in Hsubs. apply Hsubs; [| done].
  rewrite (app_assoc K0). by apply reach_tail.
Qed.

(** The directory pass settles the directories below every directory it
    walks through, and deletes nothing outside of it. *)
Lemma pass2_walk (Hs : nat) (d : nat) :
  ∀ (names : list string) (acc : list Path) (w : World),
    inscope w → valid_all names → height_le Hs (w_fs w) →
    (Hs < d + length (K0 ++ names))%nat →
    inscope (walk_from d (path_at T names)
               (dir_pass target_dir keep_dirs false) acc w).2
    ∧ w_fs (walk_from d (path_at T names)
              (dir_pass target_dir keep_dirs false) acc w).2
      ⊆ w_fs w
    ∧ (∀ k, ¬ below (K0 ++ names) k →
         w_fs (walk_from d (path_at T names)
                 (dir_pass target_dir keep_dirs false) acc w).2 !! k
         = w_fs w !! k)
    ∧ dirs_settled names
        (walk_from d (path_at T names)
           (dir_pass target_dir keep_dirs false) acc w).2.
Proof.
  induction d as [|d IH]; intros names acc w Hw Hnames Hh Hfuel.
  { simpl. do 3 (split; [done |]).
    intros fs_fin Hfin _ _ rel n _ Hx. exfalso.
    pose proof (lookup_weaken _ _ _ _ Hx Hfin) as Hxw.
    specialize (Hh _ (mk_is_Some _ _ Hxw)).
    rewrite !length_app in *. simpl in *. lia. }
  rewrite walk_from_S, (bind_ok _ _ _ _ _ (read_dir_run _ _)).
  pose proof Hw as [Hcwd Hsub]. rewrite Hcwd.
  set (w1 := called (SysScandir (path_at T names)) w).
  destruct (fs_scandir (w_fs w) cwd (path_at T names)) as [l|e] eqn:Hscan.
  2:{ do 3 (split; [done |]).
      intros fs_fin Hfin _ Hloc rel n Hreach _. exfalso. simpl in Hfin.
      pose proof (walk_path_mono _ _ _ _ _ _ Hfin Hloc : locate _ _ _ = _)
        as Hlocw.
      pose proof (fs_scandir_fails _ _ _ _ _ Hscan Hlocw) as Hnd.
      pose proof (is_dir_key_mono _ _ _ Hfin (reach_here _ _ _ Hreach)).
      congruence. }
  assert (Hnlw : no_links (w_fs w)) by by eapply no_links_weaken.
  assert (Hvw : valid_names (w_fs w)) by by eapply valid_names_weaken.
  destruct (fs_scandir_plain _ _ _ _ Hnlw Hvw Hscan)
    as (K & HlocK & HdK & Hnd_d & _ & Hnd_w & Hdirs & Hwalk & _).
  pose proof (locate_at _ _ _ Hsub Hnames HlocK) as ->.
  assert (Hvalid : ∀ m, w_fs w !! ((K0 ++ names) ++ [m]) = Some Dir →
                        valid_name m = true).
  { intros m Hm. apply (valid_names_entry (w_fs w) (K0 ++ names) m Hvw).
    rewrite Hm. eauto. }
  (* the sub-directories *)
  set (I := λ w' : World,
         inscope w' ∧ w_fs w' ⊆ w_fs w
         ∧ ∀ k, ¬ below (K0 ++ names) k →
             w_fs w' !! k = w_fs w !! k).
  set (loop1 := for_each (walk_dirs l)
                  (λ (acc : list Path) (n : string),
                     walk_from d (joinpath (path_at T names) (parse n))
                       (dir_pass target_dir keep_dirs false) acc)).
  assert (Hloop1 : I (loop1 acc w1).2
                   ∧ ∀ m, m ∈ walk_dirs l →
                       dirs_settled (names ++ [m]) (loop1 acc w1).2).
  { apply (for_each_post I (λ m w', dirs_settled (names ++ [m]) w'));
      [done | | | done].
    - intros a m w' Hm (Hw' & Hsub' & Hframe').
      pose proof (Hvalid m (proj1 (Hwalk m) Hm)) as Hvm.
      rewrite (path_at_join _ _ Hvm).
      destruct (IH (names ++ [m]) a w' Hw' (valid_all_snoc _ _ Hnames Hvm))
        as (Hw'' & Hsub'' & Hframe'' & Hset).
      + by eapply height_le_sub.
      + rewrite !length_app in *. simpl. lia.
      + rewrite app_assoc in Hframe''.
        split; [| split; [done |]].
        * split; [done |]. split; [by etrans |].
          intros k Hk. rewrite Hframe''; [by apply Hframe' |].
          intros Hk'. by apply Hk, (below_child _ m).
        * intros x Hxm Hx fs_fin Hfin Hfr. rewrite app_assoc in Hfr.
          apply Hx; [by etrans |]. rewrite app_assoc.
          intros k Hk. rewrite (Hfr k Hk). apply Hframe''.
          by apply (below_other _ x m).
    - intros a m. apply succeeds_walk_from.
      intros a' root ds fs. apply succeeds_for_each.
      intros a'' x. apply succeeds_dir_step. }
  destruct Hloop1 as [(Hw2 & Hsub2 & Hframe2) Hsubs].
  assert (Hok1 : succeeds (loop1 acc)).
  { apply succeeds_for_each. intros a m. apply succeeds_walk_from.
    intros a' root ds fs. apply succeeds_for_each.
    intros a'' x. apply succeeds_dir_step. }
  destruct (Hok1 w1) as [acc1 Hacc1].
  destruct (loop1 acc w1) as [r1 w2] eqn:Hrun1. simpl in *. subst r1.
  rewrite (bind_ok _ _ _ _ _ Hrun1).
  (* the directories of this directory *)
  unfold dir_pass at 1.
  set (P := λ (n : string) (w' : World),
         ∀ (fs_fin : gmap (list string) node),
           fs_fin ⊆ w_fs w' →
           (∀ m, fs_fin !! (K0 ++ names ++ [n] ++ [m])
                 = w_fs w' !! (K0 ++ names ++ [n] ++ [m])) →
           locate fs_fin cwd (path_at T names) = Ok (K0 ++ names) →
           is_dir_key fs_fin (K0 ++ names) = true →
           fs_fin !! (K0 ++ names ++ [n]) = Some Dir →
           keepD (names ++ [n]) = true
           ∨ children fs_fin (K0 ++ names ++ [n]) ≠ []).
  set (I2 := λ w' : World,
         inscope w' ∧ w_fs w' ⊆ w_fs w2
         ∧ ∀ k, (∀ n, k ≠ K0 ++ names ++ [n]) → w_fs w' !! k = w_fs w2 !! k).
  set (loop2 := for_each (dirs l)
                  (dir_step target_dir keep_dirs false (path_at T names))).
  assert (Hloop2 : I2 (loop2 acc1 w2).2
                   ∧ ∀ n, n ∈ dirs l → P n (loop2 acc1 w2).2).
  { apply (for_each_post I2 P); [done | | | done].
    - intros a n w' Hn (Hw' & Hsub' & Hframe').
      pose proof (Hvalid n (proj1 (Hdirs n) Hn)) as Hvn.
      destruct (dir_step_post names a n w' Hw' Hnames Hvn)
        as (Hw'' & Hsub'' & Hframe'' & Hpost).
      split; [| split; [exact Hpost |]].
      + split; [done |]. split; [by etrans |].
        intros k Hk. rewrite Hframe''; [by apply Hframe' | apply Hk].
      + intros x _ Hx fs_fin Hfin Hfr. apply Hx; [by etrans |].
        intros m. rewrite Hfr. apply Hframe''.
        intros Heq. apply (f_equal length) in Heq.
        rewrite !length_app in Heq. simpl in Heq. lia.
    - intros a n. apply succeeds_dir_step. }
  destruct Hloop2 as [(Hw3 & Hsub3 & Hframe3) Hds].
  split; [done |]. split; [by etrans |]. split.
  { intros k Hk. rewrite Hframe3; [by apply Hframe2 |].
    intros n ->. apply Hk. exists [n].
    split; [done | by rewrite <- app_assoc]. }
  (* what has been settled *)
  intros fs_fin Hfin Hfr Hloc. apply dirs_ok_cons. intros Hd n Hn.
  assert (Hfinw : fs_fin ⊆ w_fs w) by (etrans; [done | by etrans]).
  pose proof (lookup_weaken _ _ _ _ Hn Hfinw) as Hnw.
  rewrite app_assoc in Hnw.
  pose proof (Hvalid n Hnw) as Hvn.
  split.
  - apply (Hds n (proj2 (Hdirs n) Hnw) fs_fin); try done.
    intros m. apply Hfr. exists ([n] ++ [m]).
    split; [done | by rewrite <- app_assoc].
  - apply (Hsubs n (proj2 (Hwalk n) Hnw) fs_fin).
    + etrans; [exact Hfin | exact Hsub3].
    + intros k Hk. rewrite app_assoc in Hk.
      rewrite (Hfr k (below_child _ _ _ Hk)). apply Hframe3.
      intros m. rewrite app_assoc. by apply (below_not_entry _ n).
    + apply (locate_at_child _ _ _ Dir); try done. by etrans.
Qed.

(** ** A settled tree is left alone *)

Section Settled.

Context (fs1 : gmap (list string) node).
Hypothesis Hsub1 : fs1 ⊆ fs0.

Local Abbreviation holds := (holds cwd fs1).

Lemma holds_inscope (w : World) : holds w → inscope w.
Proof. intros [Hcwd Hfs]. split; [done | by rewrite Hfs]. Qed.

Lemma holds_add_calls (cs : list (gmap (list string) node * syscall))
    (w : World) :
  holds w → holds (add_calls cs w).
Proof. done. Qed.

Lemma walk_files_quiet (dry_run : bool) (d : nat) :
  files_ok fs1 [] →
  ∀ (names : list string) (acc : list Path) (w : World),
    holds w → valid_all names →
    (is_dir_key fs1 (K0 ++ names) = true → reach fs1 K0 names) →
    ∃ cs, walk_from d (path_at T names)
            (file_pass target_dir keep_files keep_dirs dry_run) acc w
          = (Ok acc, add_calls cs w).
Proof.
  intros Hok. induction d as [|d IH]; intros names acc w Hw Hnames Hreach.
  { exists []. by rewrite add_calls_nil. }
  rewrite walk_from_S, (bind_ok _ _ _ _ _ (read_dir_run _ _)).
  pose proof Hw as [Hcwd Hfs]. rewrite called_add_calls, Hcwd, Hfs.
  destruct (fs_scandir fs1 cwd (path_at T names)) as [l|e] eqn:Hscan;
    [| by eauto].
  assert (Hnl1 : no_links fs1) by by eapply no_links_weaken.
  assert (Hv1 : valid_names fs1) by by eapply valid_names_weaken.
  destruct (fs_scandir_plain _ _ _ _ Hnl1 Hv1 Hscan)
    as (K & HlocK & HdK & _ & _ & _ & _ & Hwalk & Hfiles).
  pose proof (locate_at _ _ _ Hsub1 Hnames HlocK) as ->.
  specialize (Hreach HdK).
  assert (Hvalid : ∀ m x, fs1 !! ((K0 ++ names) ++ [m]) = Some x →
                          valid_name m = true).
  { intros m x Hm. apply (valid_names_entry fs1 (K0 ++ names) m Hv1).
    rewrite Hm. eauto. }
  destruct (for_each_quiet holds
              (λ (acc : list Path) (n : string),
                 walk_from d (joinpath (path_at T names) (parse n))
                   (file_pass target_dir keep_files keep_dirs dry_run) acc)
              (walk_dirs l) holds_add_calls) with (acc := acc)
    (w := add_calls [(fs1, SysScandir (path_at T names))] w)
    as [cs1 Hrun1]; [| by apply holds_add_calls |].
  { intros a m w' Hm Hw'.
    pose proof (proj1 (Hwalk m) Hm) as Hmd.
    pose proof (Hvalid m _ Hmd) as Hvm.
    rewrite (path_at_join _ _ Hvm).
    apply IH; [done | by apply valid_all_snoc |].
    intros _. apply reach_snoc; [done |].
    rewrite app_assoc. by apply is_dir_key_Dir. }
  rewrite (bind_ok _ _ _ _ _ Hrun1). unfold file_pass.
  destruct (for_each_quiet holds
              (file_step target_dir keep_files keep_dirs dry_run
                 (path_at T names))
              (nondirs l) holds_add_calls) with (acc := acc)
    (w := add_calls cs1 (add_calls [(fs1, SysScandir (path_at T names))] w))
    as [cs2 Hrun2]; [| by do 2 apply holds_add_calls |].
  { intros a n w' Hn Hw'. destruct (proj1 (Hfiles n) Hn) as [c Hc].
    apply file_step_quiet;
      [by apply holds_inscope | by eapply Hvalid |].
    apply (Hok names n c); rewrite ?app_nil_r; simpl; [done |].
    by rewrite app_assoc. }
  rewrite Hrun2, !add_calls_app. eauto.
Qed.

Lemma walk_dirs_quiet (dry_run : bool) (d : nat) :
  dirs_ok fs1 [] →
  ∀ (names : list string) (acc : list Path) (w : World),
    holds w → valid_all names →
    (is_dir_key fs1 (K0 ++ names) = true → reach fs1 K0 names) →
    ∃ cs, walk_from d (path_at T names)
            (dir_pass target_dir keep_dirs dry_run) acc w
          = (Ok acc, add_calls cs w).
Proof.
  intros Hok. induction d as [|d IH]; intros names acc w Hw Hnames Hreach.
  { exists []. by rewrite add_calls_nil. }
  rewrite walk_from_S, (bind_ok _ _ _ _ _ (read_dir_run _ _)).
  pose proof Hw as [Hcwd Hfs]. rewrite called_add_calls, Hcwd, Hfs.
  destruct (fs_scandir fs1 cwd (path_at T names)) as [l|e] eqn:Hscan;
    [| by eauto].
  assert (Hnl1 : no_links fs1) by by eapply no_links_weaken.
  assert (Hv1 : valid_names fs1) by by eapply valid_names_weaken.
  destruct (fs_scandir_plain _ _ _ _ Hnl1 Hv1 Hscan)
    as (K & HlocK & HdK & _ & _ & _ & Hdirs & Hwalk & _).
  pose proof (locate_at _ _ _ Hsub1 Hnames HlocK) as ->.
  specialize (Hreach HdK).
  assert (Hvalid : ∀ m x, fs1 !! ((K0 ++ names) ++ [m]) = Some x →
                          valid_name m = true).
  { intros m x Hm. apply (valid_names_entry fs1 (K0 ++ names) m Hv1).
    rewrite Hm. eauto. }
  destruct (for_each_quiet holds
              (λ (acc : list Path) (n : string),
                 walk_from d (joinpath (path_at T names) (parse n))
                   (dir_pass target_dir keep_dirs dry_run) acc)
              (walk_dirs l) holds_add_calls) with (acc := acc)
    (w := add_calls [(fs1, SysScandir (path_at T names))] w)
    as [cs1 Hrun1]; [| by apply holds_add_calls |].
  { intros a m w' Hm Hw'.
    pose proof (proj1 (Hwalk m) Hm) as Hmd.
    pose proof (Hvalid m _ Hmd) as Hvm.
    rewrite (path_at_join _ _ Hvm).
    apply IH; [done | by apply valid_all_snoc |].
    intros _. apply reach_snoc; [done |].
    rewrite app_assoc. by apply is_dir_key_Dir. }
  rewrite (bind_ok _ _ _ _ _ Hrun1). unfold dir_pass.
  destruct (for_each_quiet holds
              (dir_step target_dir keep_dirs dry_run (path_at T names))
              (dirs l) holds_add_calls) with (acc := acc)
    (w := add_calls cs1 (add_calls [(fs1, SysScandir (path_at T names))] w))
    as [cs2 Hrun2]; [| by do 2 apply holds_add_calls |].
  { intros a n w' Hn Hw'. pose proof (proj1 (Hdirs n) Hn) as Hnd.
    pose proof (Hvalid n _ Hnd) as Hvn. destruct Hw' as [Hcwd' Hfs'].
    apply dir_step_quiet; [by apply holds_inscope | done |].
    rewrite Hfs'. rewrite <- app_assoc in Hnd.
    destruct (Hok names n) as [Hkeep | Hch];
      rewrite ?app_nil_r; simpl in *; [done | done | by left |].
    right. split; [by apply (locate_at_child _ _ _ Dir) |].
    split; [| done]. rewrite app_assoc. apply is_dir_key_Dir.
    by rewrite <- app_assoc. }
  rewrite Hrun2, !add_calls_app. eauto.
Qed.

End Settled.

Lemma path_at_nil : path_at T [] = T.
Proof. unfold path_at. rewrite app_nil_r. by destruct T. Qed.

Lemma height_le_fs_height (fs : gmap (list string) node) :
  height_le (fs_height fs) fs.
Proof.
  intros k [x Hx]. unfold fs_height. apply max_list_elem_of_le.
  apply list_elem_of_fmap. exists (k, x). split; [done |].
  by apply elem_of_map_to_list.
Qed.

(** The two passes of a run that deletes leave a settled tree. *)
Lemma run_settles (w : World) :
  inscope w → target_dir ≠ "" →
  ∃ (files dirs : list Path) (wb wc : World),
    os_walk target_dir (file_pass target_dir keep_files keep_dirs false) [] w
    = (Ok files, wb)
    ∧ os_walk target_dir (dir_pass target_dir keep_dirs false) [] wb
      = (Ok dirs, wc)
    ∧ inscope wc
    ∧ (locate (w_fs wc) cwd T = Ok K0 →
       files_ok (w_fs wc) [] ∧ dirs_ok (w_fs wc) []).
Proof.
  intros Hw Hne. unfold os_walk. destruct (decide (target_dir = "")); [done |].
  rewrite Hparse.
  destruct (pass1_walk (fs_height (w_fs w)) (S (fs_height (w_fs w))) [] [] w)
    as (Hwb & Hsubb & Hfiles);
    [done | done | apply height_le_fs_height | lia |].
  destruct (succeeds_walk_from (S (fs_height (w_fs w))) (path_at T [])
              (file_pass target_dir keep_files keep_dirs false) []
              (λ a root ds fs, succeeds_for_each fs _ a
                 (succeeds_file_step false root)) w) as [files Hfiles_ok].
  destruct (walk_from _ (path_at T []) _ _ w) as [r wb] eqn:Hrun1.
  cbn [fst snd] in Hfiles_ok, Hwb, Hsubb, Hfiles. subst r.
  destruct (pass2_walk (fs_height (w_fs wb)) (S (fs_height (w_fs wb))) [] [] wb)
    as (Hwc & Hsubc & _ & Hdirs);
    [done | done | apply height_le_fs_height | lia |].
  destruct (succeeds_walk_from (S (fs_height (w_fs wb))) (path_at T [])
              (dir_pass target_dir keep_dirs false) []
              (λ a root ds fs, succeeds_for_each ds _ a
                 (succeeds_dir_step false root)) wb) as [dirs Hdirs_ok].
  destruct (walk_from _ (path_at T []) _ _ wb) as [r wc] eqn:Hrun2.
  cbn [fst snd] in Hdirs_ok, Hwc, Hsubc, Hdirs. subst r.
  rewrite path_at_nil in Hrun1, Hrun2.
  exists files, dirs, wb, wc. do 3 (split; [done |]).
  intros Hloc. rewrite <- path_at_nil, <- (app_nil_r K0) in Hloc. split.
  - by apply (Hfiles (w_fs wc)).
  - by apply (Hdirs (w_fs wc)).
Qed.

(** On a settled tree the two passes do nothing but read. *)
Lemma run_quiet (dry_run : bool) (w : World) :
  inscope w →
  (locate (w_fs w) cwd T = Ok K0 → files_ok (w_fs w) [] ∧ dirs_ok (w_fs w) []) →
  fs_exists (w_fs w) cwd T = true →
  ∃ cs1 cs2,
    os_walk target_dir (file_pass target_dir keep_files keep_dirs dry_run) [] w
    = (Ok [], add_calls cs1 w)
    ∧ os_walk target_dir (dir_pass target_dir keep_dirs dry_run) []
        (add_calls cs1 w)
      = (Ok [], add_calls cs2 (add_calls cs1 w)).
Proof.
  intros [Hcwd Hsub] Hok Hex. unfold os_walk.
  destruct (decide (target_dir = "")).
  { exists [], []. by rewrite !add_calls_nil. }
  unfold fs_exists in Hex.
  destruct (locate (w_fs w) cwd T) as [k|] eqn:Hloc; [| done].
  assert (k = K0) as ->.
  { pose proof (walk_path_mono _ _ _ _ _ _ Hsub Hloc : locate _ _ _ = _).
    congruence. }
  destruct (Hok eq_refl) as [Hfiles Hdirs].
  rewrite Hparse, <- path_at_nil.
  assert (Hreach : is_dir_key (w_fs w) (K0 ++ []) = true →
                   reach (w_fs w) K0 []).
  { rewrite app_nil_r. apply reach_nil. }
  destruct (walk_files_quiet (w_fs w) Hsub dry_run (S (fs_height (w_fs w)))
              Hfiles [] [] w) as [cs1 Hrun1]; [done | done | done |].
  exists cs1. rewrite Hrun1.
  destruct (walk_dirs_quiet (w_fs w) Hsub dry_run
              (S (fs_height (w_fs (add_calls cs1 w))))
              Hdirs [] [] (add_calls cs1 w)) as [cs2 Hrun2];
    [done | done | done |].
  exists cs2. by rewrite Hrun2.
Qed.

End Setting.

(** A run that finds its target, in terms of its two passes. *)
Lemma delete_files_except_present (target_dir : string)
    (keep_files keep_dirs : option (list string)) (dry_run : bool)
    (w wb wc : World) (files dirs : list Path) :
  fs_exists (w_fs w) (w_cwd w) (parse target_dir) = true →
  os_walk target_dir
    (file_pass target_dir (default [] keep_files) (default [] keep_dirs)
       dry_run) [] (called (SysExists (parse target_dir)) w)
  = (Ok files, wb) →
  os_walk target_dir (dir_pass target_dir (default [] keep_dirs) dry_run) [] wb
  = (Ok dirs, wc) →
  delete_files_except target_dir keep_files keep_dirs dry_run w
  = (Ok tt, printed (MsgSummary (length files) (length dirs)) wc).
Proof.
  intros Hex Hrun1 Hrun2. unfold delete_files_except, path_exists, reading.
  unfold mbind at 1, M_bind, bind at 1. rewrite Hex. simpl.
  by rewrite (bind_ok _ _ _ _ _ Hrun1), (bind_ok _ _ _ _ _ Hrun2).
Qed.

Lemma delete_files_except_absent (target_dir : string)
    (keep_files keep_dirs : option (list string)) (dry_run : bool) (w : World) :
  fs_exists (w_fs w) (w_cwd w) (parse target_dir) = false →
  delete_files_except target_dir keep_files keep_dirs dry_run w
  = (Ok tt,
     printed (MsgTargetMissing target_dir)
       (called (SysExists (parse target_dir)) w)).
Proof.
  intros Hex. unfold delete_files_except, path_exists, reading.
  unfold mbind at 1, M_bind, bind at 1. by rewrite Hex.
Qed.



End Idempotence.

(* ===================================================================== *)
(** * The scenarios of the specification *)
(* ===================================================================== *)

Module ScenarioClaims.

(** The scenarios 1 to 4 of the specification, run on the model: what is
    left of the tree and what is reported. *)
Example scenario_1 :
  map_to_list (w_fs (first_run tree_abc "/t" keep_A None false))
  = [ (["t"], Dir); (["t"; "A.txt"], plain_file) ]
  ∧ last (w_out (first_run tree_abc "/t" keep_A None false))
    = Some (MsgSummary 2 1).
Proof. split; vm_compute; reflexivity. Qed.

Example scenario_2 :
  map_to_list (w_fs (first_run tree_docs_src "/t" None (Some ["docs"]) false))
  = [ (["t"], Dir); (["t"; "docs"], Dir);
      (["t"; "docs"; "readme.md"], plain_file) ]
  ∧ last (w_out (first_run tree_docs_src "/t" None (Some ["docs"]) false))
    = Some (MsgSummary 1 1).
Proof. split; vm_compute; reflexivity. Qed.

Example scenario_3 :
  map_to_list (w_fs (first_run tree_empty_sub "/t" (Some []) (Some []) false))
  = [ (["t"], Dir) ]
  ∧ w_out (first_run tree_empty_sub "/t" (Some []) (Some []) false)
    = [ MsgDeletedDir (at_t ["sub"]); MsgSummary 0 1 ].
Proof. split; vm_compute; reflexivity. Qed.

Example scenario_4 :
  w_fs (first_run tree_keep_me "/t" None (Some ["sub"]) false) = tree_keep_me
  ∧ w_out (first_run tree_keep_me "/t" None (Some ["sub"]) false)
    = [ MsgSummary 0 0 ].
Proof. split; vm_compute; reflexivity. Qed.

(** The instance of property P7: with a [--config] path that does not
    exist the run goes on with [A.txt] as the only kept name. *)
Example missing_config_runs_with_cli_list :
  main args_missing_config None (fresh tree_abc)
  = confirm_and_run args_missing_config ["A.txt"] [] None
      (printed (MsgConfigNotFound "/t/missing.json")
         (called (SysOpen (parse "/t/missing.json")) (fresh tree_abc)))
  ∧ w_out (main args_missing_config None (fresh tree_abc)).2
    = [ MsgConfigNotFound "/t/missing.json";
        MsgSettings "/t" ["A.txt"] [] true;
        MsgDryRunFile (at_t ["sub"; "C.txt"]); MsgDryRunFile (at_t ["B.txt"]);
        MsgSummary 0 0 ].
Proof. split; vm_compute; reflexivity. Qed.

(** C5 (dry run of the first scenario).  On [/t/A.txt], [/t/B.txt],
    [/t/sub/C.txt] with [A.txt] kept, the dry run prints a candidate line
    for [sub/C.txt] and for [B.txt] and none for the directory [sub]: when
    the directory pass reads [sub] the file [C.txt] is still in it.  The
    run that deletes does remove [sub]. *)
Theorem dry_run_reports_no_directory :
  w_out (first_run tree_abc "/t" keep_A None true)
  = [ MsgDryRunFile (at_t ["sub"; "C.txt"]); MsgDryRunFile (at_t ["B.txt"]);
      MsgSummary 0 0 ]
  ∧ w_out (first_run tree_abc "/t" keep_A None false)
    = [ MsgDeletedFile (at_t ["sub"; "C.txt"]); MsgDeletedFile (at_t ["B.txt"]);
        MsgDeletedDir (at_t ["sub"]); MsgSummary 2 1 ].
Proof. split; vm_compute; reflexivity. Qed.


End ScenarioClaims.

(* ===================================================================== *)
(** * Further properties of the retention predicate *)
(* ===================================================================== *)

Module PredicateFacts.

Lemma dir_hit_covers fs cwd file_path target_dir d :
  dir_hit fs cwd file_path target_dir d = true
  ↔ covers fs cwd file_path target_dir d.
Proof.
  unfold dir_hit, covers. split.
  - destruct (fs_resolve fs cwd (keep_dir_anchor target_dir d)) as [rd|];
      [| done].
    destruct (fs_resolve fs cwd file_path) as [rp|]; [| done].
    intros [H|H]%orb_true_iff; apply bool_decide_eq_true in H;
      exists rd, rp; (split; [done |]); (split; [done |]).
    + right. by apply elem_of_parents.
    + by left.
  - intros (rd & rp & -> & -> & Hrel). apply orb_true_iff.
    destruct Hrel as [-> | Hanc].
    + right. by apply bool_decide_eq_true_2.
    + left. by apply bool_decide_eq_true_2, elem_of_parents.
Qed.

(** X1.  [should_keep_file] always answers, and answers [True] exactly
    when the base name of the path is in [keep_files] or some entry of
    [keep_dirs] covers the path; in every other case, an entry that fails
    to resolve included, the answer is [False]. *)
Theorem should_keep_file_exact (file_path : Path)
    (keep_files keep_dirs : list string) (target_dir : option string)
    (w : World) :
  ∃ b : bool,
    (should_keep_file file_path keep_files keep_dirs target_dir w).1 = Ok b
    ∧ (b = true
       ↔ name file_path ∈ keep_files
         ∨ ∃ d, d ∈ keep_dirs
                ∧ covers (w_fs w) (w_cwd w) file_path target_dir d).
Proof.
  destruct (should_keep_file_run file_path keep_files target_dir keep_dirs w)
    as (cs & -> & _).
  eexists. split; [reflexivity |]. unfold kept.
  rewrite orb_true_iff, bool_decide_eq_true, existsb_exists.
  apply or_iff_compat_l. split.
  - intros (d & Hin & Hhit). exists d.
    split; [by apply list_elem_of_In | by apply dir_hit_covers].
  - intros (d & Hin & Hcov). exists d.
    split; [by apply list_elem_of_In | by apply dir_hit_covers].
Qed.

Lemma keep_dirs_loop_calls file_path target_dir keep_dirs w :
  ∃ (b : bool) cs,
    keep_dirs_loop file_path target_dir keep_dirs w = (Ok b, add_calls cs w)
    ∧ Forall (is_resolve_on (w_fs w)) cs
    ∧ (length cs ≤ 2 * length keep_dirs)%nat.
Proof.
  revert w. induction keep_dirs as [|d ds IH]; intros w; simpl.
  - exists false, []. rewrite add_calls_nil.
    split; [done |]. split; [constructor | simpl; lia].
  - assert (∃ (b : bool) cs,
              under_keep_dir file_path target_dir d w = (Ok b, add_calls cs w)
              ∧ Forall (is_resolve_on (w_fs w)) cs ∧ (length cs ≤ 2)%nat)
      as (b & cs1 & Hrun & Hcs1 & Hlen1).
    { unfold under_keep_dir, resolve. unfold_M. simpl.
      destruct (fs_resolve (w_fs w) (w_cwd w) (keep_dir_anchor target_dir d));
        simpl.
      - destruct (fs_resolve (w_fs w) (w_cwd w) file_path); simpl;
          rewrite !called_add_calls, add_calls_app; simpl;
          (do 2 eexists; split; [reflexivity |]); (split; [| simpl; lia]);
          repeat constructor; simpl; eauto.
      - rewrite called_add_calls. do 2 eexists. split; [reflexivity |].
        split; [| simpl; lia]. repeat constructor; simpl; eauto. }
    rewrite (bind_ok _ _ _ _ _ Hrun). destruct b.
    + exists true, cs1. split; [done |]. split; [done | lia].
    + destruct (IH (add_calls cs1 w)) as (b2 & cs2 & Hrun2 & Hcs2 & Hlen2).
      simpl in *. exists b2, (cs1 ++ cs2). rewrite Hrun2, add_calls_app.
      split; [done |]. split; [by apply Forall_app |].
      rewrite length_app. lia.
Qed.

(** X2.  [should_keep_file] never raises and has no effect but the
    [resolve()] calls it makes, at most two for each entry of [keep_dirs]
    and all on the file system it was called in: the file system, the
    working directory and what was printed are as before. *)
Theorem should_keep_file_only_resolves (file_path : Path)
    (keep_files keep_dirs : list string) (target_dir : option string)
    (w : World) :
  ∃ (b : bool) (cs : list (gmap (list string) node * syscall)),
    should_keep_file file_path keep_files keep_dirs target_dir w
    = (Ok b, add_calls cs w)
    ∧ Forall (is_resolve_on (w_fs w)) cs
    ∧ (length cs ≤ 2 * length keep_dirs)%nat.
Proof.
  unfold should_keep_file.
  destruct (bool_decide (name file_path ∈ keep_files)).
  - exists true, []. rewrite add_calls_nil.
    split; [done |]. split; [constructor | simpl; lia].
  - apply keep_dirs_loop_calls.
Qed.

(** X3.  Longer keep-lists never keep less: a path that is kept stays
    kept when entries are added to [keep_files] or to [keep_dirs], in any
    position. *)
Theorem keeping_more_keeps (file_path : Path)
    (keep_files keep_files' keep_dirs keep_dirs' : list string)
    (target_dir : option string) (w : World) :
  keep_files ⊆ keep_files' → keep_dirs ⊆ keep_dirs' →
  (should_keep_file file_path keep_files keep_dirs target_dir w).1 = Ok true →
  (should_keep_file file_path keep_files' keep_dirs' target_dir w).1 = Ok true.
Proof.
  intros Hf Hd.
  destruct (should_keep_file_run file_path keep_files target_dir keep_dirs w)
    as (cs & -> & _).
  destruct (should_keep_file_run file_path keep_files' target_dir keep_dirs' w)
    as (cs' & -> & _).
  simpl. intros [= Hkept]. f_equal. unfold kept in *.
  apply orb_true_iff in Hkept as [Hname | Hdir]; apply orb_true_iff.
  - left. apply bool_decide_eq_true in Hname.
    by apply bool_decide_eq_true_2, Hf.
  - right. apply existsb_exists in Hdir as (d & Hin & Hhit).
    apply existsb_exists. exists d. split; [| done].
    by apply list_elem_of_In, Hd, list_elem_of_In.
Qed.

Lemma keeping_more_keeps_witness :
  (should_keep_file (parse "/t/docs/readme.md") ["A.txt"] ["src"; "docs"]
     (Some "/t") (fresh tree_docs_src)).1 = Ok true.
Proof.
  apply (keeping_more_keeps _ [] ["A.txt"] ["docs"] ["src"; "docs"]).
  - by intros x ?%elem_of_nil.
  - intros x ->%list_elem_of_singleton. right. left.
  - vm_compute. reflexivity.
Defined.

End PredicateFacts.

(* ===================================================================== *)
(** * The configuration file *)
(* ===================================================================== *)

Module RunFacts.

Lemma succeeds_reading {A} (c : syscall) (f : FS → key → A) :
  succeeds (reading c (λ fs cwd, Ok (f fs cwd))).
Proof. intros w. by eexists. Qed.

Lemma succeeds_os_walk {A} (top : string)
    (body : A → Path → list string → list string → M A) (acc : A) :
  (∀ a root ds fs, succeeds (body a root ds fs)) →
  succeeds (os_walk top body acc).
Proof.
  intros Hbody w. unfold os_walk. destruct (decide (top = "")).
  - by apply succeeds_ret.
  - by apply succeeds_walk_from.
Qed.

Lemma succeeds_delete_files_except (target_dir : string)
    (keep_files keep_dirs : option (list string)) (dry_run : bool) :
  succeeds (delete_files_except target_dir keep_files keep_dirs dry_run).
Proof.
  unfold delete_files_except. apply succeeds_bind.
  - apply (succeeds_reading _ (λ fs cwd, fs_exists fs cwd (parse target_dir))).
  - intros present. apply succeeds_if; [apply succeeds_print |].
    apply succeeds_bind.
    + apply succeeds_os_walk. intros a root ds fs.
      apply succeeds_for_each. intros a' x.
      apply Idempotence.succeeds_file_step.
    + intros files. apply succeeds_bind; [| intros; apply succeeds_print].
      apply succeeds_os_walk. intros a root ds fs.
      apply succeeds_for_each. intros a' x.
      apply Idempotence.succeeds_dir_step.
Qed.

Lemma delete_files_except_ok (target_dir : string)
    (keep_files keep_dirs : option (list string)) (dry_run : bool) (w : World) :
  (delete_files_except target_dir keep_files keep_dirs dry_run w).1 = Ok tt.
Proof.
  destruct (succeeds_delete_files_except target_dir keep_files keep_dirs
              dry_run w) as [[] H]. done.
Qed.

End RunFacts.
Import RunFacts.

Module ConfigFacts.

Lemma open_json_reads (config_path : string) (w : World) :
  w_fs (open_json config_path w).2 = w_fs w
  ∧ w_cwd (open_json config_path w).2 = w_cwd w
  ∧ w_out (open_json config_path w).2 = w_out w
  ∧ List.filter mutating (w_calls (open_json config_path w).2)
    = List.filter mutating (w_calls w).
Proof.
  unfold open_json. destruct (decide (config_path = "")); [done |].
  simpl. rewrite List.filter_app. simpl. by rewrite app_nil_r.
Qed.

(** What [load_config_file] returns and prints, in terms of what [open]
    and [json.load] gave. *)
Lemma load_config_file_run (config_path : string) (w : World) :
  ∃ (lists : list string * list string) (msg : message),
    load_config_file config_path w
    = (Ok lists, printed msg (open_json config_path w).2)
    ∧ (msg = MsgConfigLoaded config_path
       ∨ is_config_error msg = true ∧ lists = ([], [])).
Proof.
  unfold load_config_file. unfold_M.
  destruct (open_json config_path w) as [[c|e] w1]; simpl.
  - destruct c; simpl; do 2 eexists; (split; [reflexivity |]); auto.
  - destruct e; simpl; do 2 eexists; (split; [reflexivity |]); auto.
Qed.

(** X4.  [load_config_file] never raises: whatever the path names and
    whatever the file holds, it returns, has printed exactly one line and
    has left the file system alone.  The line is the one that reports the
    lists as loaded, or one of the three error lines, and then both lists
    are empty. *)
Theorem load_config_file_never_raises (config_path : string) (w : World) :
  ∃ (lists : list string * list string) (msg : message) (w' : World),
    load_config_file config_path w = (Ok lists, w')
    ∧ w_fs w' = w_fs w ∧ w_cwd w' = w_cwd w
    ∧ w_out w' = w_out w ++ [msg]
    ∧ List.filter mutating (w_calls w') = List.filter mutating (w_calls w)
    ∧ (msg = MsgConfigLoaded config_path
       ∨ is_config_error msg = true ∧ lists = ([], [])).
Proof.
  destruct (load_config_file_run config_path w) as (lists & msg & Hrun & Hmsg).
  destruct (open_json_reads config_path w) as (Hfs & Hcwd & Hout & Hcalls).
  exists lists, msg, (printed msg (open_json config_path w).2).
  split; [done |]. simpl. by rewrite Hout.
Qed.

Lemma merged_keep_lists_run (args : Args) (w : World) :
  ∃ (config_files config_dirs : list string) (w1 : World),
    merged_keep_lists args w
    = (Ok (arg_keep_files args ++ config_files,
           arg_keep_dirs args ++ config_dirs), w1)
    ∧ w_fs w1 = w_fs w ∧ w_cwd w1 = w_cwd w
    ∧ List.filter mutating (w_calls w1) = List.filter mutating (w_calls w).
Proof.
  unfold merged_keep_lists. destruct (truthy (arg_config args)).
  - destruct (load_config_file_run (default "" (arg_config args)) w)
      as ([cf cd] & msg & Hrun & _).
    destruct (open_json_reads (default "" (arg_config args)) w)
      as (Hfs & Hcwd & _ & Hcalls).
    rewrite (bind_ok _ _ _ _ _ Hrun). by do 3 eexists.
  - exists [], [], w. by rewrite !app_nil_r.
Qed.



End ConfigFacts.
Import ConfigFacts.

(* ===================================================================== *)
(** * The prompt of [main] *)
(* ===================================================================== *)

Module MainFacts.

(** [str.lower] gives ["y"] for the two answers ["y"] and ["Y"] only. *)
Lemma lower_is_y (s : string) : lower s = "y" ↔ s = "y" ∨ s = "Y".
Proof.
  split; [| by intros [-> | ->]].
  destruct s as [|c s]; [done |]. simpl. intros [= Hc Hs].
  destruct s; [| done]. clear Hs.
  destruct c as [b0 b1 b2 b3 b4 b5 b6 b7].
  destruct b0, b1, b2, b3, b4, b5, b6, b7; vm_compute in Hc;
    first [discriminate Hc | by left | by right].
Qed.

Lemma confirm_and_run_dry (args : Args) (keep_files keep_dirs : list string)
    (typed : option string) (w : World) :
  arg_dry_run args = true →
  confirm_and_run args keep_files keep_dirs typed w
  = delete_files_except (arg_target_dir args) (Some keep_files)
      (Some keep_dirs) true
      (printed (MsgSettings (arg_target_dir args) keep_files keep_dirs true) w).
Proof.
  intros Hdry. unfold confirm_and_run. rewrite Hdry. reflexivity.
Qed.

Section Main.

Context (args : Args) (w : World).

(** X6.  Outside a dry run, any answer to the prompt other than [y] or
    [Y] cancels: [main] returns after printing the cancellation, the file
    system is as it was and neither [unlink] nor [rmdir] has been
    called. *)
Theorem main_declined (answer : string) :
  arg_dry_run args = false → answer ≠ "y" → answer ≠ "Y" →
  (main args (Some answer) w).1 = Ok tt
  ∧ w_fs (main args (Some answer) w).2 = w_fs w
  ∧ last (w_out (main args (Some answer) w).2) = Some MsgCancelled
  ∧ List.filter mutating (w_calls (main args (Some answer) w).2)
    = List.filter mutating (w_calls w).
Proof.
  intros Hdry Hy HY. unfold main.
  destruct (merged_keep_lists_run args w)
    as (cf & cd & w1 & Hrun & Hfs & Hcwd & Hcalls).
  rewrite (bind_ok _ _ _ _ _ Hrun). unfold confirm_and_run. rewrite Hdry.
  unfold input. unfold_M. simpl.
  rewrite bool_decide_eq_false_2 by (rewrite lower_is_y; tauto). simpl.
  rewrite last_snoc. done.
Qed.

(** X7.  Outside a dry run, the answers [y] and [Y] confirm: after the
    settings are printed [main] is the deleting run of
    [delete_files_except] on the target with the merged lists, started on
    the file system [main] was started on. *)
Theorem main_confirmed (answer : string) :
  arg_dry_run args = false → answer = "y" ∨ answer = "Y" →
  ∃ (keep_files keep_dirs : list string) (w1 : World),
    merged_keep_lists args w = (Ok (keep_files, keep_dirs), w1)
    ∧ w_fs w1 = w_fs w
    ∧ main args (Some answer) w
      = delete_files_except (arg_target_dir args) (Some keep_files)
          (Some keep_dirs) false
          (printed (MsgSettings (arg_target_dir args) keep_files keep_dirs
                      false) w1).
Proof.
  intros Hdry Hans. unfold main.
  destruct (merged_keep_lists_run args w)
    as (cf & cd & w1 & Hrun & Hfs & Hcwd & Hcalls).
  do 3 eexists. split; [exact Hrun |]. split; [done |].
  rewrite (bind_ok _ _ _ _ _ Hrun). unfold confirm_and_run. rewrite Hdry.
  unfold input. unfold_M. simpl.
  rewrite bool_decide_eq_true_2 by (by apply lower_is_y). done.
Qed.


(** X9.  Outside a dry run with the input closed, [main] ends with the
    [EOFError] of [input()], which it does not catch; nothing has been
    deleted by then. *)
Theorem main_closed_input :
  arg_dry_run args = false →
  (main args None w).1 = Raise EOFError
  ∧ w_fs (main args None w).2 = w_fs w
  ∧ List.filter mutating (w_calls (main args None w).2)
    = List.filter mutating (w_calls w).
Proof.
  intros Hdry. unfold main.
  destruct (merged_keep_lists_run args w)
    as (cf & cd & w1 & Hrun & Hfs & Hcwd & Hcalls).
  rewrite (bind_ok _ _ _ _ _ Hrun). unfold confirm_and_run. rewrite Hdry.
  unfold input. unfold_M. simpl. done.
Qed.

End Main.

Lemma main_declined_witness :
  (main (args_config false) (Some "yes") (fresh tree_config)).1 = Ok tt
  ∧ w_fs (main (args_config false) (Some "yes") (fresh tree_config)).2
    = w_fs (fresh tree_config)
  ∧ last (w_out (main (args_config false) (Some "yes") (fresh tree_config)).2)
    = Some MsgCancelled
  ∧ List.filter mutating
      (w_calls (main (args_config false) (Some "yes") (fresh tree_config)).2)
    = List.filter mutating (w_calls (fresh tree_config)).
Proof. apply main_declined; [reflexivity | discriminate | discriminate]. Defined.

Lemma main_confirmed_witness :
  ∃ (keep_files keep_dirs : list string) (w1 : World),
    merged_keep_lists (args_config false) (fresh tree_config)
    = (Ok (keep_files, keep_dirs), w1)
    ∧ w_fs w1 = w_fs (fresh tree_config)
    ∧ main (args_config false) (Some "Y") (fresh tree_config)
      = delete_files_except (arg_target_dir (args_config false))
          (Some keep_files) (Some keep_dirs) false
          (printed (MsgSettings (arg_target_dir (args_config false))
                      keep_files keep_dirs false) w1).
Proof. apply main_confirmed; [reflexivity | by right]. Defined.


Lemma main_closed_input_witness :
  (main (args_config false) None (fresh tree_config)).1 = Raise EOFError
  ∧ w_fs (main (args_config false) None (fresh tree_config)).2
    = w_fs (fresh tree_config)
  ∧ List.filter mutating
      (w_calls (main (args_config false) None (fresh tree_config)).2)
    = List.filter mutating (w_calls (fresh tree_config)).
Proof. apply main_closed_input. reflexivity. Defined.

End MainFacts.

(* ===================================================================== *)
(** * The steps of a run *)
(* ===================================================================== *)

Module StepFacts.

(** ** Loops that carry their accumulator *)

Lemma for_each_carries {A B} (J : A → World → Prop) (body : A → B → M A)
    (xs : list B) :
  (∀ a x w, x ∈ xs → J a w →
     ∃ a', (body a x w).1 = Ok a' ∧ J a' (body a x w).2) →
  ∀ acc w, J acc w →
    ∃ a', (for_each xs body acc w).1 = Ok a' ∧ J a' (for_each xs body acc w).2.
Proof.
  intros Hbody. induction xs as [|x xs IH]; intros acc w Hw; simpl.
  - by exists acc.
  - destruct (Hbody acc x w) as (a1 & Hok & HJ); [by left | done |].
    unfold_M. destruct (body acc x w) as [[a|e] w1]; simpl in *; [| done].
    injection Hok as ->. apply IH; [| done].
    intros a' x' w' Hx'. apply Hbody. by right.
Qed.

Lemma walk_from_carries {A} (J : A → World → Prop) (depth : nat)
    (body : A → Path → list string → list string → M A) :
  (∀ a p w, J a w → J a (called (SysScandir p) w)) →
  (∀ a root ds fs w, J a w →
     ∃ a', (body a root ds fs w).1 = Ok a' ∧ J a' (body a root ds fs w).2) →
  ∀ top acc w, J acc w →
    ∃ a', (walk_from depth top body acc w).1 = Ok a'
          ∧ J a' (walk_from depth top body acc w).2.
Proof.
  intros Hcall Hbody. induction depth as [|d IH]; intros top acc w Hw; simpl.
  - by exists acc.
  - unfold scandir, reading. unfold_M.
    destruct (fs_scandir (w_fs w) (w_cwd w) top) as [l|e]; simpl.
    + destruct (for_each_carries J
                  (λ (acc : A) (n : string),
                     walk_from d (joinpath top (parse n)) body acc)
                  (walk_dirs l) (λ a x w' _, IH _ a w') acc
                  (called (SysScandir top) w) (Hcall _ _ _ Hw))
        as (a1 & Hok & HJ).
      destruct (for_each _ _ _ _) as [[a|e] w1]; simpl in *; [| done].
      injection Hok as ->. by apply Hbody.
    + exists acc. split; [done |]. by apply Hcall.
Qed.

Lemma os_walk_carries {A} (J : A → World → Prop) (top : string)
    (body : A → Path → list string → list string → M A) :
  (∀ a p w, J a w → J a (called (SysScandir p) w)) →
  (∀ a root ds fs w, J a w →
     ∃ a', (body a root ds fs w).1 = Ok a' ∧ J a' (body a root ds fs w).2) →
  ∀ acc w, J acc w →
    ∃ a', (os_walk top body acc w).1 = Ok a' ∧ J a' (os_walk top body acc w).2.
Proof.
  intros Hcall Hbody acc w Hw. unfold os_walk.
  destruct (decide (top = "")); [by exists acc |].
  by apply walk_from_carries.
Qed.

(** ** The steps of the two passes, case by case *)

Section Steps.

Context (target_dir : string) (keep_files keep_dirs : list string)
        (dry_run : bool).

Lemma file_step_run (root : Path) (acc : list Path) (file : string)
    (w : World) :
  file_step_does target_dir keep_files keep_dirs dry_run root acc file w
    (file_step target_dir keep_files keep_dirs dry_run root acc file w).
Proof.
  unfold file_step.
  destruct (should_keep_file_run (joinpath root (parse file)) keep_files
              (Some target_dir) keep_dirs w) as (cs & Hrun & _).
  rewrite (bind_ok _ _ _ _ _ Hrun).
  destruct (kept _ _ _ _ _ _) eqn:Hkept; simpl; [by constructor |].
  destruct dry_run eqn:Hdry; [by apply file_candidate |].
  unfold remove_file, unlink, writing. unfold_M. simpl.
  destruct (fs_unlink (w_fs w) (w_cwd w) (joinpath root (parse file)))
    as [fs'|e] eqn:Hun; simpl.
  - by apply file_deleted.
  - by apply file_failed.
Qed.

Lemma dir_step_run (root : Path) (acc : list Path) (dir_name : string)
    (w : World) :
  dir_step_does target_dir keep_dirs dry_run root acc dir_name w
    (dir_step target_dir keep_dirs dry_run root acc dir_name w).
Proof.
  unfold dir_step.
  destruct (should_keep_file_run (joinpath root (parse dir_name)) []
              (Some target_dir) keep_dirs w) as (cs & Hrun & _).
  rewrite (bind_ok _ _ _ _ _ Hrun).
  destruct (kept _ _ _ _ _ _) eqn:Hkept; simpl; [by constructor |].
  unfold remove_if_empty, iterdir, rmdir, reading, writing. unfold_M. simpl.
  destruct (fs_listdir (w_fs w) (w_cwd w) (joinpath root (parse dir_name)))
    as [[|n ns]|e] eqn:Hls; simpl.
  - destruct dry_run eqn:Hdry; [by apply dir_candidate |]. simpl.
    destruct (fs_rmdir (w_fs w) (w_cwd w) (joinpath root (parse dir_name)))
      as [fs'|e] eqn:Hrm; simpl.
    + by apply dir_deleted.
    + by apply dir_failed.
  - by eapply dir_not_empty.
  - by apply dir_unreadable.
Qed.

End Steps.

(** The cases of a step, with the names the proofs use. *)
Ltac file_cases Hr :=
  destruct Hr as [cs Hkept | cs Hkept Hdry | cs fs' Hkept Hdry Hun
                 | cs e Hkept Hdry Hun].
Ltac dir_cases Hr :=
  destruct Hr as [cs Hkept | cs e Hls | cs n ns Hls | cs Hkept Hls Hdry
                 | cs fs' Hkept Hls Hdry Hrm | cs e Hdry Hrm].

End StepFacts.
Import StepFacts.

(* ===================================================================== *)
(** * Invariants of a run *)
(* ===================================================================== *)

Module RunRule.

Section Rule.

Context (target_dir : string) (keep_files keep_dirs : option (list string))
        (dry_run : bool).
Context (J1 : list Path → World → Prop)
        (J2 : list Path → list Path → World → Prop).

Hypothesis J1_scandir : ∀ a p w, J1 a w → J1 a (called (SysScandir p) w).
Hypothesis J2_scandir : ∀ f a p w, J2 f a w → J2 f a (called (SysScandir p) w).
Hypothesis J1_step : ∀ root a file w r,
  J1 a w →
  file_step_does target_dir (default [] keep_files) (default [] keep_dirs)
    dry_run root a file w r →
  ∃ a', r.1 = Ok a' ∧ J1 a' r.2.
Hypothesis J2_step : ∀ f root a d w r,
  J2 f a w →
  dir_step_does target_dir (default [] keep_dirs) dry_run root a d w r →
  ∃ a', r.1 = Ok a' ∧ J2 f a' r.2.
Hypothesis J1_J2 : ∀ f w, J1 f w → J2 f [] w.

(** A run that finds its target goes through the two passes and prints
    the summary: what the steps of the file pass carry ([J1]) and then
    those of the directory pass ([J2]) holds before the summary. *)
Lemma run_carries (w : World) :
  fs_exists (w_fs w) (w_cwd w) (parse target_dir) = true →
  J1 [] (called (SysExists (parse target_dir)) w) →
  ∃ (files dirs : list Path) (wc : World),
    delete_files_except target_dir keep_files keep_dirs dry_run w
    = (Ok tt, printed (MsgSummary (length files) (length dirs)) wc)
    ∧ J2 files dirs wc.
Proof.
  intros Hex H0.
  destruct (os_walk_carries J1 target_dir
              (file_pass target_dir (default [] keep_files)
                 (default [] keep_dirs) dry_run)
              J1_scandir
              (λ a root ds fs w' Hw',
                 for_each_carries J1 _ fs
                   (λ a' x w'' _ Hw'', J1_step root a' x w'' _ Hw''
                                         (file_step_run _ _ _ _ _ _ _ _))
                   a w' Hw')
              [] _ H0) as (files & Hok1 & HJ1).
  destruct (os_walk _ _ _ _) as [r1 wb] eqn:Hrun1. simpl in Hok1, HJ1.
  subst r1.
  destruct (os_walk_carries (J2 files) target_dir
              (dir_pass target_dir (default [] keep_dirs) dry_run)
              (J2_scandir files)
              (λ a root ds fs w' Hw',
                 for_each_carries (J2 files) _ ds
                   (λ a' x w'' _ Hw'', J2_step files root a' x w'' _ Hw''
                                         (dir_step_run _ _ _ _ _ _ _))
                   a w' Hw')
              [] wb (J1_J2 _ _ HJ1)) as (dirs & Hok2 & HJ2).
  destruct (os_walk _ _ _ wb) as [r2 wc] eqn:Hrun2. simpl in Hok2, HJ2.
  subst r2.
  exists files, dirs, wc. split; [| done].
  exact (Idempotence.delete_files_except_present _ _ _ _ w wb wc files dirs
           Hex Hrun1 Hrun2).
Qed.

End Rule.

(** The same for a property of the world alone: it holds after the run
    if the steps keep it. *)
Lemma run_keeps (I : World → Prop) (target_dir : string)
    (keep_files keep_dirs : option (list string)) (dry_run : bool) :
  (∀ c w, reads_only c → I w → I (called c w)) →
  (∀ msg w, I w → I (printed msg w)) →
  (∀ root a file w r,
     I w →
     file_step_does target_dir (default [] keep_files) (default [] keep_dirs)
       dry_run root a file w r → I r.2) →
  (∀ root a d w r,
     I w →
     dir_step_does target_dir (default [] keep_dirs) dry_run root a d w r →
     I r.2) →
  preserves I (delete_files_except target_dir keep_files keep_dirs dry_run).
Proof.
  intros Hcall Hprint Hfile Hdir w Hw.
  destruct (fs_exists (w_fs w) (w_cwd w) (parse target_dir)) eqn:Hex.
  - destruct (run_carries target_dir keep_files keep_dirs dry_run
                (λ _ w, I w) (λ _ _ w, I w)) with (w := w)
      as (files & dirs & wc & -> & HI); try done.
    + intros a p w'. by apply Hcall.
    + intros _ a p w'. by apply Hcall.
    + intros root a file w' r Hw' Hr.
      pose proof (Hfile _ _ _ _ _ Hw' Hr) as HI.
      destruct Hr; by eexists.
    + intros _ root a d w' r Hw' Hr.
      pose proof (Hdir _ _ _ _ _ Hw' Hr) as HI.
      destruct Hr; by eexists.
    + by apply Hcall.
    + by apply Hprint.
  - rewrite Idempotence.delete_files_except_absent by done.
    by apply Hprint, Hcall.
Qed.

End RunRule.
Import RunRule.

(* ===================================================================== *)
(** * What a run never removes *)
(* ===================================================================== *)

Module Survival.

(** The entry a path names carries the base name of the path. *)
Lemma locate_entry_name (fs : gmap (list string) node) (cwd : list string)
    (p : Path) (k : list string) :
  locate_entry fs cwd p = Ok k → List.last k "" = name p.
Proof.
  unfold locate_entry, name.
  destruct (reverse (parts p)) as [|n rparent] eqn:Hrev; [done |].
  apply (f_equal reverse) in Hrev. rewrite reverse_involutive in Hrev.
  rewrite Hrev, reverse_cons, !last_last.
  destruct (decide (n = "..")); [done |].
  destruct (walk_path _ _ _ _) as [k'|]; [| done].
  destruct (negb (is_dir_key fs k')); [done |].
  destruct (fs !! (k' ++ [n])); [| done].
  intros [= <-]. by rewrite last_last.
Qed.

Lemma kept_false_name fs cwd p keep_files keep_dirs target_dir :
  kept fs cwd p keep_files keep_dirs target_dir = false →
  name p ∉ keep_files.
Proof.
  unfold kept. intros [H _]%orb_false_iff. by apply bool_decide_eq_false in H.
Qed.

Lemma kept_false_dir_hit fs cwd p keep_files keep_dirs target_dir d :
  kept fs cwd p keep_files keep_dirs target_dir = false → d ∈ keep_dirs →
  dir_hit fs cwd p target_dir d = false.
Proof.
  unfold kept. intros [_ H]%orb_false_iff Hd.
  destruct (dir_hit fs cwd p target_dir d) eqn:Hhit; [| done].
  assert (existsb (dir_hit fs cwd p target_dir) keep_dirs = true) as Hex.
  { apply existsb_exists. exists d. split; [by apply list_elem_of_In | done]. }
  congruence.
Qed.

(** Without links the kernel and the text of a path agree. *)
Lemma lexical_snoc (cur comps : list string) (n : string) :
  n ≠ ".." → lexical cur (comps ++ [n]) = lexical cur comps ++ [n].
Proof.
  intros Hn. revert cur. induction comps as [|c comps IH]; intros cur; simpl.
  - by destruct (decide (n = "..")).
  - destruct (decide (c = "..")); apply IH.
Qed.

Lemma walk_path_lexical (fs : gmap (list string) node) (l : nat)
    (cur comps k : list string) :
  no_links fs → walk_path l fs cur comps = Ok k → k = lexical cur comps.
Proof.
  intros Hnl. revert cur. induction comps as [|c comps IH]; intros cur.
  - rewrite walk_path_nil. by intros [= <-].
  - rewrite walk_path_cons. simpl.
    destruct (negb (is_dir_key fs cur)); [done |].
    destruct (decide (c = "..")); [apply IH |].
    destruct (fs !! (cur ++ [c])) as [x|] eqn:Hx; [| done].
    specialize (Hnl _ _ Hx). destruct x; try done; apply IH.
Qed.

Lemma locate_entry_lexical (fs : gmap (list string) node) (cwd : list string)
    (p : Path) (k : list string) :
  no_links fs → locate_entry fs cwd p = Ok k →
  k = lexical (base cwd p) (parts p).
Proof.
  intros Hnl. unfold locate_entry.
  destruct (reverse (parts p)) as [|n rparent] eqn:Hrev; [done |].
  apply (f_equal reverse) in Hrev. rewrite reverse_involutive in Hrev.
  rewrite Hrev, reverse_cons.
  destruct (decide (n = "..")); [done |].
  destruct (walk_path _ _ _ _) as [k'|] eqn:Hwalk; [| done].
  destruct (negb (is_dir_key fs k')); [done |].
  destruct (fs !! (k' ++ [n])); [| done].
  intros [= <-]. rewrite lexical_snoc by done. f_equal.
  by eapply walk_path_lexical.
Qed.

(** An entry that a step removes is not at or below where a keep-directory
    entry points. *)
Lemma unkept_not_protected (fs : gmap (list string) node) (cwd : list string)
    (p : Path) (keep_files keep_dirs : list string) (target_dir d : string)
    (k : list string) :
  no_links fs →
  kept fs cwd p keep_files keep_dirs (Some target_dir) = false →
  locate_entry fs cwd p = Ok k → d ∈ keep_dirs →
  ¬ at_or_below (keep_root cwd target_dir d) k.
Proof.
  intros Hnl Hkept Hloc Hd [rest Hk].
  pose proof (kept_false_dir_hit _ _ _ _ _ _ _ Hkept Hd) as Hhit.
  apply locate_entry_lexical in Hloc; [| done].
  unfold dir_hit in Hhit. rewrite !fs_resolve_plain in Hhit by done.
  rewrite <- Hloc in Hhit. fold (keep_root cwd target_dir d) in Hhit.
  apply orb_false_iff in Hhit as [Hpar Heq].
  apply bool_decide_eq_false in Hpar, Heq.
  destruct rest as [|r rest].
  - apply Heq. by rewrite Hk, app_nil_r.
  - apply Hpar, elem_of_parents. split; [done |]. simpl.
    exists (r :: rest). done.
Qed.

Lemma names_intact_run (fs0 : gmap (list string) node) (target_dir : string)
    (keep_files keep_dirs : option (list string)) (dry_run : bool) :
  preserves (names_intact fs0 (default [] keep_files))
    (delete_files_except target_dir keep_files keep_dirs dry_run).
Proof.
  apply run_keeps; try done.
  - intros root a file w r Hw Hr. file_cases Hr; simpl; try done.
    apply fs_unlink_ok in Hun as (k' & Hloc & _ & _ & ->).
    intros k x Hk Hx Hname. simpl. rewrite lookup_delete_ne; [by apply Hw |].
    intros ->. apply (kept_false_name _ _ _ _ _ _ Hkept).
    by rewrite <- (locate_entry_name _ _ _ _ Hloc).
  - intros root a d w r Hw Hr. dir_cases Hr; simpl; try done.
    apply fs_rmdir_ok in Hrm as (k' & Hloc & Hdir & _ & ->).
    intros k x Hk Hx Hname. simpl. rewrite lookup_delete_ne; [by apply Hw |].
    intros ->. rewrite (Hw _ _ Hk Hx Hname) in Hdir.
    injection Hdir as ->. done.
Qed.

Lemma roots_intact_run (fs0 : gmap (list string) node) (cwd : list string)
    (target_dir : string) (keep_files keep_dirs : option (list string))
    (dry_run : bool) :
  no_links fs0 →
  preserves (roots_intact fs0 cwd target_dir (default [] keep_dirs))
    (delete_files_except target_dir keep_files keep_dirs dry_run).
Proof.
  intros Hnl.
  assert (Hdel : ∀ (w : World) (p : Path) (kf : list string) (k' : list string),
            roots_intact fs0 cwd target_dir (default [] keep_dirs) w →
            kept (w_fs w) (w_cwd w) p kf (default [] keep_dirs)
              (Some target_dir) = false →
            locate_entry (w_fs w) (w_cwd w) p = Ok k' →
            ∀ w', w_cwd w' = w_cwd w → w_fs w' = delete k' (w_fs w) →
            roots_intact fs0 cwd target_dir (default [] keep_dirs) w').
  { intros w p kf k' (Hcwd & Hsub & Hkeep) Hkept Hloc w' Hcwd' Hfs'.
    split; [congruence |]. rewrite Hfs'. split.
    - etrans; [apply delete_subseteq | done].
    - intros d k Hd Hk. rewrite lookup_delete_ne; [by apply (Hkeep d) |].
      intros Heq. subst k. rewrite Hcwd in Hkept, Hloc.
      by apply (unkept_not_protected (w_fs w) cwd p kf (default [] keep_dirs)
                  target_dir d k' (no_links_weaken _ _ Hsub Hnl) Hkept Hloc Hd). }
  apply run_keeps; try done.
  - intros root a file w r Hw Hr. file_cases Hr; simpl; try done.
    apply fs_unlink_ok in Hun as (k' & Hloc & _ & _ & ->).
    by eapply Hdel.
  - intros root a d w r Hw Hr. dir_cases Hr; simpl; try done.
    apply fs_rmdir_ok in Hrm as (k' & Hloc & _ & _ & ->).
    by eapply Hdel.
Qed.

(** X10.  A run never removes a regular file or a symbolic link whose name
    is in [keep_files], wherever it lies and whatever [keep_dirs] says:
    such an entry is there after the run, unchanged. *)
Theorem kept_names_survive (target_dir : string)
    (keep_files keep_dirs : option (list string)) (dry_run : bool)
    (w : World) (k : list string) (x : node) :
  w_fs w !! k = Some x → is_dir_node x = false →
  List.last k "" ∈ default [] keep_files →
  w_fs (delete_files_except target_dir keep_files keep_dirs dry_run w).2 !! k
  = Some x.
Proof.
  intros Hk Hx Hname.
  apply (names_intact_run (w_fs w) target_dir keep_files keep_dirs dry_run w);
    try done.
  by intros k' x' Hk' _ _.
Qed.

Lemma kept_names_survive_witness :
  w_fs (delete_files_except "/t" keep_A None false (fresh tree_abc)).2
    !! ["t"; "A.txt"]
  = Some plain_file.
Proof.
  apply kept_names_survive.
  - vm_compute. reflexivity.
  - reflexivity.
  - vm_compute. left.
Defined.



End Survival.

(* ===================================================================== *)
(** * What a run reports *)
(* ===================================================================== *)

Module Reporting.

Lemma reported_print fs0 cwd out0 msg w :
  is_deleted_file msg = false → is_deleted_dir msg = false →
  reported fs0 cwd out0 w → reported fs0 cwd out0 (printed msg w).
Proof.
  intros Hf Hd (Hcwd & Hsub & new & Hout & Hall & Hsound).
  split; [done |]. split; [done |]. exists (new ++ [msg]). simpl.
  split; [by rewrite Hout, app_assoc |]. split.
  - intros k x Hk Hgone. destruct (Hall k x Hk Hgone) as (p & Hin & Hnamed).
    exists p. split; [| done]. apply elem_of_app. by left.
  - intros p Hp.
    assert (MsgDeletedFile p ∈ new ∨ MsgDeletedDir p ∈ new) as Hp'.
    { destruct Hp as [Hp | Hp]; apply elem_of_app in Hp as [Hp | Hp];
        try (by left); try (by right);
        apply list_elem_of_singleton in Hp; by subst msg. }
    destruct (Hsound p Hp') as (k & x & Hk & Hgone & Hnamed & Hin).
    exists k, x. do 3 (split; [done |]). apply elem_of_app. by left.
Qed.

(** What the removal of the entry [k'], named by [p], and the line that
    reports it do to [reported]. *)
Lemma reported_removal fs0 cwd out0 (w w' : World) (p : Path)
    (k' : list string) (x : node) :
  reported fs0 cwd out0 w →
  locate_entry (w_fs w) (w_cwd w) p = Ok k' → w_fs w !! k' = Some x →
  w_cwd w' = w_cwd w → w_fs w' = delete k' (w_fs w) →
  w_out w' = w_out w ++ [deletion_line x p] →
  reported fs0 cwd out0 w'.
Proof.
  intros (Hcwd & Hsub & new & Hout & Hall & Hsound) Hloc Hx Hcwd' Hfs' Hout'.
  pose proof (lookup_weaken _ _ _ _ Hx Hsub) as Hx0.
  assert (Hnamed : named fs0 cwd p k').
  { exists (w_fs w). split; [done |]. by rewrite <- Hcwd. }
  split; [congruence |]. rewrite Hfs'. split.
  { etrans; [apply delete_subseteq | done]. }
  exists (new ++ [deletion_line x p]).
  split; [by rewrite Hout', Hout, app_assoc |]. split.
  - intros k y Hk Hgone. apply lookup_delete_None in Hgone as [-> | Hgone].
    + exists p. rewrite Hx0 in Hk. injection Hk as <-.
      split; [| done]. apply elem_of_app. right. left.
    + destruct (Hall k y Hk Hgone) as (q & Hin & Hq).
      exists q. split; [| done]. apply elem_of_app. by left.
  - intros q Hq.
    assert ((MsgDeletedFile q ∈ new ∨ MsgDeletedDir q ∈ new) ∨ q = p) as [Hq' | ->].
    { destruct Hq as [Hq | Hq]; apply elem_of_app in Hq as [Hq | Hq];
        try (by left; left); try (by left; right);
        apply list_elem_of_singleton in Hq; unfold deletion_line in Hq;
        destruct (is_dir_node x); try done; injection Hq as ->; by right. }
    + destruct (Hsound q Hq') as (k & y & Hk & Hgone & Hnamed' & Hin).
      exists k, y. split; [done |].
      split; [apply lookup_delete_None; by right |]. split; [done |].
      apply elem_of_app. by left.
    + exists k', x. split; [done |].
      split; [apply lookup_delete_None; by left |]. split; [done |].
      apply elem_of_app. right. left.
Qed.

Lemma reported_run (target_dir : string)
    (keep_files keep_dirs : option (list string)) (dry_run : bool) (w : World) :
  reported (w_fs w) (w_cwd w) (w_out w)
    (delete_files_except target_dir keep_files keep_dirs dry_run w).2.
Proof.
  assert (H0 : reported (w_fs w) (w_cwd w) (w_out w) w).
  { split; [done |]. split; [done |]. exists []. rewrite app_nil_r.
    split; [done |]. split.
    - intros k x Hk Hgone. congruence.
    - intros p [Hp | Hp]; by apply elem_of_nil in Hp. }
  destruct (fs_exists (w_fs w) (w_cwd w) (parse target_dir)) eqn:Hex.
  2:{ rewrite Idempotence.delete_files_except_absent by done.
      by apply reported_print. }
  destruct (run_carries target_dir keep_files keep_dirs dry_run
              (λ _ w', reported (w_fs w) (w_cwd w) (w_out w) w')
              (λ _ _ w', reported (w_fs w) (w_cwd w) (w_out w) w'))
    with (w := w) as (files & dirs & wc & -> & HI); try done.
  - intros root a file w' r Hw' Hr. file_cases Hr; simpl; eexists;
      (split; [reflexivity |]); try done.
    + by apply reported_print.
    + apply fs_unlink_ok in Hun as (k' & Hloc & Hnd & [x Hx] & ->).
      apply (reported_removal _ _ _ w' _ (joinpath root (parse file)) k' x);
        try done.
      simpl. unfold deletion_line. by destruct x.
    + by apply reported_print.
  - intros _ root a d w' r Hw' Hr. dir_cases Hr; simpl; eexists;
      (split; [reflexivity |]); try done.
    + by apply reported_print.
    + by apply reported_print.
    + apply fs_rmdir_ok in Hrm as (k' & Hloc & Hdir & _ & ->).
      by apply (reported_removal _ _ _ w' _ (joinpath root (parse d)) k' Dir).
    + by apply reported_print.
  - by apply reported_print.
Qed.

(** X12.  Nothing is removed silently: for every entry that was there
    before a run and is gone after it, the run has printed the line that
    reports a deleted file (for a regular file or a symbolic link) or a
    deleted directory (for a directory), with a path that named the
    entry. *)
Theorem every_removal_is_reported (target_dir : string)
    (keep_files keep_dirs : option (list string)) (dry_run : bool) (w : World) :
  ∃ new : list message,
    w_out (delete_files_except target_dir keep_files keep_dirs dry_run w).2
    = w_out w ++ new
    ∧ ∀ (k : list string) (x : node),
        w_fs w !! k = Some x →
        w_fs (delete_files_except target_dir keep_files keep_dirs dry_run w).2
          !! k = None →
        ∃ p, deletion_line x p ∈ new ∧ named (w_fs w) (w_cwd w) p k.
Proof.
  destruct (reported_run target_dir keep_files keep_dirs dry_run w)
    as (_ & _ & new & Hout & Hall & _).
  by exists new.
Qed.

(** X13.  Every line of a run that reports a deleted file or a deleted
    directory is true: the path named an entry that was there before the
    run and is gone after it, a directory exactly when the line reports
    one. *)
Theorem every_report_is_a_removal (target_dir : string)
    (keep_files keep_dirs : option (list string)) (dry_run : bool) (w : World) :
  ∃ new : list message,
    w_out (delete_files_except target_dir keep_files keep_dirs dry_run w).2
    = w_out w ++ new
    ∧ ∀ p : Path,
        MsgDeletedFile p ∈ new ∨ MsgDeletedDir p ∈ new →
        ∃ (k : list string) (x : node),
          w_fs w !! k = Some x
          ∧ w_fs (delete_files_except target_dir keep_files keep_dirs dry_run
                    w).2 !! k = None
          ∧ named (w_fs w) (w_cwd w) p k
          ∧ deletion_line x p ∈ new.
Proof.
  destruct (reported_run target_dir keep_files keep_dirs dry_run w)
    as (_ & _ & new & Hout & _ & Hsound).
  by exists new.
Qed.

End Reporting.

(* ===================================================================== *)
(** * What the summary counts *)
(* ===================================================================== *)

Module Accounting.

Lemma count_deleted_files_snoc (out : list message) (msg : message) :
  count_deleted_files (out ++ [msg])
  = (count_deleted_files out + if is_deleted_file msg then 1 else 0)%nat.
Proof.
  unfold count_deleted_files. rewrite List.filter_app, length_app. simpl.
  by destruct (is_deleted_file msg).
Qed.

Lemma count_deleted_dirs_snoc (out : list message) (msg : message) :
  count_deleted_dirs (out ++ [msg])
  = (count_deleted_dirs out + if is_deleted_dir msg then 1 else 0)%nat.
Proof.
  unfold count_deleted_dirs. rewrite List.filter_app, length_app. simpl.
  by destruct (is_deleted_dir msg).
Qed.

(** Removing an entry takes one from the count of its kind and leaves the
    other count alone. *)
Lemma size_filter_delete (b : bool) (fs : gmap (list string) node)
    (k : list string) (x : node) :
  fs !! k = Some x →
  (size (filter (λ e : list string * node, is_dir_node e.2 = b) (delete k fs))
   + (if decide (is_dir_node x = b) then 1 else 0)
   = size (filter (λ e : list string * node, is_dir_node e.2 = b) fs))%nat.
Proof.
  intros Hx. rewrite map_filter_delete, map_size_delete.
  destruct (decide (is_dir_node x = b)) as [Hb | Hb].
  - rewrite (map_lookup_filter_Some_2 _ _ _ x) by done.
    assert (size (filter (λ e : list string * node, is_dir_node e.2 = b) fs) ≠ 0%nat).
    { apply (map_size_ne_0_lookup_2 _ k).
      by rewrite (map_lookup_filter_Some_2 _ _ _ x). }
    lia.
  - rewrite map_lookup_filter_None_2; [simpl; lia |].
    right. intros y Hy. simpl. congruence.
Qed.

Lemma counts_delete_file (fs : gmap (list string) node) (k : list string)
    (x : node) :
  fs !! k = Some x → is_dir_node x = false →
  (files_in (delete k fs) + 1 = files_in fs)%nat
  ∧ dirs_in (delete k fs) = dirs_in fs.
Proof.
  intros Hx Hnd. unfold files_in, dirs_in.
  pose proof (size_filter_delete false fs k x Hx) as Hf.
  pose proof (size_filter_delete true fs k x Hx) as Hd.
  rewrite Hnd in Hf, Hd. simpl in Hf, Hd. lia.
Qed.

Lemma counts_delete_dir (fs : gmap (list string) node) (k : list string) :
  fs !! k = Some Dir →
  files_in (delete k fs) = files_in fs
  ∧ (dirs_in (delete k fs) + 1 = dirs_in fs)%nat.
Proof.
  intros Hx. unfold files_in, dirs_in.
  pose proof (size_filter_delete false fs k Dir Hx) as Hf.
  pose proof (size_filter_delete true fs k Dir Hx) as Hd.
  simpl in Hf, Hd. lia.
Qed.

Section Run.

Context (fs0 : gmap (list string) node) (out0 : list message)
        (dry_run : bool).

Lemma accounted_print files dirs msg w :
  is_deleted_file msg = false → is_deleted_dir msg = false →
  accounted fs0 out0 dry_run files dirs w →
  accounted fs0 out0 dry_run files dirs (printed msg w).
Proof.
  intros Hf Hd (new & Hout & Hnf & Hnd & Hfs & Hds & Hdry).
  exists (new ++ [msg]). simpl.
  rewrite count_deleted_files_snoc, count_deleted_dirs_snoc, Hf, Hd, Hout.
  rewrite app_assoc. repeat split; try done; try lia; by apply Hdry.
Qed.

Lemma accounted_file_deleted files dirs (p : Path) (k : list string)
    (x : node) (w w' : World) :
  dry_run = false →
  accounted fs0 out0 dry_run files dirs w →
  w_fs w !! k = Some x → is_dir_node x = false →
  w_fs w' = delete k (w_fs w) → w_out w' = w_out w ++ [MsgDeletedFile p] →
  accounted fs0 out0 dry_run (files ++ [p]) dirs w'.
Proof.
  intros Hdry (new & Hout & Hnf & Hnd & Hfs & Hds & _) Hx Hkind Hfs' Hout'.
  destruct (counts_delete_file _ _ _ Hx Hkind) as [Hcf Hcd].
  exists (new ++ [MsgDeletedFile p]).
  rewrite count_deleted_files_snoc, count_deleted_dirs_snoc, Hout', Hout, Hfs'.
  rewrite length_app, app_assoc. simpl.
  repeat split; try done; try lia. all: intros; congruence.
Qed.

Lemma accounted_dir_deleted files dirs (p : Path) (k : list string)
    (w w' : World) :
  dry_run = false →
  accounted fs0 out0 dry_run files dirs w →
  w_fs w !! k = Some Dir →
  w_fs w' = delete k (w_fs w) → w_out w' = w_out w ++ [MsgDeletedDir p] →
  accounted fs0 out0 dry_run files (dirs ++ [p]) w'.
Proof.
  intros Hdry (new & Hout & Hnf & Hnd & Hfs & Hds & _) Hx Hfs' Hout'.
  destruct (counts_delete_dir _ _ Hx) as [Hcf Hcd].
  exists (new ++ [MsgDeletedDir p]).
  rewrite count_deleted_files_snoc, count_deleted_dirs_snoc, Hout', Hout, Hfs'.
  rewrite length_app, app_assoc. simpl.
  repeat split; try done; try lia. all: intros; congruence.
Qed.

End Run.

(** A run that finds its target: its summary in terms of what it printed
    and removed. *)
Lemma accounted_run (target_dir : string)
    (keep_files keep_dirs : option (list string)) (dry_run : bool) (w : World) :
  fs_exists (w_fs w) (w_cwd w) (parse target_dir) = true →
  ∃ (files dirs : list Path) (wc : World),
    delete_files_except target_dir keep_files keep_dirs dry_run w
    = (Ok tt, printed (MsgSummary (length files) (length dirs)) wc)
    ∧ accounted (w_fs w) (w_out w) dry_run files dirs wc.
Proof.
  intros Hex.
  apply (run_carries target_dir keep_files keep_dirs dry_run
           (λ files w', accounted (w_fs w) (w_out w) dry_run files [] w')
           (λ files dirs w', accounted (w_fs w) (w_out w) dry_run files dirs w'));
    try done.
  - intros root a file w' r Hw' Hr. file_cases Hr; simpl; eexists;
      (split; [reflexivity |]); try done.
    + by apply accounted_print.
    + apply fs_unlink_ok in Hun as (k' & Hloc & Hnd & [x Hx] & ->).
      apply (accounted_file_deleted _ _ _ _ _ _ k' x w'); try done.
      by destruct x.
    + by apply accounted_print.
  - intros f root a d w' r Hw' Hr. dir_cases Hr; simpl; eexists;
      (split; [reflexivity |]); try done.
    + by apply accounted_print.
    + by apply accounted_print.
    + apply fs_rmdir_ok in Hrm as (k' & Hloc & Hdir & _ & ->).
      by apply (accounted_dir_deleted _ _ _ _ _ _ k' w').
    + by apply accounted_print.
  - exists []. rewrite app_nil_r. simpl. repeat split; try done; lia.
Qed.

(** X14.  The summary counts the lines: a run that finds its target ends
    with the summary, and the two numbers in it are the numbers of lines
    the run has printed that report a deleted file and a deleted
    directory; in a dry run both are zero. *)
Theorem summary_counts_the_lines (target_dir : string)
    (keep_files keep_dirs : option (list string)) (dry_run : bool) (w : World) :
  fs_exists (w_fs w) (w_cwd w) (parse target_dir) = true →
  ∃ new : list message,
    w_out (delete_files_except target_dir keep_files keep_dirs dry_run w).2
    = w_out w ++ new
        ++ [MsgSummary (count_deleted_files new) (count_deleted_dirs new)]
    ∧ (dry_run = true
       → count_deleted_files new = 0%nat ∧ count_deleted_dirs new = 0%nat).
Proof.
  intros Hex.
  destruct (accounted_run target_dir keep_files keep_dirs dry_run w Hex)
    as (files & dirs & wc & -> & new & Hout & Hnf & Hnd & _ & _ & Hdry).
  exists new. simpl. rewrite Hout, <- Hnf, <- Hnd, app_assoc.
  split; [done |]. intros Hd. by destruct (Hdry Hd) as [-> ->].
Qed.

Lemma summary_counts_the_lines_witness :
  ∃ new : list message,
    w_out (delete_files_except "/t" keep_A None false (fresh tree_abc)).2
    = w_out (fresh tree_abc) ++ new
        ++ [MsgSummary (count_deleted_files new) (count_deleted_dirs new)]
    ∧ (false = true
       → count_deleted_files new = 0%nat ∧ count_deleted_dirs new = 0%nat).
Proof. apply summary_counts_the_lines. vm_compute. reflexivity. Defined.

(** X15.  The summary counts the entries: the two numbers a run ends with
    are the number of regular files and symbolic links, and the number of
    directories, that the file system has lost in the run. *)
Theorem summary_counts_the_removals (target_dir : string)
    (keep_files keep_dirs : option (list string)) (dry_run : bool) (w : World) :
  fs_exists (w_fs w) (w_cwd w) (parse target_dir) = true →
  ∃ n m : nat,
    last (w_out (delete_files_except target_dir keep_files keep_dirs dry_run
                   w).2)
    = Some (MsgSummary n m)
    ∧ (files_in (w_fs (delete_files_except target_dir keep_files keep_dirs
                         dry_run w).2) + n
       = files_in (w_fs w))%nat
    ∧ (dirs_in (w_fs (delete_files_except target_dir keep_files keep_dirs
                        dry_run w).2) + m
       = dirs_in (w_fs w))%nat.
Proof.
  intros Hex.
  destruct (accounted_run target_dir keep_files keep_dirs dry_run w Hex)
    as (files & dirs & wc & -> & new & Hout & _ & _ & Hfs & Hds & _).
  exists (length files), (length dirs). simpl. by rewrite last_snoc.
Qed.

Lemma summary_counts_the_removals_witness :
  ∃ n m : nat,
    last (w_out (delete_files_except "/t" keep_A None false (fresh tree_abc)).2)
    = Some (MsgSummary n m)
    ∧ (files_in (w_fs (delete_files_except "/t" keep_A None false
                         (fresh tree_abc)).2) + n
       = files_in (w_fs (fresh tree_abc)))%nat
    ∧ (dirs_in (w_fs (delete_files_except "/t" keep_A None false
                        (fresh tree_abc)).2) + m
       = dirs_in (w_fs (fresh tree_abc)))%nat.
Proof. apply summary_counts_the_removals. vm_compute. reflexivity. Defined.

End Accounting.

(* ===================================================================== *)
(** * How a run ends and what it leaves *)
(* ===================================================================== *)

Module RunShape.

Lemma run_ends_with_a_line (target_dir : string)
    (keep_files keep_dirs : option (list string)) (dry_run : bool) (w : World) :
  ∃ (msg : message) (w' : World),
    delete_files_except target_dir keep_files keep_dirs dry_run w
    = (Ok tt, printed msg w')
    ∧ (msg = MsgTargetMissing target_dir
         ∧ fs_exists (w_fs w) (w_cwd w) (parse target_dir) = false
       ∨ (∃ n m, msg = MsgSummary n m)
         ∧ fs_exists (w_fs w) (w_cwd w) (parse target_dir) = true).
Proof.
  destruct (fs_exists (w_fs w) (w_cwd w) (parse target_dir)) eqn:Hex.
  - destruct (run_carries target_dir keep_files keep_dirs dry_run
                (λ _ _, True) (λ _ _ _, True)) with (w := w)
      as (files & dirs & wc & -> & _); try done.
    + intros root a file w' r _ Hr. file_cases Hr; by eexists.
    + intros _ root a d w' r _ Hr. dir_cases Hr; by eexists.
    + do 2 eexists. split; [done |]. right. split; [eauto | done].
  - rewrite Idempotence.delete_files_except_absent by done.
    do 2 eexists. split; [done |]. by left.
Qed.


(** X17.  A run only removes: every entry the file system holds after it
    was there before, with the same content, and the working directory is
    the same.  Nothing is created, renamed or rewritten. *)
Theorem run_only_removes (target_dir : string)
    (keep_files keep_dirs : option (list string)) (dry_run : bool) (w : World) :
  w_fs (delete_files_except target_dir keep_files keep_dirs dry_run w).2
    ⊆ w_fs w
  ∧ w_cwd (delete_files_except target_dir keep_files keep_dirs dry_run w).2
    = w_cwd w.
Proof.
  apply (run_keeps (λ w', w_fs w' ⊆ w_fs w ∧ w_cwd w' = w_cwd w)); try done.
  - intros root a file w' r [Hsub Hcwd] Hr. file_cases Hr; simpl; try done.
    apply fs_unlink_ok in Hun as (k' & _ & _ & _ & ->).
    split; [| done]. etrans; [apply delete_subseteq | done].
  - intros root a d w' r [Hsub Hcwd] Hr. dir_cases Hr; simpl; try done.
    apply fs_rmdir_ok in Hrm as (k' & _ & _ & _ & ->).
    split; [| done]. etrans; [apply delete_subseteq | done].
Qed.

(** X18.  An empty target string passes the existence test, since the
    path it makes is the working directory, but [os.walk] visits nothing
    from it: the run deletes nothing and reports zero files and zero
    directories. *)
Theorem empty_target_visits_nothing
    (keep_files keep_dirs : option (list string)) (dry_run : bool) (w : World) :
  delete_files_except "" keep_files keep_dirs dry_run w
  = (Ok tt, printed (MsgSummary 0 0) (called (SysExists (parse "")) w)).
Proof.
  apply (Idempotence.delete_files_except_present "" keep_files keep_dirs
           dry_run w (called (SysExists (parse "")) w)
           (called (SysExists (parse "")) w) [] []); [| done | done].
  unfold fs_exists, locate. simpl. by rewrite walk_path_nil.
Qed.

End RunShape.

Module Completeness.

Section Left.

Context (target_dir : string) (keep_files keep_dirs : option (list string))
        (w : World) (K0 : list string).

Hypothesis Hnl : no_links (w_fs w).
Hypothesis Hv : valid_names (w_fs w).
Hypothesis Hne : target_dir ≠ "".
Hypothesis HK0 : locate (w_fs w) (w_cwd w) (parse target_dir) = Ok K0.

Lemma run_leaves_settled :
  locate (w_fs (delete_files_except target_dir keep_files keep_dirs false w).2)
    (w_cwd w) (parse target_dir) = Ok K0 →
  files_ok (w_fs w) (w_cwd w) target_dir (parse target_dir)
    (default [] keep_files) (default [] keep_dirs) K0
    (w_fs (delete_files_except target_dir keep_files keep_dirs false w).2) []
  ∧ dirs_ok (w_fs w) (w_cwd w) target_dir (parse target_dir)
      (default [] keep_dirs) K0
      (w_fs (delete_files_except target_dir keep_files keep_dirs false w).2) [].
Proof.
  assert (Hex : fs_exists (w_fs w) (w_cwd w) (parse target_dir) = true).
  { unfold fs_exists. by rewrite HK0. }
  destruct (Idempotence.run_settles (w_fs w) (w_cwd w) target_dir
              (parse target_dir) (default [] keep_files) (default [] keep_dirs)
              K0 Hnl Hv eq_refl HK0 (called (SysExists (parse target_dir)) w))
    as (files & dirs & wb & wc & Hrun1 & Hrun2 & _ & Hset); [done | done |].
  rewrite (Idempotence.delete_files_except_present _ _ _ _ w _ _ _ _
             Hex Hrun1 Hrun2).
  cbn [snd]. exact Hset.
Qed.

End Left.





End Completeness.

(* ===================================================================== *)
(** * What a dry run lists *)
(* ===================================================================== *)

Module Preview.

(** A loop whose steps leave the accumulator alone: what it prints, as a
    set, is what its steps print. *)
Lemma for_each_out {A B} (I : World → Prop) (Q : B → message → Prop)
    (body : A → B → M A) (xs : list B) :
  (∀ a x w, x ∈ xs → I w →
     ∃ new w', body a x w = (Ok a, w') ∧ I w' ∧ w_out w' = w_out w ++ new
               ∧ ∀ m, m ∈ new ↔ Q x m) →
  ∀ acc w, I w →
    ∃ new w', for_each xs body acc w = (Ok acc, w') ∧ I w'
              ∧ w_out w' = w_out w ++ new
              ∧ ∀ m, m ∈ new ↔ ∃ x, x ∈ xs ∧ Q x m.
Proof.
  intros Hbody. induction xs as [|x xs IH]; intros acc w Hw; simpl.
  - exists [], w. rewrite app_nil_r. do 3 (split; [done |]).
    intros m. split; [by intros ?%elem_of_nil |].
    by intros (x & ?%elem_of_nil & _).
  - destruct (Hbody acc x w) as (new1 & w1 & Hrun1 & Hw1 & Hout1 & Hnew1);
      [by left | done |].
    rewrite (bind_ok _ _ _ _ _ Hrun1).
    destruct (IH (λ a y w' Hy, Hbody a y w' (list_elem_of_further _ _ _ Hy))
                acc w1 Hw1) as (new2 & w2 & Hrun2 & Hw2 & Hout2 & Hnew2).
    exists (new1 ++ new2), w2. split; [done |]. split; [done |].
    split; [by rewrite Hout2, Hout1, app_assoc |].
    intros m. rewrite elem_of_app, Hnew1, Hnew2. split.
    + intros [HQ | (y & Hy & HQ)].
      * exists x. split; [left | done].
      * exists y. split; [by right | done].
    + intros (y & [-> | Hy]%elem_of_cons & HQ); [by left |].
      right. by exists y.
Qed.

Lemma reach_cons (fs : gmap (list string) node) (K : list string)
    (m : string) (rel : list string) :
  is_dir_key fs K = true → reach fs (K ++ [m]) rel → reach fs K (m :: rel).
Proof.
  intros HK Hr i Hi. destruct i as [|i].
  - by rewrite take_0, app_nil_r.
  - simpl in *.
    replace (K ++ m :: take i rel) with ((K ++ [m]) ++ take i rel)
      by (by rewrite <- app_assoc).
    apply Hr. lia.
Qed.

Section Walk.

Context (fs0 : gmap (list string) node) (cwd : list string)
        (target_dir : string) (T : Path) (K0 : list string).

Hypothesis Hnl : no_links fs0.
Hypothesis Hv : valid_names fs0.
Hypothesis HT : locate fs0 cwd T = Ok K0.

Local Abbreviation valid_all := (Forall (λ n : string, valid_name n = true)).
Local Abbreviation holds := (holds cwd fs0).

Context (body : list Path → Path → list string → list string → M (list Path))
        (Here : list string → message → Prop).

(** What the body prints for the directory [names], and that it only
    prints about entries of that directory. *)
Hypothesis Hbody : ∀ names acc w l,
  holds w → valid_all names →
  locate fs0 cwd (path_at T names) = Ok (K0 ++ names) →
  fs_scandir fs0 cwd (path_at T names) = Ok l →
  ∃ new w', body acc (path_at T names) (dirs l) (nondirs l) w = (Ok acc, w')
            ∧ holds w' ∧ w_out w' = w_out w ++ new
            ∧ ∀ m, m ∈ new ↔ Here names m.
Hypothesis Hentry : ∀ names m,
  Here names m → ∃ n, is_Some (fs0 !! (K0 ++ names ++ [n])).

(** A walk that leaves the file system alone prints, for every directory
    that can be reached, what the body prints for it, and nothing else. *)
Lemma still_walk (depth : nat) :
  ∀ (names : list string) (acc : list Path) (w : World),
    holds w → valid_all names →
    locate fs0 cwd (path_at T names) = Ok (K0 ++ names) →
    (fs_height fs0 < depth + length (K0 ++ names))%nat →
    ∃ new w',
      walk_from depth (path_at T names) body acc w = (Ok acc, w')
      ∧ holds w' ∧ w_out w' = w_out w ++ new
      ∧ ∀ m, m ∈ new
             ↔ ∃ rel, reach fs0 (K0 ++ names) rel ∧ Here (names ++ rel) m.
Proof.
  induction depth as [|d IH]; intros names acc w Hw Hnames Hloc Hfuel.
  { exists [], w. rewrite app_nil_r. do 3 (split; [done |]).
    intros m. split; [by intros ?%elem_of_nil |].
    intros (rel & _ & Hm). exfalso.
    destruct (Hentry _ _ Hm) as (n & Hn).
    pose proof (Idempotence.height_le_fs_height fs0 _ Hn) as Hle.
    rewrite !length_app in *. simpl in *. lia. }
  rewrite Idempotence.walk_from_S,
    (bind_ok _ _ _ _ _ (Idempotence.read_dir_run _ _)).
  destruct Hw as [Hcwd Hfs]. rewrite Hcwd, Hfs.
  assert (Hw1 : holds (called (SysScandir (path_at T names)) w)) by done.
  destruct (fs_scandir fs0 cwd (path_at T names)) as [l|e] eqn:Hscan.
  2:{ exists [], (called (SysScandir (path_at T names)) w).
      rewrite app_nil_r. do 3 (split; [done |]).
      intros m. split; [by intros ?%elem_of_nil |].
      intros (rel & Hreach & _). exfalso.
      pose proof (fs_scandir_fails _ _ _ _ _ Hscan Hloc) as Hnd.
      pose proof (Idempotence.reach_here _ _ _ Hreach). congruence. }
  destruct (fs_scandir_plain _ _ _ _ Hnl Hv Hscan)
    as (K & HlocK & HdK & _ & _ & _ & _ & Hwalk & _).
  assert (K = K0 ++ names) as -> by congruence.
  destruct (for_each_out holds
              (λ (c : string) (m : message),
                 ∃ rel, reach fs0 (K0 ++ names ++ [c]) rel
                        ∧ Here (names ++ c :: rel) m)
              (λ (acc : list Path) (n : string),
                 walk_from d (joinpath (path_at T names) (parse n)) body acc)
              (walk_dirs l)) with (acc := acc)
              (w := called (SysScandir (path_at T names)) w)
    as (new1 & w1 & Hrun1 & Hw1' & Hout1 & Hnew1); [| done |].
  { intros a c w' Hc Hw'.
    apply Hwalk in Hc.
    assert (Hvc : valid_name c = true).
    { apply (valid_names_entry fs0 (K0 ++ names) c Hv). by rewrite Hc. }
    rewrite <- app_assoc in Hc.
    rewrite (Idempotence.path_at_join _ _ _ Hvc).
    destruct (IH (names ++ [c]) a w' Hw'
                (Idempotence.valid_all_snoc _ _ Hnames Hvc))
      as (new & w'' & Hrun & Hw'' & Hout & Hnew).
    - by apply (Idempotence.locate_at_child fs0 cwd T K0 Hnl fs0 names c Dir).
    - rewrite !length_app in *. simpl. lia.
    - exists new, w''. do 3 (split; [done |]).
      intros m. rewrite Hnew. split; intros (rel & Hreach & Hm); exists rel.
      + split; [done |]. by rewrite <- app_assoc in Hm.
      + split; [done |]. by rewrite <- app_assoc. }
  rewrite (bind_ok _ _ _ _ _ Hrun1).
  destruct (Hbody names acc w1 l Hw1' Hnames Hloc Hscan)
    as (new2 & w2 & Hrun2 & Hw2 & Hout2 & Hnew2).
  exists (new1 ++ new2), w2. split; [done |]. split; [done |].
  split; [by rewrite Hout2, Hout1, app_assoc |].
  intros m. rewrite elem_of_app, Hnew1, Hnew2. split.
  - intros [(c & Hc & rel & Hreach & Hm) | Hm].
    + exists (c :: rel). split; [| done].
      apply reach_cons; [done | by rewrite <- app_assoc].
    + exists []. rewrite app_nil_r. split; [| done].
      by apply Idempotence.reach_nil.
  - intros ([|c rel] & Hreach & Hm).
    + right. by rewrite app_nil_r in Hm.
    + left. exists c. split.
      * apply Hwalk, Idempotence.is_dir_key_Dir.
        apply Idempotence.reach_tail in Hreach.
        by apply Idempotence.reach_here in Hreach.
      * exists rel. split; [| done].
        apply Idempotence.reach_tail in Hreach. by rewrite <- app_assoc in Hreach.
Qed.

End Walk.

Section Passes.

Context (fs0 : gmap (list string) node) (cwd : list string)
        (target_dir : string) (T : Path) (keep_files keep_dirs : list string)
        (K0 : list string).

Hypothesis Hnl : no_links fs0.
Hypothesis Hv : valid_names fs0.
Hypothesis HT : locate fs0 cwd T = Ok K0.

Local Abbreviation valid_all := (Forall (λ n : string, valid_name n = true)).
Local Abbreviation holds := (holds cwd fs0).

Local Abbreviation files_here :=
  (files_here fs0 cwd target_dir T keep_files keep_dirs K0 MsgDryRunFile).
Local Abbreviation dirs_here := (dirs_here fs0 cwd target_dir T keep_dirs K0).

Lemma dry_file_pass_out (names : list string) (acc : list Path) (w : World)
    (l : listing) :
  holds w → valid_all names →
  locate fs0 cwd (path_at T names) = Ok (K0 ++ names) →
  fs_scandir fs0 cwd (path_at T names) = Ok l →
  ∃ new w',
    file_pass target_dir keep_files keep_dirs true acc (path_at T names)
      (dirs l) (nondirs l) w = (Ok acc, w')
    ∧ holds w' ∧ w_out w' = w_out w ++ new
    ∧ ∀ m, m ∈ new ↔ files_here names m.
Proof.
  intros Hw Hnames Hloc Hscan.
  destruct (fs_scandir_plain _ _ _ _ Hnl Hv Hscan)
    as (K & HlocK & HdK & _ & _ & _ & _ & _ & Hfiles).
  assert (K = K0 ++ names) as -> by congruence.
  unfold file_pass.
  destruct (for_each_out holds
              (λ (n : string) (m : message),
                 m = MsgDryRunFile (path_at T (names ++ [n]))
                 ∧ kept fs0 cwd (path_at T (names ++ [n])) keep_files keep_dirs
                     (Some target_dir) = false)
              (file_step target_dir keep_files keep_dirs true (path_at T names))
              (nondirs l)) with (acc := acc) (w := w)
    as (new & w' & Hrun & Hw' & Hout & Hnew); [| done |].
  { intros a n w1 Hn [Hcwd Hfs].
    apply Hfiles in Hn as [c Hc].
    assert (Hvn : valid_name n = true).
    { apply (valid_names_entry fs0 (K0 ++ names) n Hv). by rewrite Hc. }
    pose proof (file_step_run target_dir keep_files keep_dirs true
                  (path_at T names) a n w1) as Hr.
    remember (file_step target_dir keep_files keep_dirs true (path_at T names)
                a n w1) as r eqn:Hrun.
    file_cases Hr; try discriminate Hdry;
      rewrite (Idempotence.path_at_join _ _ _ Hvn), ?Hcwd, ?Hfs in *.
    - exists [], (add_calls cs w1). rewrite app_nil_r.
      do 3 (split; [done |]). intros m. split; [by intros ?%elem_of_nil |].
      intros [_ Hk]. congruence.
    - exists [MsgDryRunFile (path_at T (names ++ [n]))],
        (printed (MsgDryRunFile (path_at T (names ++ [n]))) (add_calls cs w1)).
      do 3 (split; [done |]). intros m. rewrite list_elem_of_singleton.
      split; [by intros -> | by intros [-> _]]. }
  exists new, w'. do 3 (split; [done |]).
  intros m. rewrite Hnew. split.
  - intros (n & Hn & -> & Hk). apply Hfiles in Hn as [c Hc].
    exists n, c. by rewrite <- app_assoc in Hc.
  - intros (n & c & Hc & -> & Hk). exists n. split; [| done].
    apply Hfiles. exists c. by rewrite <- app_assoc.
Qed.

Lemma dry_dir_pass_out (names : list string) (acc : list Path) (w : World)
    (l : listing) :
  holds w → valid_all names →
  locate fs0 cwd (path_at T names) = Ok (K0 ++ names) →
  fs_scandir fs0 cwd (path_at T names) = Ok l →
  ∃ new w',
    dir_pass target_dir keep_dirs true acc (path_at T names)
      (dirs l) (nondirs l) w = (Ok acc, w')
    ∧ holds w' ∧ w_out w' = w_out w ++ new
    ∧ ∀ m, m ∈ new ↔ dirs_here names m.
Proof.
  intros Hw Hnames Hloc Hscan.
  destruct (fs_scandir_plain _ _ _ _ Hnl Hv Hscan)
    as (K & HlocK & HdK & _ & _ & _ & Hdirs & _ & _).
  assert (K = K0 ++ names) as -> by congruence.
  unfold dir_pass.
  destruct (for_each_out holds
              (λ (n : string) (m : message),
                 m = MsgDryRunDir (path_at T (names ++ [n]))
                 ∧ children fs0 (K0 ++ names ++ [n]) = []
                 ∧ kept fs0 cwd (path_at T (names ++ [n])) [] keep_dirs
                     (Some target_dir) = false)
              (dir_step target_dir keep_dirs true (path_at T names))
              (dirs l)) with (acc := acc) (w := w)
    as (new & w' & Hrun & Hw' & Hout & Hnew); [| done |].
  { intros a dn w1 Hn [Hcwd Hfs].
    apply Hdirs in Hn. rename Hn into Hc.
    assert (Hvn : valid_name dn = true).
    { apply (valid_names_entry fs0 (K0 ++ names) dn Hv). by rewrite Hc. }
    assert (Hlist : fs_listdir fs0 cwd (path_at T (names ++ [dn]))
                  = Ok (children fs0 (K0 ++ names ++ [dn]))).
    { apply (Idempotence.fs_listdir_at cwd T K0 fs0 (names ++ [dn])).
      - apply (Idempotence.locate_at_child fs0 cwd T K0 Hnl fs0 names dn Dir);
          try done. by rewrite <- app_assoc in Hc.
      - rewrite app_assoc. by apply Idempotence.is_dir_key_Dir. }
    pose proof (dir_step_run target_dir keep_dirs true
                  (path_at T names) a dn w1) as Hr.
    remember (dir_step target_dir keep_dirs true (path_at T names)
                a dn w1) as r eqn:Hrun.
    dir_cases Hr; try discriminate Hdry;
      rewrite (Idempotence.path_at_join _ _ _ Hvn), ?Hcwd, ?Hfs in *.
    - exists [], (add_calls cs w1). rewrite app_nil_r.
      do 3 (split; [done |]). intros m. split; [by intros ?%elem_of_nil |].
      intros (_ & _ & Hk). congruence.
    - congruence.
    - exists [], (called (SysIterdir (path_at T (names ++ [dn])))
                    (add_calls cs w1)).
      rewrite app_nil_r.
      do 3 (split; [done |]). intros m. split; [by intros ?%elem_of_nil |].
      intros (_ & Hch & _). congruence.
    - exists [MsgDryRunDir (path_at T (names ++ [dn]))],
        (printed (MsgDryRunDir (path_at T (names ++ [dn])))
           (called (SysIterdir (path_at T (names ++ [dn]))) (add_calls cs w1))).
      do 3 (split; [done |]). intros m. rewrite list_elem_of_singleton.
      split; [| by intros [-> _]].
      intros ->. split; [done |]. split; [congruence | done]. }
  exists new, w'. do 3 (split; [done |]).
  intros m. rewrite Hnew. split.
  - intros (n & Hn & -> & Hch & Hk). apply Hdirs in Hn.
    exists n. by rewrite <- app_assoc in Hn.
  - intros (n & Hc & -> & Hch & Hk). exists n. split; [| done].
    apply Hdirs. by rewrite <- app_assoc.
Qed.

End Passes.


(** The output of a dry run on a file system without links. *)
Lemma dry_run_output (target_dir : string)
    (keep_files keep_dirs : option (list string)) (w : World)
    (K0 : list string) :
  no_links (w_fs w) → valid_names (w_fs w) → target_dir ≠ "" →
  locate (w_fs w) (w_cwd w) (parse target_dir) = Ok K0 →
  ∃ new1 new2 : list message,
    w_out (delete_files_except target_dir keep_files keep_dirs true w).2
    = w_out w ++ new1 ++ new2 ++ [MsgSummary 0 0]
    ∧ (∀ m, m ∈ new1
            ↔ ∃ p, m = MsgDryRunFile p
                   ∧ unkept_file (w_fs w) (w_cwd w) target_dir
                       (default [] keep_files) (default [] keep_dirs) K0 p)
    ∧ (∀ m, m ∈ new2
            ↔ ∃ p, m = MsgDryRunDir p
                   ∧ unkept_empty_dir (w_fs w) (w_cwd w) target_dir
                       (default [] keep_dirs) K0 p).
Proof.
  intros Hnl Hv Hne HK0.
  set (T := parse target_dir) in *. set (fs0 := w_fs w) in *.
  set (cwd := w_cwd w) in *.
  assert (HT0 : path_at T [] = T).
  { unfold path_at. rewrite app_nil_r. by destruct T. }
  assert (Hex : fs_exists fs0 cwd T = true).
  { unfold fs_exists. by rewrite HK0. }
  assert (Hfuel : ∀ fs, (fs_height fs < S (fs_height fs) + length (K0 ++ []))%nat)
    by (intros; lia).
  destruct (still_walk fs0 cwd T K0 Hnl Hv
              (file_pass target_dir (default [] keep_files)
                 (default [] keep_dirs) true)
              (files_here fs0 cwd target_dir T (default [] keep_files)
                 (default [] keep_dirs) K0 MsgDryRunFile)
              (dry_file_pass_out fs0 cwd target_dir T _ _ K0 Hnl Hv)
              (λ names m '(ex_intro _ n (ex_intro _ c (conj Hc _))),
                 ex_intro _ n (mk_is_Some _ _ Hc))
              (S (fs_height fs0)) [] [] (called (SysExists T) w))
    as (new1 & w1 & Hrun1 & [Hcwd1 Hfs1] & Hout1 & Hnew1);
    [done | done | by rewrite HT0, app_nil_r | apply Hfuel |].
  destruct (still_walk fs0 cwd T K0 Hnl Hv
              (dir_pass target_dir (default [] keep_dirs) true)
              (dirs_here fs0 cwd target_dir T (default [] keep_dirs) K0)
              (dry_dir_pass_out fs0 cwd target_dir T _ K0 Hnl Hv)
              (λ names m '(ex_intro _ n (conj Hc _)),
                 ex_intro _ n (mk_is_Some _ _ Hc))
              (S (fs_height fs0)) [] [] w1)
    as (new2 & w2 & Hrun2 & Hw2 & Hout2 & Hnew2);
    [done | done | by rewrite HT0, app_nil_r | apply Hfuel |].
  rewrite HT0 in Hrun1, Hrun2.
  rewrite (Idempotence.delete_files_except_present target_dir keep_files
             keep_dirs true w w1 w2 [] [] Hex).
  - exists new1, new2. cbn [snd printed w_out length].
    rewrite Hout2, Hout1. cbn [called w_out]. rewrite <- !app_assoc.
    split; [done |]. split.
    + intros m. rewrite Hnew1. rewrite app_nil_r. split.
      * intros (rel & Hreach & n & c & Hc & -> & Hk).
        exists (path_at T (rel ++ [n])). split; [done |]. by exists rel, n, c.
      * intros (p & -> & rel & n & c & -> & Hreach & Hc & Hk).
        exists rel. split; [done |]. by exists n, c.
    + intros m. rewrite Hnew2. rewrite app_nil_r. split.
      * intros (rel & Hreach & n & Hc & -> & Hch & Hk).
        exists (path_at T (rel ++ [n])). split; [done |]. by exists rel, n.
      * intros (p & -> & rel & n & -> & Hreach & Hc & Hch & Hk).
        exists rel. split; [done |]. by exists n.
  - unfold os_walk. destruct (decide (target_dir = "")); [done |].
    cbn [called w_fs]. exact Hrun1.
  - unfold os_walk. destruct (decide (target_dir = "")); [done |].
    rewrite Hfs1. exact Hrun2.
Qed.

(** X21.  The file lines of a dry run are exact: on a file system without
    symbolic links, a dry run prints a candidate line for a path exactly
    when the path is that of a regular file reachable through directories
    below the target that the retention predicate does not keep. *)
Theorem dry_run_lists_the_unkept_files (target_dir : string)
    (keep_files keep_dirs : option (list string)) (w : World)
    (K0 : list string) :
  no_links (w_fs w) → valid_names (w_fs w) → target_dir ≠ "" →
  locate (w_fs w) (w_cwd w) (parse target_dir) = Ok K0 →
  ∃ new : list message,
    w_out (delete_files_except target_dir keep_files keep_dirs true w).2
    = w_out w ++ new
    ∧ ∀ p : Path,
        MsgDryRunFile p ∈ new
        ↔ unkept_file (w_fs w) (w_cwd w) target_dir
            (default [] keep_files) (default [] keep_dirs) K0 p.
Proof.
  intros Hnl Hv Hne HK0.
  destruct (dry_run_output target_dir keep_files keep_dirs w K0 Hnl Hv Hne HK0)
    as (new1 & new2 & Hout & Hnew1 & Hnew2).
  exists (new1 ++ new2 ++ [MsgSummary 0 0]). split; [done |].
  intros p. rewrite !elem_of_app, Hnew1, Hnew2, list_elem_of_singleton. split.
  - intros [(q & [= <-] & Hq) | [(q & Hq & _) | Hq]]; done.
  - intros Hp. left. by exists p.
Qed.

Lemma dry_run_lists_the_unkept_files_witness :
  ∃ new : list message,
    w_out (delete_files_except "/t" keep_A None true (fresh tree_abc)).2
    = w_out (fresh tree_abc) ++ new
    ∧ ∀ p : Path,
        MsgDryRunFile p ∈ new
        ↔ unkept_file (w_fs (fresh tree_abc)) (w_cwd (fresh tree_abc)) "/t"
            (default [] keep_A) (default [] None) ["t"] p.
Proof.
  apply dry_run_lists_the_unkept_files.
  - apply no_links_list. vm_compute. reflexivity.
  - apply Confinement.valid_names_list. vm_compute. reflexivity.
  - discriminate.
  - vm_compute. reflexivity.
Defined.

(** X22.  The directory lines of a dry run show the empty directories of
    the tree as it is: on a file system without symbolic links, a dry run
    prints a candidate line for a directory exactly when the directory is
    reachable below the target, has no entry at all and is not kept by a
    keep-directory entry.  A directory that would only become empty once
    its files are deleted is therefore not listed. *)
Theorem dry_run_lists_the_empty_dirs (target_dir : string)
    (keep_files keep_dirs : option (list string)) (w : World)
    (K0 : list string) :
  no_links (w_fs w) → valid_names (w_fs w) → target_dir ≠ "" →
  locate (w_fs w) (w_cwd w) (parse target_dir) = Ok K0 →
  ∃ new : list message,
    w_out (delete_files_except target_dir keep_files keep_dirs true w).2
    = w_out w ++ new
    ∧ ∀ p : Path,
        MsgDryRunDir p ∈ new
        ↔ unkept_empty_dir (w_fs w) (w_cwd w) target_dir
            (default [] keep_dirs) K0 p.
Proof.
  intros Hnl Hv Hne HK0.
  destruct (dry_run_output target_dir keep_files keep_dirs w K0 Hnl Hv Hne HK0)
    as (new1 & new2 & Hout & Hnew1 & Hnew2).
  exists (new1 ++ new2 ++ [MsgSummary 0 0]). split; [done |].
  intros p. rewrite !elem_of_app, Hnew1, Hnew2, list_elem_of_singleton. split.
  - intros [(q & Hq & _) | [(q & [= <-] & Hq) | Hq]]; done.
  - intros Hp. right. left. by exists p.
Qed.

Lemma dry_run_lists_the_empty_dirs_witness :
  ∃ new : list message,
    w_out (delete_files_except "/t" None None true (fresh tree_empty_sub)).2
    = w_out (fresh tree_empty_sub) ++ new
    ∧ ∀ p : Path,
        MsgDryRunDir p ∈ new
        ↔ unkept_empty_dir (w_fs (fresh tree_empty_sub))
            (w_cwd (fresh tree_empty_sub)) "/t" (default [] None) ["t"] p.
Proof.
  apply dry_run_lists_the_empty_dirs.
  - apply no_links_list. vm_compute. reflexivity.
  - apply Confinement.valid_names_list. vm_compute. reflexivity.
  - discriminate.
  - vm_compute. reflexivity.
Defined.

End Preview.

(* ===================================================================== *)
(** * What a deleting run deletes *)
(* ===================================================================== *)

Module Deleted.

(** A loop over distinct elements, with what holds after the elements
    gone through so far: what it prints, as a set, is what its steps
    print. *)
Lemma for_each_out_ix {A B} (I : list B → World → Prop)
    (Q : B → message → Prop) (body : A → B → M A) (xs : list B) :
  (∀ pre x post a w, xs = pre ++ x :: post → I pre w →
     ∃ new a' w', body a x w = (Ok a', w') ∧ I (pre ++ [x]) w'
                  ∧ w_out w' = w_out w ++ new
                  ∧ ∀ m, m ∈ new ↔ Q x m) →
  ∀ acc w, I [] w →
    ∃ new a' w', for_each xs body acc w = (Ok a', w') ∧ I xs w'
                 ∧ w_out w' = w_out w ++ new
                 ∧ ∀ m, m ∈ new ↔ ∃ x, x ∈ xs ∧ Q x m.
Proof.
  intros Hbody.
  assert (Hgen : ∀ post pre acc w, xs = pre ++ post → I pre w →
            ∃ new a' w', for_each post body acc w = (Ok a', w') ∧ I xs w'
                         ∧ w_out w' = w_out w ++ new
                         ∧ ∀ m, m ∈ new ↔ ∃ x, x ∈ post ∧ Q x m).
  { induction post as [|x post IH]; intros pre acc w Hxs Hw; simpl.
    - exists [], acc, w. rewrite app_nil_r in *. subst pre.
      do 3 (split; [done |]).
      intros m. split; [by intros ?%elem_of_nil |].
      by intros (x & ?%elem_of_nil & _).
    - destruct (Hbody pre x post acc w Hxs Hw)
        as (new1 & a1 & w1 & Hrun1 & Hw1 & Hout1 & Hnew1).
      rewrite (bind_ok _ _ _ _ _ Hrun1).
      destruct (IH (pre ++ [x]) a1 w1) as (new2 & a2 & w2 & Hrun2 & Hw2 & Hout2 & Hnew2);
        [by rewrite <- app_assoc | done |].
      exists (new1 ++ new2), a2, w2. split; [done |]. split; [done |].
      split; [by rewrite Hout2, Hout1, app_assoc |].
      intros m. rewrite elem_of_app, Hnew1, Hnew2. split.
      + intros [HQ | (y & Hy & HQ)].
        * exists x. split; [left | done].
        * exists y. split; [by right | done].
      + intros (y & [-> | Hy]%elem_of_cons & HQ); [by left |].
        right. by exists y. }
  intros acc w Hw. by apply (Hgen xs []).
Qed.

Lemma NoDup_middle {B} (pre post : list B) (x : B) :
  NoDup (pre ++ x :: post) → x ∉ pre.
Proof.
  intros Hnd Hx. apply NoDup_app in Hnd as (_ & Hdisj & _).
  apply (Hdisj x Hx). left.
Qed.

(** A directory of [fs0] is one in every tidy world. *)
Lemma tidy_is_dir (fs0 : gmap (list string) node) (cwd : list string)
    (w : World) (k : list string) :
  tidy fs0 cwd w → is_dir_key fs0 k = true → is_dir_key (w_fs w) k = true.
Proof.
  intros (_ & _ & Hdirs). unfold is_dir_key, node_at.
  destruct k as [|a k]; [done |].
  destruct (fs0 !! (a :: k)) as [[| |]|] eqn:Hk; try done.
  by rewrite (Hdirs _ Hk).
Qed.

(** A path that leads to a directory leads there through directories. *)
Lemma walk_path_from_dir (fs : gmap (list string) node) (l : nat)
    (cur comps k : list string) :
  walk_path l fs cur comps = Ok k → is_dir_key fs k = true →
  is_dir_key fs cur = true.
Proof.
  destruct comps as [|c rest].
  - rewrite walk_path_nil. by intros [= ->].
  - rewrite walk_path_cons. by destruct (is_dir_key fs cur).
Qed.

Lemma walk_path_tidy (fs0 : gmap (list string) node) (cwd : list string)
    (w : World) (l : nat) (cur comps k : list string) :
  no_links fs0 → tidy fs0 cwd w →
  walk_path l fs0 cur comps = Ok k → is_dir_key fs0 k = true →
  walk_path l (w_fs w) cur comps = Ok k.
Proof.
  intros Hnl Hw. revert cur. induction comps as [|c rest IH]; intros cur.
  - by rewrite !walk_path_nil.
  - intros Hwalk Hk.
    pose proof (walk_path_from_dir _ _ _ _ _ Hwalk Hk) as Hcur.
    rewrite walk_path_cons in *.
    rewrite (tidy_is_dir _ _ _ _ Hw Hcur). rewrite Hcur in Hwalk. simpl in *.
    destruct (decide (c = "..")); [by apply IH |].
    destruct (fs0 !! (cur ++ [c])) as [x|] eqn:Hx; [| done].
    pose proof (Hnl _ _ Hx) as Hlink.
    assert (Hnext : walk_path l fs0 (cur ++ [c]) rest = Ok k)
      by (by destruct x).
    pose proof (walk_path_from_dir _ _ _ _ _ Hnext Hk) as Hd.
    apply Idempotence.is_dir_key_Dir in Hd.
    destruct Hw as (_ & _ & Hdirs). rewrite (Hdirs _ Hd).
    apply IH; [done | done].
Qed.

Lemma at_or_below_child (K : list string) (c x : string)
    (rest : list string) :
  at_or_below (K ++ [c]) (K ++ [x] ++ rest) → c = x.
Proof.
  intros [r Hr]. rewrite <- app_assoc in Hr.
  apply app_inv_head in Hr. simpl in Hr. by injection Hr.
Qed.

Section Walk.

Context (fs0 : gmap (list string) node) (cwd : list string)
        (target_dir : string) (T : Path) (keep_files keep_dirs : list string)
        (K0 : list string).

Hypothesis Hnl : no_links fs0.
Hypothesis Hv : valid_names fs0.
Hypothesis HT : locate fs0 cwd T = Ok K0.

Local Abbreviation valid_all := (Forall (λ n : string, valid_name n = true)).
Local Abbreviation tidy := (tidy fs0 cwd).
Local Abbreviation files_here :=
  (files_here fs0 cwd target_dir T keep_files keep_dirs K0 MsgDeletedFile).

Lemma tidy_called (c : syscall) (w : World) : tidy w → tidy (called c w).
Proof. done. Qed.

(** One step of the deleting file pass on a regular file that is still
    there: it is deleted, and reported, exactly when it is not kept. *)
Lemma real_file_step (names : list string) (n : string) (c : content)
    (acc : list Path) (w : World) :
  tidy w → valid_all names → valid_name n = true →
  locate fs0 cwd (path_at T names) = Ok (K0 ++ names) →
  is_dir_key fs0 (K0 ++ names) = true →
  w_fs w !! (K0 ++ names ++ [n]) = Some (File c) →
  ∃ new acc' w',
    file_step target_dir keep_files keep_dirs false (path_at T names) acc n w
    = (Ok acc', w')
    ∧ tidy w'
    ∧ (∀ k, k ≠ K0 ++ names ++ [n] → w_fs w' !! k = w_fs w !! k)
    ∧ w_out w' = w_out w ++ new
    ∧ ∀ m, m ∈ new
           ↔ m = MsgDeletedFile (path_at T (names ++ [n]))
             ∧ kept fs0 cwd (path_at T (names ++ [n])) keep_files keep_dirs
                 (Some target_dir) = false.
Proof.
  intros Hw Hnames Hvn Hloc HdK Hx.
  pose proof Hw as (Hcwd & Hsub & Hdirs).
  assert (Hsame : kept (w_fs w) (w_cwd w) (path_at T (names ++ [n]))
                    keep_files keep_dirs (Some target_dir)
                  = kept fs0 cwd (path_at T (names ++ [n])) keep_files
                      keep_dirs (Some target_dir)).
  { rewrite Hcwd. apply kept_plain; [by eapply no_links_weaken | done]. }
  assert (Hunl : fs_unlink (w_fs w) (w_cwd w) (path_at T (names ++ [n]))
                = Ok (delete (K0 ++ names ++ [n]) (w_fs w))).
  { rewrite Hcwd. apply (Idempotence.fs_unlink_at cwd T K0 _ names n c).
    - exact Hvn.
    - exact (walk_path_tidy fs0 cwd w _ _ _ _ Hnl Hw Hloc HdK).
    - exact (tidy_is_dir fs0 cwd w _ Hw HdK).
    - exact Hx. }
  pose proof (file_step_run target_dir keep_files keep_dirs false
                (path_at T names) acc n w) as Hr.
  remember (file_step target_dir keep_files keep_dirs false (path_at T names)
              acc n w) as r eqn:Hrun.
  file_cases Hr; try discriminate Hdry;
    rewrite (Idempotence.path_at_join _ _ _ Hvn) in *.
  - exists [], acc, (add_calls cs w). rewrite app_nil_r.
    do 4 (split; [done |]). intros m. split; [by intros ?%elem_of_nil |].
    intros [_ Hk]. congruence.
  - rewrite Hunl in Hun. injection Hun as <-.
    exists [MsgDeletedFile (path_at T (names ++ [n]))]. do 2 eexists.
    split; [reflexivity |]. split.
    { split; [done |]. split.
      - simpl. etrans; [apply delete_subseteq | done].
      - intros k Hk. simpl. rewrite lookup_delete_ne; [by apply Hdirs |].
        intros <-. pose proof (lookup_weaken _ _ _ _ Hx Hsub). congruence. }
    split; [intros k Hk; simpl; by rewrite lookup_delete_ne |].
    split; [done |]. intros m. rewrite list_elem_of_singleton.
    split; [| by intros [-> _]]. intros ->. split; [done | congruence].
  - congruence.
Qed.

(** The deleting file pass, from the directory [names] whose sub-tree is
    still as in [fs0]: it reports as deleted the regular files that can be
    reached from there and are not kept, and touches nothing else. *)
Lemma real_file_walk (depth : nat) :
  ∀ (names : list string) (acc : list Path) (w : World),
    tidy w →
    (∀ rest, w_fs w !! (K0 ++ names ++ rest) = fs0 !! (K0 ++ names ++ rest)) →
    valid_all names →
    locate fs0 cwd (path_at T names) = Ok (K0 ++ names) →
    (fs_height fs0 < depth + length (K0 ++ names))%nat →
    ∃ new acc' w',
      walk_from depth (path_at T names)
        (file_pass target_dir keep_files keep_dirs false) acc w = (Ok acc', w')
      ∧ tidy w'
      ∧ (∀ k, ¬ at_or_below (K0 ++ names) k → w_fs w' !! k = w_fs w !! k)
      ∧ w_out w' = w_out w ++ new
      ∧ ∀ m, m ∈ new
             ↔ ∃ rel, reach fs0 (K0 ++ names) rel ∧ files_here (names ++ rel) m.
Proof.
  induction depth as [|d IH]; intros names acc w Hw Hsubtree Hnames Hloc Hfuel.
  { exists [], acc, w. rewrite app_nil_r. do 4 (split; [done |]).
    intros m. split; [by intros ?%elem_of_nil |].
    intros (rel & _ & n & c & Hc & _). exfalso.
    pose proof (Idempotence.height_le_fs_height fs0 _ (mk_is_Some _ _ Hc))
      as Hle.
    rewrite !length_app in *. simpl in *. lia. }
  rewrite Idempotence.walk_from_S,
    (bind_ok _ _ _ _ _ (Idempotence.read_dir_run _ _)).
  pose proof Hw as (Hcwd & Hsub & Hdirs). rewrite Hcwd.
  set (w1 := called (SysScandir (path_at T names)) w).
  assert (Hnlw : no_links (w_fs w)) by by eapply no_links_weaken.
  assert (Hvw : valid_names (w_fs w)) by by eapply valid_names_weaken.
  destruct (fs_scandir (w_fs w) cwd (path_at T names)) as [l|e] eqn:Hscan.
  2:{ exists [], acc, w1. rewrite app_nil_r. do 4 (split; [done |]).
      intros m. split; [by intros ?%elem_of_nil |].
      intros (rel & Hreach & _). exfalso.
      apply Idempotence.reach_here in Hreach.
      pose proof (walk_path_tidy fs0 cwd w _ _ _ _ Hnl Hw Hloc Hreach
                  : locate _ _ _ = _) as Hlocw.
      pose proof (fs_scandir_fails _ _ _ _ _ Hscan Hlocw) as Hnd.
      pose proof (tidy_is_dir _ _ _ _ Hw Hreach). congruence. }
  destruct (fs_scandir_plain _ _ _ _ Hnlw Hvw Hscan)
    as (K & HlocK & HdK & _ & Hnd_f & Hnd_w & _ & Hwalk & Hfiles).
  assert (K = K0 ++ names) as ->.
  { pose proof (walk_path_mono _ _ _ _ _ _ Hsub HlocK : locate _ _ _ = _).
    congruence. }
  assert (HdK0 : is_dir_key fs0 (K0 ++ names) = true)
    by by eapply is_dir_key_mono.
  assert (Hchild : ∀ n x, w_fs w !! ((K0 ++ names) ++ [n]) = Some x →
            fs0 !! (K0 ++ names ++ [n]) = Some x ∧ valid_name n = true).
  { intros n x Hx. split.
    - rewrite <- app_assoc in Hx. by rewrite <- Hsubtree.
    - apply (valid_names_entry (w_fs w) (K0 ++ names) n Hvw). by rewrite Hx. }
  (* the sub-directories *)
  destruct (for_each_out_ix
              (λ (pre : list string) (w' : World),
                 tidy w'
                 ∧ ∀ k, (∀ c, c ∈ pre → ¬ at_or_below (K0 ++ names ++ [c]) k) →
                     w_fs w' !! k = w_fs w !! k)
              (λ (c : string) (m : message),
                 ∃ rel, reach fs0 (K0 ++ names ++ [c]) rel
                        ∧ files_here (names ++ c :: rel) m)
              (λ (acc : list Path) (n : string),
                 walk_from d (joinpath (path_at T names) (parse n))
                   (file_pass target_dir keep_files keep_dirs false) acc)
              (walk_dirs l)) with (acc := acc) (w := w1)
    as (new1 & acc1 & w2 & Hrun1 & [Hw2 Hframe2] & Hout1 & Hnew1);
    [| by split |].
  { intros pre x post a w' Hxs [Hw' Hframe'].
    assert (Hx : x ∈ walk_dirs l).
    { rewrite Hxs. apply elem_of_app. right. left. }
    assert (Hxpre : x ∉ pre).
    { apply (NoDup_middle pre post). by rewrite <- Hxs. }
    apply Hwalk in Hx. destruct (Hchild x Dir Hx) as [Hx0 Hvx].
    rewrite (Idempotence.path_at_join _ _ _ Hvx).
    destruct (IH (names ++ [x]) a w' Hw') as
      (new & a' & w'' & Hrun & Hw'' & Hframe'' & Hout & Hnew).
    - intros rest. rewrite <- !app_assoc. rewrite Hframe'.
      + by rewrite (Hsubtree ([x] ++ rest)).
      + intros c Hc Hbelow. rewrite (app_assoc K0 names [c]) in Hbelow.
        rewrite (app_assoc K0 names ([x] ++ rest)) in Hbelow.
        apply at_or_below_child in Hbelow. by subst c.
    - by apply Idempotence.valid_all_snoc.
    - exact (Idempotence.locate_at_child fs0 cwd T K0 Hnl fs0 names x Dir
               (reflexivity _) Hvx Hloc HdK0 Hx0).
    - rewrite !length_app in Hfuel. rewrite !length_app. simpl. lia.
    - exists new, a', w''. split; [done |]. split.
      { split; [done |]. intros k Hk. rewrite Hframe''.
        - apply Hframe'. intros c Hc. apply Hk, elem_of_app. by left.
        - apply Hk, elem_of_app. right. left. }
      split; [done |].
      intros m. rewrite Hnew. split; intros (rel & Hreach & Hm); exists rel.
      + split; [done |]. by rewrite <- app_assoc in Hm.
      + split; [done |]. by rewrite <- app_assoc. }
  rewrite (bind_ok _ _ _ _ _ Hrun1).
  (* the regular files *)
  unfold file_pass at 1.
  destruct (for_each_out_ix
              (λ (pre : list string) (w' : World),
                 tidy w'
                 ∧ ∀ k, (∀ n, n ∈ pre → k ≠ K0 ++ names ++ [n]) →
                     w_fs w' !! k = w_fs w2 !! k)
              (λ (n : string) (m : message),
                 m = MsgDeletedFile (path_at T (names ++ [n]))
                 ∧ kept fs0 cwd (path_at T (names ++ [n])) keep_files keep_dirs
                     (Some target_dir) = false)
              (file_step target_dir keep_files keep_dirs false (path_at T names))
              (nondirs l)) with (acc := acc1) (w := w2)
    as (new2 & acc2 & w3 & Hrun2 & [Hw3 Hframe3] & Hout2 & Hnew2);
    [| by split |].
  { intros pre x post a w' Hxs [Hw' Hframe'].
    assert (Hx : x ∈ nondirs l).
    { rewrite Hxs. apply elem_of_app. right. left. }
    assert (Hxpre : x ∉ pre).
    { apply (NoDup_middle pre post). by rewrite <- Hxs. }
    apply Hfiles in Hx as [c Hx]. destruct (Hchild x _ Hx) as [Hx0 Hvx].
    assert (Hx' : w_fs w' !! (K0 ++ names ++ [x]) = Some (File c)).
    { rewrite Hframe', Hframe2; [by rewrite <- app_assoc in Hx | |].
      - intros c' Hc' Hbelow.
        rewrite (app_assoc K0 names [c']), (app_assoc K0 names [x]) in Hbelow.
        rewrite <- (app_nil_r [x]) in Hbelow.
        apply at_or_below_child in Hbelow. subst c'.
        apply Hwalk in Hc'. congruence.
      - intros n Hn Heq. apply app_inv_head, app_inv_head in Heq.
        injection Heq as ->. done. }
    destruct (real_file_step names x c a w' Hw' Hnames Hvx Hloc HdK0 Hx')
      as (new & a' & w'' & Hrun & Hw'' & Hframe'' & Hout & Hnew).
    exists new, a', w''. split; [done |]. split; [| done].
    split; [done |]. intros k Hk. rewrite Hframe''.
    - apply Hframe'. intros n Hn. apply Hk, elem_of_app. by left.
    - apply Hk, elem_of_app. right. left. }
  rewrite Hrun2. exists (new1 ++ new2), acc2, w3.
  split; [done |]. split; [done |]. split.
  { intros k Hk. rewrite Hframe3, Hframe2; [done | |].
    - intros c _ [r Hr]. apply Hk. exists ([c] ++ r).
      by rewrite Hr, <- !app_assoc.
    - intros n _ ->. apply Hk. exists [n]. by rewrite <- app_assoc. }
  split; [by rewrite Hout2, Hout1, app_assoc |].
  intros m. rewrite elem_of_app, Hnew1, Hnew2. split.
  - intros [(c & Hc & rel & Hreach & Hm) | (n & Hn & -> & Hk)].
    + exists (c :: rel). split; [| done].
      apply Preview.reach_cons; [done | by rewrite <- app_assoc].
    + exists []. rewrite app_nil_r. split; [by apply Idempotence.reach_nil |].
      apply Hfiles in Hn as [c Hc]. destruct (Hchild n _ Hc) as [Hc0 _].
      by exists n, c.
  - intros ([|c rel] & Hreach & Hm).
    + right. rewrite app_nil_r in Hm. destruct Hm as (n & c & Hc & -> & Hk).
      exists n. split; [| done]. apply Hfiles. exists c.
      by rewrite <- app_assoc, Hsubtree.
    + left. exists c. split.
      * apply Hwalk. rewrite <- app_assoc, Hsubtree, app_assoc.
        apply Idempotence.is_dir_key_Dir.
        apply Idempotence.reach_tail in Hreach.
        by apply Idempotence.reach_here in Hreach.
      * exists rel. split; [| done].
        apply Idempotence.reach_tail in Hreach. by rewrite <- app_assoc in Hreach.
Qed.

End Walk.

(** The directory pass prints no line that reports a deleted file. *)
Lemma dir_pass_file_lines (target_dir : string) (keep_dirs : list string)
    (dry_run : bool) (acc : list Path) (w : World) :
  ∃ new acc' w',
    os_walk target_dir (dir_pass target_dir keep_dirs dry_run) acc w
    = (Ok acc', w')
    ∧ w_out w' = w_out w ++ new
    ∧ Forall (λ m, is_deleted_file m = false) new.
Proof.
  destruct (os_walk_carries
              (λ (_ : list Path) (w' : World),
                 ∃ new, w_out w' = w_out w ++ new
                        ∧ Forall (λ m, is_deleted_file m = false) new)
              target_dir (dir_pass target_dir keep_dirs dry_run))
    with (acc := acc) (w := w) as (acc' & Hok & new & Hout & Hnew).
  - intros a p w' Hw'. exact Hw'.
  - intros a root ds fs w' Hw'. unfold dir_pass.
    apply (for_each_carries
             (λ (_ : list Path) (w' : World),
                ∃ new, w_out w' = w_out w ++ new
                       ∧ Forall (λ m, is_deleted_file m = false) new));
      [| done].
    intros a' dn w'' _ (new & Hout & Hnew).
    pose proof (dir_step_run target_dir keep_dirs dry_run root a' dn w'') as Hr.
    assert (Hpr : ∀ msg w3, is_deleted_file msg = false → w_out w3 = w_out w'' →
              ∃ new', w_out (printed msg w3) = w_out w ++ new'
                      ∧ Forall (λ m, is_deleted_file m = false) new').
    { intros msg w3 Hmsg Hw3. exists (new ++ [msg]). simpl.
      rewrite Hw3, Hout, app_assoc. split; [done |].
      apply Forall_app. split; [done |]. by constructor. }
    destruct (dir_step _ _ _ _ _ _ _) as [r w3].
    dir_cases Hr; eexists; (split; [reflexivity |]); simpl;
      try (by exists new); by apply Hpr.
  - exists []. by rewrite app_nil_r.
  - destruct (os_walk _ _ _ _) as [r w'] eqn:Hrun. simpl in *. subst r.
    by exists new, acc', w'.
Qed.

(** The output of a deleting run on a file system without links, as far
    as deleted files go. *)
Lemma real_run_output (target_dir : string)
    (keep_files keep_dirs : option (list string)) (w : World)
    (K0 : list string) :
  no_links (w_fs w) → valid_names (w_fs w) → target_dir ≠ "" →
  locate (w_fs w) (w_cwd w) (parse target_dir) = Ok K0 →
  ∃ (new1 new2 : list message) (n m : nat),
    w_out (delete_files_except target_dir keep_files keep_dirs false w).2
    = w_out w ++ new1 ++ new2 ++ [MsgSummary n m]
    ∧ (∀ msg, msg ∈ new1
              ↔ ∃ p, msg = MsgDeletedFile p
                     ∧ unkept_file (w_fs w) (w_cwd w) target_dir
                         (default [] keep_files) (default [] keep_dirs) K0 p)
    ∧ Forall (λ msg, is_deleted_file msg = false) new2.
Proof.
  intros Hnl Hv Hne HK0.
  set (T := parse target_dir) in *. set (fs0 := w_fs w) in *.
  set (cwd := w_cwd w) in *.
  assert (HT0 : path_at T [] = T).
  { unfold path_at. rewrite app_nil_r. by destruct T. }
  assert (Hex : fs_exists fs0 cwd T = true).
  { unfold fs_exists. by rewrite HK0. }
  destruct (real_file_walk fs0 cwd target_dir T (default [] keep_files)
              (default [] keep_dirs) K0 Hnl Hv (S (fs_height fs0)) [] []
              (called (SysExists T) w))
    as (new1 & files & w1 & Hrun1 & Hw1 & _ & Hout1 & Hnew1).
  { split; [done |]. split; [done |]. done. }
  { done. }
  { constructor. }
  { rewrite HT0, app_nil_r. exact HK0. }
  { lia. }
  destruct (dir_pass_file_lines target_dir (default [] keep_dirs) false [] w1)
    as (new2 & dirs & w2 & Hrun2 & Hout2 & Hnew2).
  rewrite HT0 in Hrun1.
  rewrite (Idempotence.delete_files_except_present target_dir keep_files
             keep_dirs false w w1 w2 files dirs Hex).
  - exists new1, new2, (length files), (length dirs).
    cbn [snd printed w_out]. rewrite Hout2, Hout1. cbn [called w_out].
    rewrite <- !app_assoc. split; [done |]. split; [| done].
    intros msg. rewrite Hnew1, app_nil_r. split.
    + intros (rel & Hreach & n & c & Hc & -> & Hk).
      exists (path_at T (rel ++ [n])). split; [done |]. by exists rel, n, c.
    + intros (p & -> & rel & n & c & -> & Hreach & Hc & Hk).
      exists rel. split; [done |]. by exists n, c.
  - unfold os_walk. destruct (decide (target_dir = "")); [done |].
    cbn [called w_fs]. exact Hrun1.
  - exact Hrun2.
Qed.





End Deleted.

(* ===================================================================== *)
(** * What is left after a deleting run *)
(* ===================================================================== *)

Module Fate.

(** A directory that a run has removed has lost all its entries. *)
Lemma emptied_run (fs0 : gmap (list string) node) (target_dir : string)
    (keep_files keep_dirs : option (list string)) (dry_run : bool) :
  preserves (emptied fs0)
    (delete_files_except target_dir keep_files keep_dirs dry_run).
Proof.
  assert (Hdel : ∀ (fs : gmap (list string) node) (k' : list string),
            fs ⊆ fs0 →
            (∀ k n, fs0 !! k = Some Dir → fs !! k = None →
               fs !! (k ++ [n]) = None) →
            (fs0 !! k' = Some Dir → ∀ n, fs !! (k' ++ [n]) = None) →
            delete k' fs ⊆ fs0
            ∧ ∀ k n, fs0 !! k = Some Dir → delete k' fs !! k = None →
                delete k' fs !! (k ++ [n]) = None).
  { intros fs k' Hsub Hemp Hk'. split.
    - etrans; [apply delete_subseteq | done].
    - intros k n Hk Hgone. apply lookup_delete_None.
      apply lookup_delete_None in Hgone as [-> | Hgone].
      + right. by apply Hk'.
      + right. by apply Hemp. }
  apply run_keeps; try done.
  - intros root a file w r [Hsub Hemp] Hr. file_cases Hr; simpl; try done.
    apply fs_unlink_ok in Hun as (k' & _ & Hnd & [x Hx] & ->).
    apply Hdel; [done | done |]. intros Hk'. exfalso. apply Hnd.
    pose proof (lookup_weaken _ _ _ _ Hx Hsub). congruence.
  - intros root a d w r [Hsub Hemp] Hr. dir_cases Hr; simpl; try done.
    apply fs_rmdir_ok in Hrm as (k' & _ & _ & Hch & ->).
    apply Hdel; [done | done |]. intros _ n. by apply children_nil.
Qed.

Lemma reach_end (fs : gmap (list string) node) (K rel : list string) :
  reach fs K rel → is_dir_key fs (K ++ rel) = true.
Proof.
  intros Hreach. specialize (Hreach (length rel) ltac:(done)).
  by rewrite firstn_all in Hreach.
Qed.

Section Tree.

Context (fs0 : gmap (list string) node) (cwd : list string)
        (target_dir : string) (T : Path) (keep_files keep_dirs : list string)
        (K0 : list string).

Hypothesis Hnl : no_links fs0.
Hypothesis Hv : valid_names fs0.
Hypothesis HT : locate fs0 cwd T = Ok K0.

Local Abbreviation keepF := (keepF fs0 cwd target_dir T keep_files keep_dirs).
Local Abbreviation keepD := (keepD fs0 cwd target_dir T keep_dirs).
Local Abbreviation doomed :=
  (doomed fs0 cwd target_dir T keep_files keep_dirs K0).

(** The names along a chain of directories are valid, and the path the
    walk builds for the chain denotes its end. *)
Lemma reach_locate (rel : list string) :
  reach fs0 K0 rel →
  Forall (λ n : string, valid_name n = true) rel
  ∧ locate fs0 cwd (path_at T rel) = Ok (K0 ++ rel).
Proof.
  induction rel as [|m rel IH] using rev_ind; intros Hreach.
  - split; [constructor |]. unfold path_at. rewrite !app_nil_r.
    by destruct T.
  - assert (Hrel : reach fs0 K0 rel).
    { intros i Hi. specialize (Hreach i). rewrite length_app in Hreach.
      rewrite take_app_le in Hreach by done. apply Hreach. lia. }
    destruct (IH Hrel) as [Hvalid Hloc].
    assert (Hm : fs0 !! (K0 ++ rel ++ [m]) = Some Dir).
    { specialize (Hreach (length (rel ++ [m])) ltac:(done)).
      rewrite firstn_all, app_assoc in Hreach.
      apply Idempotence.is_dir_key_Dir in Hreach. by rewrite <- app_assoc in Hreach. }
    assert (Hvm : valid_name m = true).
    { apply (valid_names_entry fs0 (K0 ++ rel) m Hv).
      by rewrite <- app_assoc, Hm. }
    split; [by apply Idempotence.valid_all_snoc |].
    apply (Idempotence.locate_at_child fs0 cwd T K0 Hnl fs0 rel m Dir
             (reflexivity _) Hvm Hloc (reach_end _ _ _ Hrel) Hm).
Qed.

(** Where the path of an entry that can be reached resolves. *)
Lemma entry_lexical (rel : list string) (n : string) (x : node) :
  reach fs0 K0 rel → fs0 !! (K0 ++ rel ++ [n]) = Some x →
  lexical (base cwd (path_at T (rel ++ [n]))) (parts (path_at T (rel ++ [n])))
  = K0 ++ rel ++ [n].
Proof.
  intros Hreach Hx. destruct (reach_locate rel Hreach) as [Hvalid Hloc].
  assert (Hvn : valid_name n = true).
  { apply (valid_names_entry fs0 (K0 ++ rel) n Hv).
    by rewrite <- app_assoc, Hx. }
  pose proof (Idempotence.locate_at_child fs0 cwd T K0 Hnl fs0 rel n x
                (reflexivity _) Hvn Hloc (reach_end _ _ _ Hreach) Hx)
    as Hlocn.
  symmetry. exact (Survival.walk_path_lexical _ _ _ _ _ Hnl Hlocn).
Qed.

(** An entry that can be reached and is kept is kept by its name or lies
    at or below where a keep-directory entry points. *)
Lemma kept_how (rel : list string) (n : string) (x : node)
    (kf : list string) :
  reach fs0 K0 rel → fs0 !! (K0 ++ rel ++ [n]) = Some x →
  kept fs0 cwd (path_at T (rel ++ [n])) kf keep_dirs (Some target_dir) = true →
  n ∈ kf
  ∨ ∃ d, d ∈ keep_dirs
         ∧ at_or_below (keep_root cwd target_dir d) (K0 ++ rel ++ [n]).
Proof.
  intros Hreach Hx Hkept. unfold kept in Hkept.
  apply orb_true_iff in Hkept as [Hname | Hdir].
  - left. apply bool_decide_eq_true in Hname.
    unfold name, path_at in Hname. simpl in Hname.
    by rewrite !app_assoc, last_last in Hname.
  - right. apply existsb_exists in Hdir as (d & Hd & Hhit).
    exists d. split; [by apply list_elem_of_In |].
    unfold dir_hit in Hhit. rewrite !fs_resolve_plain in Hhit by done.
    rewrite (entry_lexical rel n x Hreach Hx) in Hhit.
    fold (keep_root cwd target_dir d) in Hhit.
    apply orb_true_iff in Hhit as [Hpar | Heq].
    + apply bool_decide_eq_true, elem_of_parents in Hpar
        as [_ (rest & _ & Hrest)].
      by exists rest.
    + apply bool_decide_eq_true in Heq. injection Heq as Heq.
      exists []. by rewrite app_nil_r.
Qed.

Context (fs' : gmap (list string) node).

Hypothesis Hsub : fs' ⊆ fs0.
Hypothesis Hemptied : ∀ k n,
  fs0 !! k = Some Dir → fs' !! k = None → fs' !! (k ++ [n]) = None.
Hypothesis Hnames : ∀ k x,
  fs0 !! k = Some x → is_dir_node x = false → List.last k "" ∈ keep_files →
  fs' !! k = Some x.
Hypothesis Hroots : ∀ d k,
  d ∈ keep_dirs → at_or_below (keep_root cwd target_dir d) k →
  fs' !! k = fs0 !! k.
Hypothesis Hfiles :
  files_ok fs0 cwd target_dir T keep_files keep_dirs K0 fs' [].
Hypothesis Hdirs : dirs_ok fs0 cwd target_dir T keep_dirs K0 fs' [].

(** Below a directory that is gone everything is gone. *)
Lemma gone_below (k rest : list string) :
  (∀ i, (i < length rest)%nat → fs0 !! (k ++ take i rest) = Some Dir) →
  fs' !! k = None → fs' !! (k ++ rest) = None.
Proof.
  induction rest as [|m rest IH] using rev_ind; intros Hchain Hgone.
  - by rewrite app_nil_r.
  - rewrite app_assoc. apply Hemptied.
    + specialize (Hchain (length rest)). rewrite length_app in Hchain.
      rewrite take_app_le, firstn_all in Hchain by done.
      apply Hchain. simpl. lia.
    + apply IH; [| done]. intros i Hi. specialize (Hchain i).
      rewrite length_app in Hchain. rewrite take_app_le in Hchain by lia.
      apply Hchain. lia.
Qed.

(** An entry that is left can still be reached. *)
Lemma left_reach (rel : list string) (n : string) :
  reach fs0 K0 rel → is_Some (fs' !! (K0 ++ rel ++ [n])) → reach fs' K0 rel.
Proof.
  intros Hreach [y Hy] i Hi.
  pose proof (Hreach i Hi) as Hd0.
  unfold is_dir_key, node_at in *.
  destruct (K0 ++ take i rel) as [|a k] eqn:Hk; [done |].
  destruct (fs0 !! (a :: k)) as [[| |]|] eqn:Hk0; try done.
  destruct (fs' !! (a :: k)) as [z|] eqn:Hk'.
  { by rewrite (lookup_weaken _ _ _ _ Hk' Hsub) in Hk0; injection Hk0 as ->. }
  exfalso.
  assert (Hgone : fs' !! ((a :: k) ++ drop i rel ++ [n]) = None).
  { apply gone_below; [| done]. intros j Hj. rewrite <- Hk.
    rewrite length_app, length_drop in Hj. simpl in Hj.
    assert (take j (drop i rel ++ [n]) = take j (drop i rel)) as ->.
    { apply take_app_le. rewrite length_drop. lia. }
    destruct j as [|j].
    - by rewrite take_0, app_nil_r, Hk.
    - rewrite <- app_assoc, take_take_drop.
      specialize (Hreach (i + S j)%nat ltac:(lia)).
      unfold is_dir_key, node_at in Hreach.
      destruct (K0 ++ take (i + S j) rel) as [|b k2] eqn:Hk2.
      + apply (f_equal length) in Hk2. rewrite length_app, length_take in Hk2.
        simpl in Hk2. lia.
      + by destruct (fs0 !! (b :: k2)) as [[| |]|]. }
  rewrite <- Hk, <- app_assoc, (app_assoc (take i rel)), take_drop in Hgone.
  congruence.
Qed.

(** An entry that is gone was not kept. *)
Lemma gone_unkept_file (rel : list string) (n : string) (c : content) :
  reach fs0 K0 rel → fs0 !! (K0 ++ rel ++ [n]) = Some (File c) →
  fs' !! (K0 ++ rel ++ [n]) = None → keepF (rel ++ [n]) = false.
Proof.
  intros Hreach Hx Hgone.
  destruct (keepF (rel ++ [n])) eqn:Hkept; [exfalso | done].
  destruct (kept_how rel n _ keep_files Hreach Hx Hkept) as [Hn | (d & Hd & Hb)].
  - rewrite (Hnames _ _ Hx) in Hgone; [done | done |].
    by rewrite !app_assoc, last_last.
  - rewrite (Hroots d _ Hd Hb) in Hgone. congruence.
Qed.

Lemma gone_unkept_dir (rel : list string) (n : string) :
  reach fs0 K0 rel → fs0 !! (K0 ++ rel ++ [n]) = Some Dir →
  fs' !! (K0 ++ rel ++ [n]) = None → keepD (rel ++ [n]) = false.
Proof.
  intros Hreach Hx Hgone.
  destruct (keepD (rel ++ [n])) eqn:Hkept; [exfalso | done].
  destruct (kept_how rel n _ [] Hreach Hx Hkept) as [Hn | (d & Hd & Hb)].
  - by apply elem_of_nil in Hn.
  - rewrite (Hroots d _ Hd Hb) in Hgone. congruence.
Qed.

Lemma file_fate_here (rel : list string) (n : string) (c : content) :
  reach fs0 K0 rel → fs0 !! (K0 ++ rel ++ [n]) = Some (File c) →
  fs' !! (K0 ++ rel ++ [n]) = None ↔ keepF (rel ++ [n]) = false.
Proof.
  intros Hreach Hx. split; [by apply (gone_unkept_file rel n c) |].
  intros Hkept. destruct (fs' !! (K0 ++ rel ++ [n])) as [y|] eqn:Hy; [| done].
  exfalso.
  pose proof (lookup_weaken _ _ _ _ Hy Hsub) as Hy0.
  rewrite Hx in Hy0. injection Hy0 as <-.
  assert (Hreach' : reach fs' (K0 ++ []) rel).
  { rewrite app_nil_r. apply (left_reach rel n); [done | by rewrite Hy]. }
  specialize (Hfiles rel n c Hreach' Hy). simpl in Hfiles. congruence.
Qed.

Lemma reach_entry (rel : list string) (n : string) :
  reach fs0 K0 rel → fs0 !! (K0 ++ rel ++ [n]) = Some Dir →
  reach fs0 K0 (rel ++ [n]).
Proof.
  intros Hreach Hx. apply Idempotence.reach_snoc; [done |].
  rewrite app_assoc. by apply Idempotence.is_dir_key_Dir; rewrite <- app_assoc.
Qed.

Lemma doomed_gone (names : list string) :
  doomed names →
  ∀ rel n, names = rel ++ [n] → reach fs0 K0 rel →
    fs' !! (K0 ++ rel ++ [n]) = None.
Proof.
  induction 1 as [names Hdir Hkept Hfs _ IH]. intros rel n -> Hreach.
  destruct (fs' !! (K0 ++ rel ++ [n])) as [y|] eqn:Hy; [| done]. exfalso.
  pose proof (lookup_weaken _ _ _ _ Hy Hsub) as Hy0.
  rewrite Hdir in Hy0. injection Hy0 as <-.
  assert (Hreach' : reach fs' (K0 ++ []) rel).
  { rewrite app_nil_r. apply (left_reach rel n); [done | by rewrite Hy]. }
  destruct (Hdirs rel n Hreach' Hy) as [Hk | Hch]; simpl in *; [congruence |].
  destruct (children fs' (K0 ++ rel ++ [n])) as [|m ms] eqn:Hms; [done |].
  assert (Hm : m ∈ children fs' (K0 ++ rel ++ [n])) by (rewrite Hms; left).
  apply elem_of_children in Hm as [x Hx].
  pose proof (lookup_weaken _ _ _ _ Hx Hsub) as Hx0.
  rewrite <- (app_assoc K0) in Hx, Hx0.
  pose proof (reach_entry rel n Hreach Hdir) as Hreachn.
  destruct x as [c| |tgt].
  - assert (fs' !! (K0 ++ (rel ++ [n]) ++ [m]) = None) as Hgone.
    { apply (file_fate_here (rel ++ [n]) m c); [done | done |].
      by apply (Hfs m c). }
    congruence.
  - specialize (IH m Hx0 (rel ++ [n]) m eq_refl Hreachn). congruence.
  - by specialize (Hnl _ _ Hx0).
Qed.

Lemma gone_doomed (h : nat) :
  ∀ rel n, (fs_height fs0 < h + length (K0 ++ rel ++ [n]))%nat →
    reach fs0 K0 rel → fs0 !! (K0 ++ rel ++ [n]) = Some Dir →
    fs' !! (K0 ++ rel ++ [n]) = None → doomed (rel ++ [n]).
Proof.
  induction h as [|h IH]; intros rel n Hh Hreach Hx Hgone.
  { exfalso.
    pose proof (Idempotence.height_le_fs_height fs0 _ (mk_is_Some _ _ Hx)).
    simpl in Hh. lia. }
  pose proof (reach_entry rel n Hreach Hx) as Hreachn.
  constructor.
  - done.
  - by apply gone_unkept_dir.
  - intros m c Hm.
    apply (gone_unkept_file (rel ++ [n]) m c Hreachn); [done |].
    rewrite (app_assoc K0 (rel ++ [n]) [m]). by apply Hemptied.
  - intros m Hm.
    apply IH; [| done | done |].
    + rewrite !length_app in Hh. rewrite !length_app. simpl in *. lia.
    + rewrite (app_assoc K0 (rel ++ [n]) [m]). by apply Hemptied.
Qed.

End Tree.

(** What a deleting run leaves of the entries that can be reached below
    the target, on a file system without links. *)
Lemma run_fate (target_dir : string)
    (keep_files keep_dirs : option (list string)) (w : World)
    (K0 : list string) :
  no_links (w_fs w) → valid_names (w_fs w) → target_dir ≠ "" →
  locate (w_fs w) (w_cwd w) (parse target_dir) = Ok K0 →
  locate (w_fs (delete_files_except target_dir keep_files keep_dirs false w).2)
    (w_cwd w) (parse target_dir) = Ok K0 →
  ∀ rel n, reach (w_fs w) K0 rel →
    (∀ c, w_fs w !! (K0 ++ rel ++ [n]) = Some (File c) →
       w_fs (delete_files_except target_dir keep_files keep_dirs false w).2
         !! (K0 ++ rel ++ [n]) = None
       ↔ kept (w_fs w) (w_cwd w) (path_at (parse target_dir) (rel ++ [n]))
           (default [] keep_files) (default [] keep_dirs) (Some target_dir)
         = false)
    ∧ (w_fs w !! (K0 ++ rel ++ [n]) = Some Dir →
       w_fs (delete_files_except target_dir keep_files keep_dirs false w).2
         !! (K0 ++ rel ++ [n]) = None
       ↔ doomed (w_fs w) (w_cwd w) target_dir (parse target_dir)
           (default [] keep_files) (default [] keep_dirs) K0 (rel ++ [n])).
Proof.
  intros Hnl Hv Hne HK0 Hstill rel n Hreach.
  destruct (emptied_run (w_fs w) target_dir keep_files keep_dirs false w)
    as [Hsub Hemptied].
  { split; [done |]. intros k m Hk Hgone. congruence. }
  pose proof (Survival.names_intact_run (w_fs w) target_dir keep_files
                keep_dirs false w) as Hnames.
  destruct (Survival.roots_intact_run (w_fs w) (w_cwd w) target_dir keep_files
              keep_dirs false Hnl w) as (_ & _ & Hroots).
  { split; [done |]. split; [done |]. done. }
  destruct (Completeness.run_leaves_settled target_dir keep_files keep_dirs w
              K0 Hnl Hv Hne HK0 Hstill) as [Hfiles Hdirs].
  set (fs' := w_fs (delete_files_except target_dir keep_files keep_dirs false
                      w).2) in *.
  split.
  - intros c Hx.
    apply (file_fate_here (w_fs w) (w_cwd w) target_dir (parse target_dir)
             (default [] keep_files) (default [] keep_dirs) K0 Hnl Hv HK0 fs'
             Hsub Hemptied) with (c := c); try done.
    apply Hnames. by intros k x Hk _ _.
  - intros Hx. split.
    + apply (gone_doomed (w_fs w) (w_cwd w) target_dir (parse target_dir)
               (default [] keep_files) (default [] keep_dirs) K0 Hnl Hv HK0 fs'
               Hemptied) with (h := S (fs_height (w_fs w))); try done.
      * apply Hnames. by intros k x Hk _ _.
      * lia.
    + intros Hdoomed.
      apply (doomed_gone (w_fs w) (w_cwd w) target_dir (parse target_dir)
               (default [] keep_files) (default [] keep_dirs) K0 Hnl Hv HK0 fs'
               Hsub Hemptied) with (names := rel ++ [n]); try done.
      apply Hnames. by intros k x Hk _ _.
Qed.





End Fate.
